(** * bgs.py: candidate filter, scoring engine and expansion collapser

    A shallow embedding of the core of [bgs.py] (class [Master] and the
    helper [standardize]) together with the properties of its scoring and
    ranking that the specification states.

    Conventions of the embedding.
    - Python [int] is [Z]; Python [float] is read as the real number it
      denotes, so [+], [-], [*], [/], [pow], [math.exp] and [round] are
      their exact counterparts on [R]: no rounding error, no NaN, no
      infinity, and no [OverflowError] of a conversion or of [math.exp].
      A number of the program can so differ from the number here by the
      rounding of binary64, in the last of the four decimals of a score or
      in a comparison at the very point of a cut; statements about scores
      are made with ranges and orders that hold either way, and statements
      about the absence of errors for data inside the range of [float].
    - A [dict] is an association list in insertion order.  A [set] is a
      duplicate-free list that is walked through in insertion order, where
      CPython goes by hash; the statements hold for the sets as sets and,
      where an order is named, for the order in which the set is walked
      through.
    - Code that can raise returns a [result]; [exit()] is the exception
      [SystemExit].
    - Logging and the [__detailed_evaluations] explanations, which are only
      ever logged, are left out. *)

From Stdlib Require Import ZArith List String Bool Lia Reals Lra.
From Stdlib Require Import Permutation Sorted DecimalString.
Import ListNotations.

Local Open Scope Z_scope.

(** ** Python primitives *)

Inductive exn : Type :=
| KeyError
| ValueError
| TypeError
| ZeroDivisionError
| SystemExit.

Inductive result (A : Type) : Type :=
| Ok (a : A)
| Raise (e : exn).

Arguments Ok {A} a.
Arguments Raise {A} e.

Definition bind {A B : Type} (c : result A) (k : A -> result B) : result B :=
  match c with
  | Ok a => k a
  | Raise e => Raise e
  end.

Notation "x <- c ;; k" := (bind c (fun x => k))
  (at level 61, c at next level, right associativity).

(** [for x in xs: acc = body(acc, x)] where the body may raise. *)
Fixpoint for_each {A S : Type} (body : S -> A -> result S) (xs : list A) (acc : S)
  : result S :=
  match xs with
  | [] => Ok acc
  | x :: xs' => acc' <- body acc x ;; for_each body xs' acc'
  end.

Section Dict.
Context {K V : Type} (keq : K -> K -> bool).

(** [d.get(k, None)] *)
Fixpoint dict_get (d : list (K * V)) (k : K) : option V :=
  match d with
  | [] => None
  | (k', v) :: d' => if keq k k' then Some v else dict_get d' k
  end.

(** [d[k]] *)
Definition dict_index (d : list (K * V)) (k : K) : result V :=
  match dict_get d k with
  | Some v => Ok v
  | None => Raise KeyError
  end.

(** [k in d] *)
Definition dict_mem (d : list (K * V)) (k : K) : bool :=
  match dict_get d k with
  | Some _ => true
  | None => false
  end.

(** [d[k] = v]: an existing key keeps its place, a new one goes last. *)
Fixpoint dict_set (d : list (K * V)) (k : K) (v : V) : list (K * V) :=
  match d with
  | [] => [(k, v)]
  | (k', v') :: d' =>
      if keq k k' then (k', v) :: d' else (k', v') :: dict_set d' k v
  end.

Fixpoint dict_remove (d : list (K * V)) (k : K) : list (K * V) :=
  match d with
  | [] => []
  | (k', v') :: d' =>
      if keq k k' then d' else (k', v') :: dict_remove d' k
  end.

(** [d.pop(k)], for its effect on [d]. *)
Definition dict_pop (d : list (K * V)) (k : K) : result (list (K * V)) :=
  if dict_mem d k then Ok (dict_remove d k) else Raise KeyError.

End Dict.

Definition dict_keys {K V : Type} (d : list (K * V)) : list K := map fst d.
Definition dict_values {K V : Type} (d : list (K * V)) : list V := map snd d.

(** [x in s] and [s.add(x)] on a set of ints. *)
Definition set_mem (x : Z) (s : list Z) : bool := existsb (Z.eqb x) s.

Definition set_add (x : Z) (s : list Z) : list Z :=
  if set_mem x s then s else s ++ [x].

Definition py_any (l : list bool) : bool := existsb (fun b => b) l.
Definition py_all (l : list bool) : bool := forallb (fun b => b) l.

(** [n in range(lo, hi)] *)
Definition in_range (n lo hi : Z) : bool := (lo <=? n) && (n <? hi).

(** Truth value of an object used as a condition. *)
Definition truthy_int (n : Z) : bool := negb (n =? 0).

Definition truthy_float (x : option R) : bool :=
  match x with
  | Some r => if Req_dec_T r 0 then false else true
  | None => false
  end.

Definition truthy_seq {A : Type} (x : option (list A)) : bool :=
  match x with
  | Some (_ :: _) => true
  | _ => false
  end.

(** [sum(l)] *)
Definition py_sum_int (l : list Z) : Z := fold_left Z.add l 0.
Definition py_sum (l : list R) : R := fold_left Rplus l 0%R.

(** [max(a, b)] and [min(a, b)]: the first argument is kept unless the
    second is strictly larger (smaller). *)
Definition py_max2 (a b : R) : R := if Rlt_dec a b then b else a.
Definition py_min2 (a b : R) : R := if Rlt_dec b a then b else a.

(** [max(l)] raises [ValueError] on an empty sequence. *)
Definition py_max (l : list R) : result R :=
  match l with
  | [] => Raise ValueError
  | x :: l' => Ok (fold_left py_max2 l' x)
  end.

Definition py_max_int (l : list Z) : result Z :=
  match l with
  | [] => Raise ValueError
  | x :: l' => Ok (fold_left Z.max l' x)
  end.

(** [x / d] with a float numerator and an int denominator. *)
Definition py_truediv (x : R) (d : Z) : result R :=
  if d =? 0 then Raise ZeroDivisionError else Ok (x / IZR d)%R.

(** [round(x, ndigits)]: the nearest multiple of [10^-ndigits], a tie going
    to the even one. *)
Definition round_half_even (y : R) : Z :=
  let f := Int_part y in
  let d := (y - IZR f)%R in
  if Rlt_dec d (1 / 2) then f
  else if Rlt_dec (1 / 2) d then f + 1
  else if Z.even f then f else f + 1.

Definition py_round (x : R) (ndigits : nat) : R :=
  (IZR (round_half_even (x * 10 ^ ndigits)) / 10 ^ ndigits)%R.

(** [sorted(items, key=operator.itemgetter(1), reverse=True)]: a stable sort,
    so entries of equal score keep their order. *)
Fixpoint insert_desc (x : Z * R) (l : list (Z * R)) : list (Z * R) :=
  match l with
  | [] => [x]
  | y :: l' =>
      if Rlt_dec (snd x) (snd y) then y :: insert_desc x l' else x :: l
  end.

Definition sorted_by_score_desc (l : list (Z * R)) : list (Z * R) :=
  fold_right insert_desc [] l.

(** [l[:n]] *)
Definition slice_to {A : Type} (l : list A) (n : Z) : list A :=
  if 0 <=? n then firstn (Z.to_nat n) l
  else firstn (Z.to_nat (Z.of_nat (List.length l) + n)) l.

(** ** The helper [standardize] *)

Definition standardize (value : R) : R :=
  py_max2 0 (py_min2 1 (py_round value 4)).

(** ** Data model: classes [GameStats], [Player], [Game], [Master] *)

Record GameStats : Type := mkGameStats {
  owned : bool;
  rating : option R;
  play_count : Z;
  want_to_play : bool
}.

Record Player : Type := mkPlayer {
  username : string;
  is_guest : bool;
  games_stats : list (Z * GameStats)
}.

Record Game : Type := mkGame {
  game_id : Z;
  player_min : option Z;
  player_max : option Z;
  playing_time : option Z;
  suggested_players : option (list (Z * list (string * Z)));
  is_an_expansion : bool;
  expansion_of : option (list Z);
  average_weight : option R;
  average_rating : option R
}.

Record Master : Type := mkMaster {
  game_group : list Player;
  collection_group : list Player;
  collection : list (Z * Game);
  available_collection : list Z;
  possible_collection : list Z;
  evaluations : list (Z * R)
}.

(** ** [Master.rate_our_games], part 1: the candidate filter (lines 554-583) *)

(** [[player.games_stats[game_id].owned for player in collection_group
      if game_id in player.games_stats]] *)
Definition owned_flags (owners : list Player) (gid : Z) : list bool :=
  flat_map
    (fun player =>
       match dict_get Z.eqb (games_stats player) gid with
       | Some stats => [owned stats]
       | None => []
       end)
    owners.

(** First loop: the games of the collection owned by a collection owner are
    added to [__available_collection]. *)
Definition select_available (coll : list (Z * Game)) (owners : list Player)
  (available : list Z) : list Z :=
  fold_left
    (fun avail gid =>
       if py_any (owned_flags owners gid) then set_add gid avail else avail)
    (dict_keys coll) available.

Definition number_of_players (m : Master) : Z :=
  Z.of_nat (List.length (game_group m)).

(** The check of the number of players: [true] when the game is skipped. *)
Definition wrong_player_count (g : Game) (n : Z) : bool :=
  match player_min g, player_max g with
  | Some lo, Some hi => negb (in_range n lo (hi + 1))
  | _, _ => false
  end.

(** [all([(base_id not in available) for base_id in g.expansion_of])];
    iterating over [None] raises [TypeError]. *)
Definition no_base_available (g : Game) (available : list Z) : result bool :=
  match expansion_of g with
  | Some bases => Ok (py_all (map (fun base_id => negb (set_mem base_id available)) bases))
  | None => Raise TypeError
  end.

(** Body of the second loop, one game of [__available_collection]. *)
Definition select_possible_step (coll : list (Z * Game)) (available : list Z)
  (n : Z) (possible : list Z) (gid : Z) : result (list Z) :=
  g <- dict_index Z.eqb coll gid ;;
  if wrong_player_count g n then Ok possible
  else if is_an_expansion g then
    skip <- no_base_available g available ;;
    if skip then Ok possible else Ok (set_add gid possible)
  else Ok (set_add gid possible).

Definition select_possible (coll : list (Z * Game)) (available : list Z)
  (n : Z) (possible : list Z) : result (list Z) :=
  for_each (select_possible_step coll available n) available possible.

Definition set_candidates (m : Master) (avail poss : list Z) : Master :=
  mkMaster (game_group m) (collection_group m) (collection m) avail poss
    (evaluations m).

(** The filter as [rate_our_games] runs it, with its two fatal exits. *)
Definition select_games (m : Master) : result Master :=
  let avail :=
    select_available (collection m) (collection_group m) (available_collection m) in
  match avail with
  | [] => Raise SystemExit
  | _ :: _ =>
      poss <- select_possible (collection m) avail (number_of_players m)
                (possible_collection m) ;;
      match poss with
      | [] => Raise SystemExit
      | _ :: _ => Ok (set_candidates m avail poss)
      end
  end.

(** ** [Master.rate_our_games], part 2: the scoring engine (lines 585-697) *)

Local Open Scope R_scope.

(** [score_weights] *)
Definition w_score_playing_time : R := 0.4.
Definition w_score_weight : R := 0.4.
Definition w_suggested_values : R := 0.2.
Definition w_players_score : R := 0.4.

(** Playing time (lines 599-613); [playing_time] is the requested one. *)
Definition score_playing_time (g : Game) (playing_time_req : option Z)
  (weight : option R) : R * R :=
  let dflt :=
    if truthy_float weight then (0.5, w_score_playing_time) else (0, 0) in
  match playing_time g, playing_time_req with
  | Some gt, Some t =>
      let delta_time := Z.abs (t - gt) in
      let max_delta := t in
      if (delta_time >=? max_delta)%Z then (0, w_score_playing_time)
      else
        let raw_score := IZR delta_time * (3 / IZR max_delta) + 2 in
        (1 - (Rpower 2 raw_score - 4) / 28, w_score_playing_time)
  | _, _ => dflt
  end.

(** Weight (lines 615-629). *)
Definition score_weight (g : Game) (weight : option R) : R * R :=
  let dflt :=
    if truthy_float weight then (0.5, w_score_weight) else (0, 0) in
  match average_weight g, weight with
  | Some gw, Some w =>
      let delta_weight := Rabs (w - gw) in
      let max_delta := 2.5 in
      if Rle_dec max_delta delta_weight then (0, w_score_weight)
      else
        let raw_score := delta_weight * (2 / max_delta) + 2 in
        (1 - (Rpower 2 raw_score - 4) / 16, w_score_weight)
  | _, _ => dflt
  end.

(** The votes of one player count, [suggested_values] (lines 637-642). *)
Definition suggestion_of_votes (suggested_values : list (string * Z))
  : result (R * R) :=
  let suggested_max_score := py_sum_int (dict_values suggested_values) in
  nr <- dict_index String.eqb suggested_values "Not Recommended"%string ;;
  s0 <- py_truediv (IZR nr * 0.5) suggested_max_score ;;
  best <- dict_index String.eqb suggested_values "Best"%string ;;
  s1 <- py_truediv (IZR best * 1.0) suggested_max_score ;;
  rec <- dict_index String.eqb suggested_values "Recommended"%string ;;
  s2 <- py_truediv (IZR rec * 0.5) suggested_max_score ;;
  nr' <- dict_index String.eqb suggested_values "Not Recommended"%string ;;
  s3 <- py_truediv (IZR nr' * 0.5) suggested_max_score ;;
  let score_suggestion := s0 + s1 + s2 - s3 in
  Ok (py_max2 0.0 score_suggestion, w_suggested_values).

(** BGG user suggested number of players (lines 631-643). *)
Definition score_suggested_values (g : Game) (n : Z) : result (R * R) :=
  let dflt := (0.6, w_suggested_values) in
  match suggested_players g with
  | Some (e :: sp) =>
      match dict_get Z.eqb (e :: sp) n with
      | Some (v :: vs) => suggestion_of_votes (v :: vs)
      | _ => Ok dflt
      end
  | _ => Ok dflt
  end.

(** The number held by an optional float that has been tested to be set. *)
Definition float_of (x : option R) : R :=
  match x with
  | Some r => r
  | None => 0
  end.

(** One turn of the loop over the game group (lines 656-681), on the pair
    [(players_score, divide_by)]; a turn cut short by [continue] leaves the
    pair as it was. *)
Definition players_score_step (gid : Z) (acc : R * R) (player : Player)
  : R * R :=
  let '(players_score, divide_by) := acc in
  if is_guest player then acc
  else
    match dict_get Z.eqb (games_stats player) gid with
    | None => acc
    | Some stats =>
        let r := float_of (rating stats) in
        if want_to_play stats then
          if truthy_float (rating stats)
          then (players_score + 0.8 + r * 0.2, divide_by + 1.0)
          else (players_score + 0.9, divide_by + 1.0)
        else
          if truthy_float (rating stats) then
            if (play_count stats =? 0)%Z
            then (players_score + r * 0.8, divide_by + 1.0)
            else
              (players_score
               + exp (IZR (play_count stats) / Rpower 2.0 (r * 10) * -1.0) * r,
               divide_by + 1.0)
          else acc
    end.

(** The pair before the loop (lines 649-654). *)
Definition players_score_init (g : Game) : R * R :=
  if truthy_float (average_rating g)
  then (float_of (average_rating g) * 0.5, 0.5)
  else (0.0, 0.0).

Definition players_score_loop (g : Game) (gid : Z) (group : list Player)
  : R * R :=
  fold_left (players_score_step gid) group (players_score_init g).

(** Players score (lines 645-689). *)
Definition score_players (g : Game) (gid : Z) (group : list Player) : R * R :=
  let '(players_score, divide_by) := players_score_loop g gid group in
  if Rlt_dec 0.0 divide_by
  then (players_score / divide_by, w_players_score)
  else (0.5, w_players_score).

(** The score of the four pairs, in the order the dict [scores] holds them
    (lines 691-697). *)
Definition final_score (scores : list (R * R)) : R :=
  let score_weights_sum := py_sum (map snd scores) in
  if Rlt_dec 0.0 score_weights_sum
  then standardize (py_sum (map (fun s => fst s * snd s) scores) / score_weights_sum)
  else 0.0.

Definition game_scores (g : Game) (gid : Z) (group : list Player)
  (playing_time_req : option Z) (weight : option R) : result (list (R * R)) :=
  sv <- score_suggested_values g (Z.of_nat (List.length group)) ;;
  Ok [score_playing_time g playing_time_req weight;
      score_weight g weight;
      sv;
      score_players g gid group].

(** Body of the rating loop: one game of [__possible_collection]. *)
Definition rate_step (m : Master) (playing_time_req : option Z)
  (weight : option R) (evals : list (Z * R)) (gid : Z) : result (list (Z * R)) :=
  g <- dict_index Z.eqb (collection m) gid ;;
  scores <- game_scores g gid (game_group m) playing_time_req weight ;;
  Ok (dict_set Z.eqb evals gid (final_score scores)).

Definition rate_games (m : Master) (playing_time_req : option Z)
  (weight : option R) : result Master :=
  evals <- for_each (rate_step m playing_time_req weight)
             (possible_collection m) (evaluations m) ;;
  Ok (mkMaster (game_group m) (collection_group m) (collection m)
        (available_collection m) (possible_collection m) evals).

Definition rate_our_games (m : Master) (playing_time_req : option Z)
  (weight : option R) : result Master :=
  m' <- select_games m ;;
  rate_games m' playing_time_req weight.

Local Close Scope R_scope.

(** ** The part of [networkx] the code uses

    [networkx] is a library outside the repository.  A [DiGraph] keeps its
    nodes, with their attributes, and the successors of each node in
    insertion order. *)

Record NodeData : Type := mkNodeData {
  pMin : option Z;
  pMax : option Z;
  isBase : bool
}.

Record DiGraph : Type := mkDiGraph {
  node : list (Z * NodeData);
  adj : list (Z * list Z)
}.

Definition empty_graph : DiGraph := mkDiGraph [] [].

(** [g.add_node(n, pMin=.., pMax=.., isBase=..)]: a node already present
    keeps its place and takes the new attributes. *)
Definition add_node (g : DiGraph) (n : Z) (d : NodeData) : DiGraph :=
  mkDiGraph (dict_set Z.eqb (node g) n d)
    (if dict_mem Z.eqb (adj g) n then adj g else adj g ++ [(n, [])]).

Definition successors (g : DiGraph) (u : Z) : list Z :=
  match dict_get Z.eqb (adj g) u with
  | Some vs => vs
  | None => []
  end.

(** [g.add_edge(u, v)], called when [u] and [v] are nodes already. *)
Definition add_edge (g : DiGraph) (u v : Z) : DiGraph :=
  mkDiGraph (node g) (dict_set Z.eqb (adj g) u (set_add v (successors g u))).

(** The depth-first enumeration behind [all_simple_paths]: [visited] is the
    path walked so far, which ends in [u]. *)
Fixpoint simple_paths_from (fuel : nat) (g : DiGraph) (target : Z)
  (visited : list Z) (u : Z) : list (list Z) :=
  match fuel with
  | O => []
  | S fuel' =>
      flat_map
        (fun child =>
           if child =? target then [visited ++ [target]]
           else if set_mem child visited then []
           else simple_paths_from fuel' g target (visited ++ [child]) child)
        (successors g u)
  end.

(** [list(networkx.all_simple_paths(g, source, target))]; a simple path has
    fewer edges than the graph has nodes. *)
Definition all_simple_paths (g : DiGraph) (source target : Z) : list (list Z) :=
  simple_paths_from (List.length (node g)) g target [source] source.

(** [networkx.has_path(g, source, target)]: there is a path exactly when
    there is a simple one. *)
Definition has_path (g : DiGraph) (source target : Z) : bool :=
  match all_simple_paths g source target with
  | [] => false
  | _ :: _ => true
  end.

(** ** [Master.show_your_decision] (lines 699-793) *)

Definition node_data_of (game : Game) : NodeData :=
  mkNodeData (player_min game) (player_max game) (negb (is_an_expansion game)).

(** Inner loop of the graph construction (lines 706-710). *)
Definition add_base_step (coll : list (Z * Game)) (available : list Z)
  (gid : Z) (g : DiGraph) (base_id : Z) : result DiGraph :=
  if set_mem base_id available then
    base <- dict_index Z.eqb coll base_id ;;
    Ok (add_edge (add_node g base_id (node_data_of base)) base_id gid)
  else Ok g.

(** Outer loop of the graph construction (lines 702-710). *)
Definition add_game_step (coll : list (Z * Game)) (available : list Z)
  (g : DiGraph) (gid : Z) : result DiGraph :=
  game <- dict_index Z.eqb coll gid ;;
  match expansion_of game with
  | Some (b :: bs) =>
      for_each (add_base_step coll available gid) (b :: bs)
        (add_node g gid (node_data_of game))
  | _ => Ok g
  end.

Definition exp_graph (m : Master) : result DiGraph :=
  for_each (add_game_step (collection m) (available_collection m))
    (possible_collection m) empty_graph.

(** [[self.__collection[n].attr for n in path
      if self.__collection[n].attr is not None]] *)
Fixpoint path_attrs (coll : list (Z * Game)) (attr : Game -> option Z)
  (path : list Z) : result (list Z) :=
  match path with
  | [] => Ok []
  | n :: path' =>
      game <- dict_index Z.eqb coll n ;;
      rest <- path_attrs coll attr path' ;;
      match attr game with
      | Some v => Ok (v :: rest)
      | None => Ok rest
      end
  end.

(** Lines 723-727: is the path kept for a group of [n] players? *)
Definition path_feasible (coll : list (Z * Game)) (n : Z) (path : list Z)
  : result bool :=
  maxs <- path_attrs coll player_max path ;;
  p_max <- py_max_int maxs ;;
  mins <- path_attrs coll player_min path ;;
  p_min <- py_max_int mins ;;
  Ok (truthy_int p_max && truthy_int p_min && in_range n p_min (p_max + 1)).

(** [base_to_exp[node].append(path)] *)
Definition append_path (base_to_exp : list (Z * list (list Z))) (base : Z)
  (path : list Z) : result (list (Z * list (list Z))) :=
  paths <- dict_index Z.eqb base_to_exp base ;;
  Ok (dict_set Z.eqb base_to_exp base (paths ++ [path])).

(** Lines 722-727, one path. *)
Definition path_step (coll : list (Z * Game)) (n : Z) (base : Z)
  (base_to_exp : list (Z * list (list Z))) (path : list Z)
  : result (list (Z * list (list Z))) :=
  ok <- path_feasible coll n path ;;
  if ok then append_path base_to_exp base path else Ok base_to_exp.

(** Lines 718-727, one child. *)
Definition child_step (coll : list (Z * Game)) (n : Z) (g : DiGraph)
  (base : Z) (base_to_exp : list (Z * list (list Z)))
  (child : Z * NodeData) : result (list (Z * list (list Z))) :=
  if isBase (snd child) then Ok base_to_exp
  else if has_path g base (fst child) then
    for_each (path_step coll n base) (all_simple_paths g base (fst child))
      base_to_exp
  else Ok base_to_exp.

(** Lines 713-727, one node. *)
Definition base_step (coll : list (Z * Game)) (n : Z) (g : DiGraph)
  (base_to_exp : list (Z * list (list Z)))
  (nd : Z * NodeData) : result (list (Z * list (list Z))) :=
  if negb (isBase (snd nd)) then Ok base_to_exp
  else
    for_each (child_step coll n g (fst nd)) (node g)
      (dict_set Z.eqb base_to_exp (fst nd) []).

(** [build_exp_graph()] returns [base_to_exp] and the keys of the nodes. *)
Definition build_exp_graph (m : Master)
  : result (list (Z * list (list Z)) * list Z) :=
  g <- exp_graph m ;;
  base_to_exp <- for_each (base_step (collection m) (number_of_players m) g)
                   (node g) [] ;;
  Ok (base_to_exp, dict_keys (node g)).

(** [[self.__evaluations[game_id] for game_id in exp
      if game_id in self.__evaluations]] *)
Definition scores_on_path (evals : list (Z * R)) (exp : list Z) : list R :=
  flat_map
    (fun gid =>
       match dict_get Z.eqb evals gid with
       | Some s => [s]
       | None => []
       end)
    exp.

(** Lines 736-744, one base with its paths. *)
Definition max_scores_step (evals : list (Z * R)) (max_scores : list (Z * R))
  (entry : Z * list (list Z)) : result (list (Z * R)) :=
  let '(base, exps) := entry in
  match exps with
  | [] => Ok max_scores
  | _ :: _ =>
      let own :=
        match dict_get Z.eqb evals base with
        | Some s => s
        | None => 0%R
        end in
      exp_max_score <-
        for_each (fun acc exp => py_max ([acc] ++ scores_on_path evals exp))
          exps own ;;
      Ok (dict_set Z.eqb max_scores base exp_max_score)
  end.

(** Lines 747-751, one node. *)
Definition new_eval_step (graph : list (Z * list (list Z)))
  (max_scores : list (Z * R)) (new_eval : list (Z * R)) (gid : Z)
  : result (list (Z * R)) :=
  if negb (dict_mem Z.eqb graph gid) then dict_pop Z.eqb new_eval gid
  else
    s <- dict_index Z.eqb max_scores gid ;;
    Ok (dict_set Z.eqb new_eval gid s).

(** [if limit: sorted_evaluation = sorted_evaluation[:limit]] *)
Definition apply_limit (limit : option Z) (l : list (Z * R)) : list (Z * R) :=
  match limit with
  | Some n => if truthy_int n then slice_to l n else l
  | None => l
  end.

(** The display scores [new_eval] (lines 734-751). *)
Definition display_scores (m : Master) : result (list (Z * R)) :=
  r <- build_exp_graph m ;;
  let '(graph, nodes) := r in
  max_scores <- for_each (max_scores_step (evaluations m)) graph [] ;;
  for_each (new_eval_step graph max_scores) nodes (evaluations m).

(** [show_your_decision] as far as [sorted_evaluation], the ranked list the
    printing loop then walks through. *)
Definition show_your_decision (m : Master) (limit : option Z)
  (separate_exp : bool) : result (list (Z * R)) :=
  if negb separate_exp then
    new_eval <- display_scores m ;;
    Ok (apply_limit limit (sorted_by_score_desc new_eval))
  else
    Ok (apply_limit limit (sorted_by_score_desc (evaluations m))).

(** ** Predicates used in the statements *)

Definition unit_interval (x : R) : Prop := (0 <= x <= 1)%R.

(** What the second loop checks before it adds a game. *)
Definition fits_group (coll : list (Z * Game)) (avail : list Z) (n : Z)
  (gid : Z) : Prop :=
  exists g,
    dict_get Z.eqb coll gid = Some g
    /\ (forall lo hi,
           player_min g = Some lo -> player_max g = Some hi -> (lo <= n <= hi)%Z)
    /\ (is_an_expansion g = true ->
        exists bases base_id,
          expansion_of g = Some bases /\ In base_id bases /\ In base_id avail).


(** The raw value of the suggested-player sub-score in the words of the
    specification: [clamp_min_0(Best*1.0/total + Recommended*0.5/total
    - NotRecommended*0.5/total)]. *)
Definition spec_suggested_raw (best recommended not_recommended total : Z) : R :=
  Rmax 0 (IZR best * 1.0 / IZR total + IZR recommended * 0.5 / IZR total
          - IZR not_recommended * 0.5 / IZR total)%R.

(** [d] is the maximum of [own] and the numbers of [others]. *)
Definition max_of (d own : R) (others : list R) : Prop :=
  (d = own \/ In d others)
  /\ (own <= d)%R
  /\ forall s, In s others -> (s <= d)%R.

(** Ranked lists go from the highest score down. *)
Definition score_desc (a b : Z * R) : Prop := (snd b <= snd a)%R.

(** The nodes of a graph under construction: each key once, each with the
    data of its game. *)
Definition nodes_from (coll : list (Z * Game)) (g : DiGraph) : Prop :=
  NoDup (dict_keys (node g))
  /\ forall k d, In (k, d) (node g) ->
                 exists game, dict_get Z.eqb coll k = Some game
                              /\ d = node_data_of game.

(** The keys of [base_to_exp] under construction: each once, each a node
    with [isBase]. *)
Definition bases_of (g : DiGraph) (base_to_exp : list (Z * list (list Z)))
  : Prop :=
  NoDup (dict_keys base_to_exp)
  /\ forall k, In k (dict_keys base_to_exp) ->
               exists d, In (k, d) (node g) /\ isBase d = true.

(** Each node of [p] but the last has the next one among its successors. *)
Fixpoint is_walk (g : DiGraph) (p : list Z) : Prop :=
  match p with
  | u :: p' =>
      match p' with
      | v :: _ => In v (successors g u) /\ is_walk g p'
      | [] => True
      end
  | [] => True
  end.

(** A simple path of [g] from [source] to [target]. *)
Definition simple_path (g : DiGraph) (source target : Z) (p : list Z) : Prop :=
  hd_error p = Some source
  /\ last p source = target
  /\ is_walk g p
  /\ NoDup p.

(** The paths [base_to_exp] keeps under a base: simple paths of the graph
    from the base to an expansion node that pass the test of lines 723-726. *)
Definition kept_paths (coll : list (Z * Game)) (n : Z) (g : DiGraph)
  (base_to_exp : list (Z * list (list Z))) : Prop :=
  forall base paths path,
    dict_get Z.eqb base_to_exp base = Some paths ->
    In path paths ->
    path_feasible coll n path = Ok true
    /\ exists child d,
        In (child, d) (node g) /\ isBase d = false
        /\ simple_path g base child path.

(** The games as the parser builds them: an expansion has its set of
    bases. *)
Definition expansions_have_bases (coll : list (Z * Game)) : Prop :=
  forall gid g,
    In (gid, g) coll -> is_an_expansion g = true -> expansion_of g <> None.



(** Vote counts are counts. *)
Definition votes_nonneg (sv : list (string * Z)) : Prop :=
  Forall (fun v => 0 <= v) (dict_values sv).

Definition polls_nonneg (g : Game) : Prop :=
  forall sp n sv,
    suggested_players g = Some sp -> dict_get Z.eqb sp n = Some sv ->
    votes_nonneg sv.

(** Ratings as the parsers store them, a tenth of a rating from 0 to 10,
    and a number of plays that is a count. *)
Definition stats_in_range (stats : GameStats) : Prop :=
  0 <= play_count stats
  /\ forall r, rating stats = Some r -> (0 <= r <= 1)%R.

Definition group_in_range (gid : Z) (group : list Player) : Prop :=
  forall player stats,
    In player group ->
    dict_get Z.eqb (games_stats player) gid = Some stats ->
    stats_in_range stats.

Definition average_rating_in_range (g : Game) : Prop :=
  forall r, average_rating g = Some r -> (0 <= r <= 1)%R.

(** ** [Master.add_guests] (lines 498-506) *)

(** [Player('GUEST_%d' % i, is_guest=True)]; [games_stats] is the empty dict
    of the class. *)
Definition guest (i : nat) : Player :=
  mkPlayer ("GUEST_" ++ NilEmpty.string_of_uint (Nat.to_uint i)) true [].

(** [for i in range(0, number_of_guests): self.__game_group.append(...)] *)
Definition add_guests (m : Master) (number_of_guests : Z) : Master :=
  mkMaster (game_group m ++ map guest (seq 0 (Z.to_nat number_of_guests)))
    (collection_group m) (collection m) (available_collection m)
    (possible_collection m) (evaluations m).

(** The entries of a list that have the score [s], in their order. *)
Definition has_score (s : R) (x : Z * R) : bool :=
  if Req_dec_T (snd x) s then true else false.

(** ** The poll of suggested player numbers in [Game.download_games_data] *)

(** The part of the parser that works on dicts alone: the votes of one poll
    line are added to the player numbers it stands for (lines 425-428), and
    the player numbers with few votes are dropped (lines 432-440). Reading
    the XML is outside the model. *)

Definition MIN_VOTES_FOR_SUGGESTION : Z := 10.

(** One turn of the loop of lines 425-428:
    [if pn not in suggested_players: suggested_players[pn] = {}] and
    [suggested_players[pn][value] = suggested_players[pn].get(value, 0) + votes]. *)
Definition add_votes_step (value : string) (votes : Z)
  (suggested_players : list (Z * list (string * Z))) (pn : Z)
  : result (list (Z * list (string * Z))) :=
  let suggested_players :=
    if negb (dict_mem Z.eqb suggested_players pn)
    then dict_set Z.eqb suggested_players pn []
    else suggested_players in
  line <- dict_index Z.eqb suggested_players pn ;;
  let old := match dict_get String.eqb line value with
             | Some v => v
             | None => 0
             end in
  Ok (dict_set Z.eqb suggested_players pn
        (dict_set String.eqb line value (old + votes))).

(** [for pn in player_nums: ...] *)
Definition add_votes (suggested_players : list (Z * list (string * Z)))
  (player_nums : list Z) (value : string) (votes : Z)
  : result (list (Z * list (string * Z))) :=
  for_each (add_votes_step value votes) player_nums suggested_players.

(** One turn of the loop of lines 435-438; [kept] is [g.suggested_players],
    the copy that loses entries, [suggested_players] the dict the loop runs
    over. *)
Definition clean_step (suggested_players kept : list (Z * list (string * Z)))
  (pn : Z) : result (list (Z * list (string * Z))) :=
  line <- dict_index Z.eqb suggested_players pn ;;
  let all_votes := py_sum_int (dict_values line) in
  if all_votes <? MIN_VOTES_FOR_SUGGESTION
  then dict_pop Z.eqb kept pn
  else Ok kept.

(** Lines 432-440: what [g.suggested_players] is after the poll; it stays
    [None], the default of the class, when the poll gave nothing. *)
Definition clean_suggestions (suggested_players : list (Z * list (string * Z)))
  : result (option (list (Z * list (string * Z)))) :=
  match suggested_players with
  | [] => Ok None
  | _ :: _ =>
      kept <- for_each (clean_step suggested_players)
                (dict_keys suggested_players) suggested_players ;;
      Ok (match kept with
          | [] => None
          | _ :: _ => Some kept
          end)
  end.

(** The number of votes that a poll holds for a number of players. *)
Definition total_votes (suggested_players : list (Z * list (string * Z)))
  (pn : Z) : Z :=
  match dict_get Z.eqb suggested_players pn with
  | Some line => py_sum_int (dict_values line)
  | None => 0
  end.

Definition enough_votes (entry : Z * list (string * Z)) : bool :=
  MIN_VOTES_FOR_SUGGESTION <=? py_sum_int (dict_values (snd entry)).

(** ** Feasible paths, in the words of the specification *)

(** [v] is the largest value that [attr] has on the games of [path], among
    the games where it is set. *)
Definition largest_on (coll : list (Z * Game)) (attr : Game -> option Z)
  (path : list Z) (v : Z) : Prop :=
  (exists gid game,
      In gid path /\ dict_get Z.eqb coll gid = Some game /\ attr game = Some v)
  /\ forall gid game v',
      In gid path -> dict_get Z.eqb coll gid = Some game ->
      attr game = Some v' -> v' <= v.

(** "A path is feasible for the current group if the bracket
    [path_min = max(node.player_min over path)],
    [path_max = max(node.player_max over path)] contains N." *)
Definition group_fits_path (coll : list (Z * Game)) (n : Z) (path : list Z)
  : Prop :=
  exists path_min path_max,
    largest_on coll player_min path path_min
    /\ largest_on coll player_max path path_max
    /\ path_min <= n <= path_max.

(** A feasible path from a base to a reachable expansion: a simple path of
    the dependency graph from [base] to a node that is an expansion, whose
    bracket contains the group size. *)
Definition feasible_expansion_path (coll : list (Z * Game)) (n : Z)
  (g : DiGraph) (base : Z) (path : list Z) : Prop :=
  (exists child d,
      In (child, d) (node g) /\ isBase d = false
      /\ simple_path g base child path)
  /\ group_fits_path coll n path.

(** The numbers of players as the parser stores them (lines 361-365): a
    bound is set only when it is positive. *)
Definition bounds_positive (coll : list (Z * Game)) : Prop :=
  forall gid g v,
    In (gid, g) coll ->
    player_min g = Some v \/ player_max g = Some v -> 0 < v.

(** Every edge of the graph leads to a node. *)
Definition edges_closed (g : DiGraph) : Prop :=
  forall u v, In v (successors g u) -> In v (dict_keys (node g)).

(** [paths] holds every path from [base] to an expansion node that
    [all_simple_paths] yields and the test of lines 723-726 lets through. *)
Definition paths_complete (coll : list (Z * Game)) (n : Z) (g : DiGraph)
  (base : Z) (paths : list (list Z)) : Prop :=
  forall child d path,
    In (child, d) (node g) -> isBase d = false ->
    In path (all_simple_paths g base child) ->
    path_feasible coll n path = Ok true ->
    In path paths.

(** ** Data inside the range of [float] *)

(** The embedding reads a [float] as a real number, so the conversion of an
    [int] to [float] and [math.exp] never fail in it.  In the program the
    conversion raises [OverflowError] for an [int] beyond the range of
    [float], [math.exp] raises it for a large argument, and [pow(2.0, x)]
    underflows to [0.0] for a very negative [x].  Statements on the absence
    of errors are made for data in the range below, where none of this
    happens: numbers of plays are counts, ratings lie between 0 and 1 (so
    the argument of [math.exp] on line 675 is at most 0 and its divisor is
    between 1 and 1024), and every [int] that meets a [float] is below
    [2^1023] in absolute value. *)
Definition float_safe (z : Z) : Prop := Z.abs z < 2 ^ 1023.

Definition votes_float_safe (sv : list (string * Z)) : Prop :=
  votes_nonneg sv /\ float_safe (py_sum_int (dict_values sv)).

Definition polls_float_safe (g : Game) : Prop :=
  forall sp n sv,
    suggested_players g = Some sp -> dict_get Z.eqb sp n = Some sv ->
    votes_float_safe sv.



(** The votes of one player count have the three categories. *)
Definition votes_have_categories (sv : list (string * Z)) : Prop :=
  dict_mem String.eqb sv "Best"%string = true
  /\ dict_mem String.eqb sv "Recommended"%string = true
  /\ dict_mem String.eqb sv "Not Recommended"%string = true.

Definition polls_have_categories (g : Game) : Prop :=
  forall sp n sv,
    suggested_players g = Some sp -> dict_get Z.eqb sp n = Some sv ->
    votes_have_categories sv.
(** ** Example inputs *)

(** A base game with two expansions in a chain, all for 2 to 4 players, all
    owned by [alice], who plays with [bob]. *)
Definition stats_owned : GameStats := mkGameStats true None 0 false.

Definition alice : Player :=
  mkPlayer "alice" false [(1, stats_owned); (2, stats_owned); (3, stats_owned)].

Definition bob : Player := mkPlayer "bob" false [].

Definition chain_base : Game :=
  mkGame 1 (Some 2) (Some 4) None None false None None None.

Definition chain_mid : Game :=
  mkGame 2 (Some 2) (Some 4) None None true (Some [1]) None None.

Definition chain_top : Game :=
  mkGame 3 (Some 2) (Some 4) None None true (Some [2]) None None.

Definition chain_collection : list (Z * Game) :=
  [(1, chain_base); (2, chain_mid); (3, chain_top)].

(** The [Master] before [rate_our_games]. *)
Definition chain_fresh : Master :=
  mkMaster [alice; bob] [alice] chain_collection [] [] [].

(** Votes of a poll for one player count: as many for "Recommended" as for
    "Not Recommended". *)
Definition votes_split : list (string * Z) :=
  [("Best"%string, 0); ("Recommended"%string, 10); ("Not Recommended"%string, 10)].

Definition split_game : Game :=
  mkGame 4 (Some 2) (Some 4) None (Some [(2, votes_split)]) false None None None.

(** Votes of a poll whose "Not Recommended" line the parser skipped. *)
Definition votes_two_lines : list (string * Z) :=
  [("Best"%string, 10); ("Recommended"%string, 5)].

Definition two_lines_game : Game :=
  mkGame 5 (Some 2) (Some 4) None (Some [(2, votes_two_lines)]) false None None None.

Definition carol : Player := mkPlayer "carol" false [(5, stats_owned)].

Definition two_lines_fresh : Master :=
  mkMaster [carol; bob] [carol] [(5, two_lines_game)] [] [] [].

(** A game of 60 minutes and one of 120. *)
Definition hour_game : Game :=
  mkGame 6 (Some 2) (Some 4) (Some 60) None false None None None.

Definition two_hour_game : Game :=
  mkGame 7 (Some 2) (Some 4) (Some 120) None false None None None.


(** The [Master] of the chain once [rate_our_games] has run with neither a
    playing time nor a weight requested. *)
Definition chain_rated : Master :=
  match rate_our_games chain_fresh None None with
  | Ok m => m
  | Raise _ => chain_fresh
  end.

(** A base for 3 to 5 players with an expansion for 2 to 5, owned by [dave],
    who plays with [bob]: a group of two. *)
Definition narrow_base : Game :=
  mkGame 1 (Some 3) (Some 5) None None false None None None.

Definition wide_expansion : Game :=
  mkGame 2 (Some 2) (Some 5) None None true (Some [1]) None None.

Definition dave : Player :=
  mkPlayer "dave" false [(1, stats_owned); (2, stats_owned)].

Definition narrow_fresh : Master :=
  mkMaster [dave; bob] [dave] [(1, narrow_base); (2, wide_expansion)] [] [] [].

(** A base and its expansion that both come without [player_max]. *)
Definition unbounded_base : Game :=
  mkGame 1 (Some 2) None None None false None None None.

Definition unbounded_expansion : Game :=
  mkGame 2 (Some 2) None None None true (Some [1]) None None.

Definition unbounded_fresh : Master :=
  mkMaster [dave; bob] [dave]
    [(1, unbounded_base); (2, unbounded_expansion)] [] [] [].

(** A game of average weight 2 and one of average weight 4. *)
Definition light_game : Game :=
  mkGame 8 (Some 2) (Some 4) None None false None (Some 2%R) None.

Definition heavy_game : Game :=
  mkGame 9 (Some 2) (Some 4) None None false None (Some 4%R) None.

(** The [Master] of the narrow base once [rate_our_games] has run. *)
Definition narrow_rated : Master :=
  match rate_our_games narrow_fresh None None with
  | Ok m => m
  | Raise _ => narrow_fresh
  end.

(** A base for 2 to 4 players with an expansion for 2 to 6, owned by [dave],
    who plays with [bob] and three guests: a group of five, too many for the
    base alone. *)
Definition small_base : Game :=
  mkGame 1 (Some 2) (Some 4) None None false None None None.

Definition large_expansion : Game :=
  mkGame 2 (Some 2) (Some 6) None None true (Some [1]) None None.

Definition party_fresh : Master :=
  add_guests
    (mkMaster [dave; bob] [dave] [(1, small_base); (2, large_expansion)] [] [] [])
    3.

Definition party_rated : Master :=
  match rate_our_games party_fresh None None with
  | Ok m => m
  | Raise _ => party_fresh
  end.

(** A poll as the parser has it before the cleaning: twelve votes for two
    players, six for three. *)
Definition poll_raw : list (Z * list (string * Z)) :=
  [(2, [("Best"%string, 6); ("Recommended"%string, 5); ("Not Recommended"%string, 1)]);
   (3, [("Best"%string, 1); ("Recommended"%string, 2); ("Not Recommended"%string, 3)])].

Definition polled_game : Game :=
  mkGame 7 (Some 2) (Some 3) None
    (Some [(2, [("Best"%string, 6); ("Recommended"%string, 5);
                ("Not Recommended"%string, 1)])])
    false None None None.

(** A base with two expansions, owned by [gina], who plays with [bob]: a
    group of two.  The first expansion is rated better than the base.  The
    second, for 5 players or more, has no [player_max], so the filter lets
    it through, and it has the best rating; the path to it is not
    feasible. *)
Definition fork_base : Game :=
  mkGame 1 (Some 2) (Some 4) None None false None None None.

Definition fork_small : Game :=
  mkGame 2 (Some 2) (Some 4) None None true (Some [1]) None (Some 0.8%R).

Definition fork_large : Game :=
  mkGame 3 (Some 5) None None None true (Some [1]) None (Some 0.9%R).

Definition gina : Player :=
  mkPlayer "gina" false [(1, stats_owned); (2, stats_owned); (3, stats_owned)].

Definition fork_collection : list (Z * Game) :=
  [(1, fork_base); (2, fork_small); (3, fork_large)].

Definition fork_fresh : Master :=
  mkMaster [gina; bob] [gina] fork_collection [] [] [].

Definition fork_rated : Master :=
  match rate_our_games fork_fresh None None with
  | Ok m => m
  | Raise _ => fork_fresh
  end.

Definition fork_graph : DiGraph :=
  mkDiGraph
    [(2, mkNodeData (Some 2) (Some 4) false);
     (1, mkNodeData (Some 2) (Some 4) true);
     (3, mkNodeData (Some 5) None false)]
    [(2, []); (1, [2; 3]); (3, [])].

(** A game with a poll, a playing time, a weight and a rating, owned by
    [erin], who rated and played it; [frank] rated it and wants to play
    it. *)
Definition votes_rich : list (string * Z) :=
  [("Best"%string, 6); ("Recommended"%string, 5); ("Not Recommended"%string, 1)].

Definition rich_game : Game :=
  mkGame 10 (Some 2) (Some 4) (Some 60) (Some [(2, votes_rich)]) false None
    (Some 2.5%R) (Some 0.7%R).

Definition erin : Player :=
  mkPlayer "erin" false [(10, mkGameStats true (Some 0.8%R) 3 false)].

Definition frank : Player :=
  mkPlayer "frank" false [(10, mkGameStats false (Some 0.6%R) 0 true)].

(** * Properties *)

(** ** The Python primitives *)

Lemma bind_Ok_inv {A B : Type} (c : result A) (k : A -> result B) (b : B) :
  bind c k = Ok b -> exists a, c = Ok a /\ k a = Ok b.
Proof.
  destruct c as [a | e]; simpl; intros H.
  - exists a. split; [reflexivity | exact H].
  - discriminate H.
Qed.

(** A property kept by every turn of a loop holds when the loop ends. *)
Lemma for_each_invariant {A S : Type} (P : S -> Prop)
  (body : S -> A -> result S) (xs : list A) :
  (forall acc x acc', In x xs -> P acc -> body acc x = Ok acc' -> P acc') ->
  forall acc r, P acc -> for_each body xs acc = Ok r -> P r.
Proof.
  induction xs as [| x xs IH]; simpl; intros Hbody acc r Hacc Hrun.
  - injection Hrun as <-. exact Hacc.
  - apply bind_Ok_inv in Hrun as (acc' & Hx & Hrest).
    apply (IH (fun a y a' Hy => Hbody a y a' (or_intror Hy)) acc' r); [| exact Hrest].
    apply (Hbody acc x acc'); [left; reflexivity | exact Hacc | exact Hx].
Qed.

(** A loop whose every turn succeeds succeeds. *)
Lemma for_each_total {A S : Type} (body : S -> A -> result S) (xs : list A) :
  (forall acc x, In x xs -> exists acc', body acc x = Ok acc') ->
  forall acc, exists r, for_each body xs acc = Ok r.
Proof.
  induction xs as [| x xs IH]; simpl; intros Hbody acc.
  - exists acc. reflexivity.
  - destruct (Hbody acc x (or_introl eq_refl)) as (acc' & ->). simpl.
    apply IH. intros a y Hy. apply Hbody. right. exact Hy.
Qed.

Section DictFacts.
Context {V : Type}.

Lemma dict_get_In (d : list (Z * V)) (k : Z) (v : V) :
  dict_get Z.eqb d k = Some v -> In (k, v) d.
Proof.
  induction d as [| [k' v'] d IH]; simpl; [discriminate |].
  destruct (Z.eqb_spec k k') as [-> | Hne]; intros H.
  - injection H as ->. left. reflexivity.
  - right. apply IH. exact H.
Qed.

Lemma dict_get_None (d : list (Z * V)) (k : Z) :
  dict_get Z.eqb d k = None <-> ~ In k (dict_keys d).
Proof.
  induction d as [| [k' v'] d IH]; simpl.
  - split; [intros _ [] | reflexivity].
  - destruct (Z.eqb_spec k k') as [-> | Hne]; split; intros H.
    + discriminate H.
    + exfalso. apply H. left. reflexivity.
    + intros [Heq | Hin]; [congruence | apply IH in H; contradiction].
    + apply IH. intros Hin. apply H. right. exact Hin.
Qed.

Lemma dict_mem_In (d : list (Z * V)) (k : Z) :
  dict_mem Z.eqb d k = true <-> In k (dict_keys d).
Proof.
  unfold dict_mem. pose proof (dict_get_None d k) as H.
  destruct (dict_get Z.eqb d k) as [v |]; split; intros Hk.
  - destruct (in_dec Z.eq_dec k (dict_keys d)) as [Hin | Hout]; [exact Hin |].
    apply H in Hout. discriminate Hout.
  - reflexivity.
  - discriminate Hk.
  - exfalso. apply (proj1 H); [reflexivity | exact Hk].
Qed.

Lemma dict_get_set_same (d : list (Z * V)) (k : Z) (v : V) :
  dict_get Z.eqb (dict_set Z.eqb d k v) k = Some v.
Proof.
  induction d as [| [k' v'] d IH]; simpl.
  - rewrite Z.eqb_refl. reflexivity.
  - destruct (Z.eqb_spec k k') as [-> | Hne]; simpl.
    + rewrite Z.eqb_refl. reflexivity.
    + destruct (Z.eqb_spec k k'); [contradiction | exact IH].
Qed.

Lemma dict_get_set_other (d : list (Z * V)) (k k0 : Z) (v : V) :
  k0 <> k -> dict_get Z.eqb (dict_set Z.eqb d k v) k0 = dict_get Z.eqb d k0.
Proof.
  intros Hne. induction d as [| [k' v'] d IH]; simpl.
  - destruct (Z.eqb_spec k0 k); [contradiction | reflexivity].
  - destruct (Z.eqb_spec k k') as [-> | Hne']; simpl.
    + destruct (Z.eqb_spec k0 k'); [contradiction | reflexivity].
    + destruct (Z.eqb_spec k0 k'); [reflexivity | exact IH].
Qed.

Lemma dict_set_keys (d : list (Z * V)) (k : Z) (v : V) :
  dict_keys (dict_set Z.eqb d k v)
  = if dict_mem Z.eqb d k then dict_keys d else dict_keys d ++ [k].
Proof.
  unfold dict_mem. induction d as [| [k' v'] d IH]; simpl; [reflexivity |].
  destruct (Z.eqb_spec k k') as [-> | Hne]; simpl; [reflexivity |].
  rewrite IH. destruct (dict_get Z.eqb d k); reflexivity.
Qed.

Lemma dict_set_values (P : V -> Prop) (d : list (Z * V)) (k : Z) (v : V) :
  Forall P (dict_values d) -> P v -> Forall P (dict_values (dict_set Z.eqb d k v)).
Proof.
  intros Hd Hv. induction d as [| [k' v'] d IH]; simpl.
  - constructor; [exact Hv | constructor].
  - inversion Hd as [| ? ? Hv' Hd']; subst.
    destruct (k =? k')%Z; simpl; constructor; auto.
Qed.

Lemma dict_get_remove_other (d : list (Z * V)) (k k0 : Z) :
  k0 <> k -> dict_get Z.eqb (dict_remove Z.eqb d k) k0 = dict_get Z.eqb d k0.
Proof.
  intros Hne. induction d as [| [k' v'] d IH]; simpl; [reflexivity |].
  destruct (Z.eqb_spec k k') as [-> | Hne']; simpl.
  - destruct (Z.eqb_spec k0 k'); [contradiction | reflexivity].
  - destruct (Z.eqb_spec k0 k'); [reflexivity | exact IH].
Qed.

Lemma dict_remove_incl (d : list (Z * V)) (k : Z) :
  incl (dict_remove Z.eqb d k) d.
Proof.
  induction d as [| [k' v'] d IH]; simpl; [apply incl_refl |].
  destruct (k =? k')%Z.
  - apply incl_tl, incl_refl.
  - apply incl_cons; [left; reflexivity | apply incl_tl, IH].
Qed.

(** In a dict, where each key occurs once, a removed key is gone. *)
Lemma dict_remove_gone (d : list (Z * V)) (k : Z) :
  NoDup (dict_keys d) -> ~ In k (dict_keys (dict_remove Z.eqb d k)).
Proof.
  induction d as [| [k' v'] d IH]; simpl; intros Hnd; [intros [] |].
  inversion Hnd as [| ? ? Hk' Hnd']; subst.
  destruct (Z.eqb_spec k k') as [-> | Hne]; simpl.
  - exact Hk'.
  - intros [Heq | Hin]; [congruence | exact (IH Hnd' Hin)].
Qed.

Lemma dict_remove_keys_incl (d : list (Z * V)) (k : Z) :
  incl (dict_keys (dict_remove Z.eqb d k)) (dict_keys d).
Proof.
  intros x Hx. apply in_map_iff in Hx as ([k1 v1] & <- & Hin).
  apply dict_remove_incl in Hin. apply in_map_iff. exists (k1, v1). auto.
Qed.

Lemma dict_remove_NoDup (d : list (Z * V)) (k : Z) :
  NoDup (dict_keys d) -> NoDup (dict_keys (dict_remove Z.eqb d k)).
Proof.
  induction d as [| [k' v'] d IH]; simpl; intros Hnd; [constructor |].
  inversion Hnd as [| ? ? Hk' Hnd']; subst.
  destruct (k =? k')%Z; simpl; [exact Hnd' |].
  constructor; [| exact (IH Hnd')].
  intros Hin. apply Hk'. exact (dict_remove_keys_incl d k k' Hin).
Qed.

Lemma dict_set_NoDup (d : list (Z * V)) (k : Z) (v : V) :
  NoDup (dict_keys d) -> NoDup (dict_keys (dict_set Z.eqb d k v)).
Proof.
  intros Hnd. rewrite dict_set_keys.
  destruct (dict_mem Z.eqb d k) eqn:Hmem; [exact Hnd |].
  assert (~ In k (dict_keys d)) as Hout.
  { intros Hin. apply dict_mem_In in Hin. congruence. }
  clear Hmem. induction (dict_keys d) as [| a l IH]; simpl.
  - constructor; [intros [] | constructor].
  - inversion Hnd as [| ? ? Ha Hl]; subst. constructor.
    + rewrite in_app_iff. intros [Hin | [Heq | []]]; [contradiction |].
      apply Hout. left. symmetry. exact Heq.
    + apply IH; [exact Hl |]. intros Hin. apply Hout. right. exact Hin.
Qed.

End DictFacts.

Lemma set_mem_In (x : Z) (s : list Z) : set_mem x s = true <-> In x s.
Proof.
  unfold set_mem. rewrite existsb_exists. split.
  - intros (y & Hy & Heq). apply Z.eqb_eq in Heq. subst. exact Hy.
  - intros H. exists x. split; [exact H | apply Z.eqb_refl].
Qed.

Lemma set_add_In (x y : Z) (s : list Z) :
  In y (set_add x s) <-> y = x \/ In y s.
Proof.
  unfold set_add. destruct (set_mem x s) eqn:Hmem.
  - apply set_mem_In in Hmem. split; [auto |].
    intros [-> | H]; assumption.
  - rewrite in_app_iff. simpl. split.
    + intros [H | [H | []]]; auto.
    + intros [-> | H]; auto.
Qed.

Lemma in_range_spec (n lo hi : Z) :
  in_range n lo hi = true <-> (lo <= n < hi)%Z.
Proof.
  unfold in_range. rewrite andb_true_iff, Z.leb_le, Z.ltb_lt. tauto.
Qed.

Local Open Scope R_scope.

Lemma py_max2_Rmax (a b : R) : py_max2 a b = Rmax a b.
Proof.
  unfold py_max2, Rmax.
  destruct (Rlt_dec a b), (Rle_dec a b); lra.
Qed.

Lemma py_min2_Rmin (a b : R) : py_min2 a b = Rmin a b.
Proof.
  unfold py_min2, Rmin.
  destruct (Rlt_dec b a), (Rle_dec a b); lra.
Qed.

Lemma py_max2_left (a b : R) : b <= a -> py_max2 a b = a.
Proof. intros H. unfold py_max2. destruct (Rlt_dec a b); lra. Qed.

Lemma py_max2_right (a b : R) : a <= b -> py_max2 a b = b.
Proof. intros H. unfold py_max2. destruct (Rlt_dec a b); lra. Qed.

Lemma truthy_float_Some (r : R) : r <> 0 -> truthy_float (Some r) = true.
Proof.
  intros H. unfold truthy_float. destruct (Req_dec_T r 0); [contradiction | reflexivity].
Qed.

Lemma truthy_float_zero : truthy_float (Some 0) = false.
Proof.
  unfold truthy_float. destruct (Req_dec_T 0 0) as [_ | H]; [reflexivity | lra].
Qed.

Lemma Rabs_bound (a b : R) : Rabs a <= b -> - b <= a <= b.
Proof.
  intros H. unfold Rabs in H. destruct (Rcase_abs a); lra.
Qed.

Lemma round_half_even_near (y : R) :
  Rabs (IZR (round_half_even y) - y) <= 1 / 2.
Proof.
  unfold round_half_even.
  destruct (base_Int_part y) as [Hlo Hhi].
  set (f := Int_part y) in *.
  destruct (Rlt_dec (y - IZR f) (1 / 2)) as [H1 | H1].
  - apply Rabs_le. lra.
  - destruct (Rlt_dec (1 / 2) (y - IZR f)) as [H2 | H2].
    + rewrite plus_IZR. apply Rabs_le. lra.
    + destruct (Z.even f).
      * apply Rabs_le. lra.
      * rewrite plus_IZR. apply Rabs_le. lra.
Qed.

Lemma pow10_4 : 10 ^ 4 = 10000.
Proof. simpl. lra. Qed.

(** [round(x, 4)] is within half a unit of the fourth decimal of [x]. *)
Lemma py_round_4_near (x : R) : Rabs (py_round x 4 - x) <= 1 / 20000.
Proof.
  unfold py_round. rewrite pow10_4.
  pose proof (round_half_even_near (x * 10000)) as H.
  apply Rabs_bound in H. apply Rabs_le. lra.
Qed.

Lemma standardize_range (x : R) : 0 <= standardize x <= 1.
Proof.
  unfold standardize, py_max2, py_min2.
  repeat destruct Rlt_dec; lra.
Qed.

Lemma standardize_digits (x : R) :
  exists k : Z, (0 <= k <= 10000)%Z /\ standardize x = IZR k / 10000.
Proof.
  unfold standardize, py_max2, py_min2.
  destruct (Rlt_dec (py_round x 4) 1) as [H1 | H1].
  - destruct (Rlt_dec 0 (py_round x 4)) as [H0 | H0].
    + unfold py_round in *. rewrite pow10_4 in *.
      set (k := round_half_even (x * 10000)) in *.
      exists k. split; [| reflexivity].
      assert (0 < IZR k < IZR 10000) as [Hk0 Hk1] by lra.
      apply lt_IZR in Hk0, Hk1. lia.
    + exists 0%Z. split; [lia | lra].
  - destruct (Rlt_dec 0 1) as [_ | H]; [| lra].
    exists 10000%Z. split; [lia | lra].
Qed.

Local Close Scope R_scope.

(** ** Scores lie in the unit interval (C8) *)

Lemma final_score_range (scores : list (R * R)) : unit_interval (final_score scores).
Proof.
  unfold final_score, unit_interval.
  destruct (Rlt_dec 0.0 (py_sum (map snd scores))).
  - apply standardize_range.
  - lra.
Qed.

Lemma rate_step_unit (m : Master) (t : option Z) (w : option R)
  (evals evals' : list (Z * R)) (gid : Z) :
  Forall unit_interval (dict_values evals) ->
  rate_step m t w evals gid = Ok evals' ->
  Forall unit_interval (dict_values evals').
Proof.
  unfold rate_step. intros Hev Hrun.
  apply bind_Ok_inv in Hrun as (g & _ & Hrun).
  apply bind_Ok_inv in Hrun as (scores & _ & Hrun).
  injection Hrun as <-.
  apply dict_set_values; [exact Hev | apply final_score_range].
Qed.

Lemma select_games_evaluations (m m' : Master) :
  select_games m = Ok m' -> evaluations m' = evaluations m.
Proof.
  unfold select_games. intros H.
  destruct (select_available _ _ _) as [| a avail]; [discriminate |].
  apply bind_Ok_inv in H as (poss & _ & H).
  destruct poss; [discriminate |]. injection H as <-. reflexivity.
Qed.

Lemma rate_our_games_unit (m m' : Master) (t : option Z) (w : option R) :
  rate_our_games m t w = Ok m' ->
  Forall unit_interval (dict_values (evaluations m)) ->
  Forall unit_interval (dict_values (evaluations m')).
Proof.
  unfold rate_our_games, rate_games. intros Hrun Hev.
  apply bind_Ok_inv in Hrun as (m1 & Hsel & Hrun).
  apply bind_Ok_inv in Hrun as (evals & Hloop & Hrun).
  injection Hrun as <-. simpl.
  apply select_games_evaluations in Hsel. rewrite <- Hsel in Hev.
  revert Hloop.
  apply (for_each_invariant (fun e => Forall unit_interval (dict_values e)));
    [| exact Hev].
  intros acc x acc' _ Hacc Hstep. exact (rate_step_unit _ _ _ _ _ _ Hacc Hstep).
Qed.

(** C8. For every value [x], [standardize x] lies in [[0,1]], is a multiple
    of [1/10000] (at most four decimal digits), is [round(x, 4)] clamped to
    [[0,1]], and [round(x, 4)] is a nearest four-digit decimal of [x].
    Consequently the score computed for a game lies in [[0,1]], and so does
    every score of the evaluation map once [rate_our_games] has run. *)
Theorem standardize_and_evaluations_in_unit_interval :
  (forall x : R,
      unit_interval (standardize x)
      /\ (exists k : Z, (0 <= k <= 10000)%Z /\ standardize x = (IZR k / 10000)%R)
      /\ standardize x = Rmax 0 (Rmin 1 (py_round x 4))
      /\ (Rabs (py_round x 4 - x) <= 1 / 20000)%R)
  /\ (forall scores : list (R * R), unit_interval (final_score scores))
  /\ (forall (m m' : Master) (t : option Z) (w : option R),
         rate_our_games m t w = Ok m' ->
         Forall unit_interval (dict_values (evaluations m)) ->
         Forall unit_interval (dict_values (evaluations m'))).
Proof.
  split; [| split].
  - intros x. split; [apply standardize_range |].
    split; [apply standardize_digits |].
    split; [| apply py_round_4_near].
    unfold standardize. rewrite py_max2_Rmax, py_min2_Rmin. reflexivity.
  - apply final_score_range.
  - apply rate_our_games_unit.
Qed.

(** ** The candidate filter (C3) *)

Lemma owned_flags_any (owners : list Player) (gid : Z) :
  py_any (owned_flags owners gid) = true <->
  exists player stats,
    In player owners
    /\ dict_get Z.eqb (games_stats player) gid = Some stats
    /\ owned stats = true.
Proof.
  unfold py_any, owned_flags. rewrite existsb_exists. split.
  - intros (b & Hin & Hb). subst b.
    apply in_flat_map in Hin as (player & Hp & Hin).
    destruct (dict_get Z.eqb (games_stats player) gid) as [stats |] eqn:Hget;
      [| destruct Hin].
    destruct Hin as [Hown | []].
    exists player, stats. auto.
  - intros (player & stats & Hp & Hget & Hown).
    exists true. split; [| reflexivity].
    apply in_flat_map. exists player. split; [exact Hp |].
    rewrite Hget, Hown. left. reflexivity.
Qed.

Lemma select_available_In (coll : list (Z * Game)) (owners : list Player)
  (avail0 : list Z) (gid : Z) :
  In gid (select_available coll owners avail0) <->
  In gid avail0
  \/ (In gid (dict_keys coll) /\ py_any (owned_flags owners gid) = true).
Proof.
  unfold select_available.
  revert avail0. induction (dict_keys coll) as [| k ks IH]; simpl; intros avail0.
  - tauto.
  - rewrite IH. destruct (py_any (owned_flags owners k)) eqn:Hk.
    + rewrite set_add_In. split.
      * intros [[-> | H] | [H1 H2]]; auto.
      * intros [H | [[<- | H1] H2]]; auto.
    + split.
      * intros [H | [H1 H2]]; auto.
      * intros [H | [[<- | H1] H2]]; auto. congruence.
Qed.

Lemma wrong_player_count_false (g : Game) (n lo hi : Z) :
  wrong_player_count g n = false ->
  player_min g = Some lo -> player_max g = Some hi -> (lo <= n <= hi)%Z.
Proof.
  unfold wrong_player_count. intros H Hlo Hhi. rewrite Hlo, Hhi in H.
  apply negb_false_iff, in_range_spec in H. lia.
Qed.

Lemma no_base_available_false (g : Game) (avail : list Z) :
  no_base_available g avail = Ok false ->
  exists bases base_id,
    expansion_of g = Some bases /\ In base_id bases /\ In base_id avail.
Proof.
  unfold no_base_available, py_all.
  destruct (expansion_of g) as [bases |]; [| discriminate].
  intros H. injection H as H. exists bases.
  induction bases as [| b bs IH]; simpl in H; [discriminate |].
  destruct (set_mem b avail) eqn:Hb; simpl in H.
  - exists b. split; [reflexivity |]. split; [left; reflexivity |].
    apply set_mem_In. exact Hb.
  - destruct (IH H) as (base_id & _ & Hin & Hav).
    exists base_id. split; [reflexivity |]. split; [right; exact Hin | exact Hav].
Qed.

Lemma select_possible_step_sound (coll : list (Z * Game)) (avail : list Z)
  (n : Z) (poss poss' : list Z) (gid : Z) :
  select_possible_step coll avail n poss gid = Ok poss' ->
  forall x, In x poss' -> In x poss \/ (x = gid /\ fits_group coll avail n gid).
Proof.
  unfold select_possible_step, dict_index. intros Hstep x Hx.
  destruct (dict_get Z.eqb coll gid) as [g |] eqn:Hget; [| discriminate].
  simpl in Hstep.
  destruct (wrong_player_count g n) eqn:Hcount.
  { injection Hstep as <-. left. exact Hx. }
  assert (forall lo hi,
             player_min g = Some lo -> player_max g = Some hi -> (lo <= n <= hi)%Z)
    as Hrange by (intros lo hi; apply wrong_player_count_false; exact Hcount).
  destruct (is_an_expansion g) eqn:Hexp.
  - apply bind_Ok_inv in Hstep as (skip & Hskip & Hstep).
    destruct skip; injection Hstep as <-; [left; exact Hx |].
    apply set_add_In in Hx as [-> | Hx]; [right | left; exact Hx].
    split; [reflexivity |]. exists g. split; [exact Hget |].
    split; [exact Hrange |]. intros _.
    apply no_base_available_false. exact Hskip.
  - injection Hstep as <-.
    apply set_add_In in Hx as [-> | Hx]; [right | left; exact Hx].
    split; [reflexivity |]. exists g. split; [exact Hget |].
    split; [exact Hrange | intros H; congruence].
Qed.

Lemma select_possible_sound (coll : list (Z * Game)) (avail : list Z)
  (n : Z) (poss0 poss : list Z) :
  select_possible coll avail n poss0 = Ok poss ->
  forall x, In x poss -> In x poss0 \/ (In x avail /\ fits_group coll avail n x).
Proof.
  unfold select_possible.
  apply (for_each_invariant
           (fun p => forall x, In x p ->
                       In x poss0 \/ (In x avail /\ fits_group coll avail n x))).
  - intros acc gid acc' Hgid Hacc Hstep x Hx.
    destruct (select_possible_step_sound _ _ _ _ _ _ Hstep x Hx) as [H | [-> H]].
    + apply Hacc. exact H.
    + right. split; [exact Hgid | exact H].
  - intros x Hx. left. exact Hx.
Qed.

Lemma select_games_inv (m m' : Master) :
  select_games m = Ok m' ->
  available_collection m'
  = select_available (collection m) (collection_group m) (available_collection m)
  /\ select_possible (collection m) (available_collection m')
       (number_of_players m) (possible_collection m)
     = Ok (possible_collection m')
  /\ possible_collection m' <> []
  /\ collection m' = collection m
  /\ game_group m' = game_group m.
Proof.
  unfold select_games. intros H.
  destruct (select_available _ _ _) as [| a avail] eqn:Hav; [discriminate |].
  apply bind_Ok_inv in H as (poss & Hposs & H).
  destruct poss as [| q poss]; [discriminate |]. injection H as <-. simpl.
  repeat split; try reflexivity; [exact Hposs | discriminate].
Qed.

(** C3. When the filter of [rate_our_games] runs on a [Master] whose two
    candidate sets are still empty, as the class creates them, then:
    [possible] is a subset of [available]; [available] holds exactly the
    games of the collection that a collection owner owns; a game of
    [possible] whose [player_min] and [player_max] are both set has
    [player_min <= N <= player_max] for the group size [N]; and an expansion
    of [possible] has one of its [expansion_of] ids in [available]. *)
Theorem candidate_filter_sound (m m' : Master) :
  available_collection m = [] ->
  possible_collection m = [] ->
  select_games m = Ok m' ->
  incl (possible_collection m') (available_collection m')
  /\ (forall gid,
         In gid (available_collection m') <->
         In gid (dict_keys (collection m))
         /\ exists player stats,
             In player (collection_group m)
             /\ dict_get Z.eqb (games_stats player) gid = Some stats
             /\ owned stats = true)
  /\ (forall gid,
         In gid (possible_collection m') ->
         exists g,
           dict_get Z.eqb (collection m) gid = Some g
           /\ (forall lo hi,
                  player_min g = Some lo -> player_max g = Some hi ->
                  (lo <= number_of_players m <= hi)%Z)
           /\ (is_an_expansion g = true ->
               exists bases base_id,
                 expansion_of g = Some bases
                 /\ In base_id bases
                 /\ In base_id (available_collection m'))).
Proof.
  intros Hav0 Hposs0 Hrun.
  apply select_games_inv in Hrun as (Hav & Hposs & _ & _ & _).
  rewrite Hposs0 in Hposs.
  pose proof (select_possible_sound _ _ _ _ _ Hposs) as Hsound.
  split; [| split].
  - intros x Hx. destruct (Hsound x Hx) as [[] | [H _]]. exact H.
  - intros gid. rewrite Hav, Hav0, select_available_In, owned_flags_any.
    simpl. tauto.
  - intros gid Hgid. destruct (Hsound gid Hgid) as [[] | [_ H]]. exact H.
Qed.

Lemma candidate_filter_sound_witness :
  exists m',
    select_games chain_fresh = Ok m'
    /\ incl (possible_collection m') (available_collection m')
    /\ possible_collection m' = [1; 2; 3].
Proof.
  exists (set_candidates chain_fresh [1; 2; 3] [1; 2; 3]).
  split; [reflexivity |].
  split; [| reflexivity].
  exact (proj1 (candidate_filter_sound chain_fresh _ eq_refl eq_refl eq_refl)).
Defined.

(** ** The sub-scores (C1, C4, C7, C9) *)

Local Open Scope R_scope.

(** What lines 637-642 compute when the three categories are present: the
    "Not Recommended" votes are added and subtracted again. *)
Lemma suggestion_of_votes_value (sv : list (string * Z)) (best rec nr : Z) :
  dict_get String.eqb sv "Best"%string = Some best ->
  dict_get String.eqb sv "Recommended"%string = Some rec ->
  dict_get String.eqb sv "Not Recommended"%string = Some nr ->
  py_sum_int (dict_values sv) <> 0%Z ->
  suggestion_of_votes sv
  = Ok (Rmax 0 (IZR best / IZR (py_sum_int (dict_values sv))
                + IZR rec * 0.5 / IZR (py_sum_int (dict_values sv))),
        w_suggested_values).
Proof.
  intros Hb Hr Hn Htot. unfold suggestion_of_votes, dict_index, py_truediv.
  rewrite Hb, Hr, Hn. rewrite (proj2 (Z.eqb_neq _ _) Htot). simpl.
  rewrite py_max2_Rmax. do 2 f_equal.
  f_equal; [lra |]. unfold Rdiv.
  generalize (/ IZR (py_sum_int (dict_values sv))), (IZR nr), (IZR best), (IZR rec).
  intros. nra.
Qed.

(** C1, the code at [votes_split] (Best 0, Recommended 10, Not Recommended
    10) with a group of two: the raw value is 0.25, where the formula of the
    specification gives 0; the "Not Recommended" votes do not lower it. *)
Theorem suggested_values_ignores_not_recommended :
  score_suggested_values split_game 2 = Ok (0.25, w_suggested_values)
  /\ spec_suggested_raw 0 10 10 20 = 0.
Proof.
  split.
  - change (score_suggested_values split_game 2)
      with (suggestion_of_votes votes_split).
    rewrite (suggestion_of_votes_value votes_split 0 10 10);
      try reflexivity; [| discriminate].
    change (py_sum_int (dict_values votes_split)) with 20%Z.
    do 2 f_equal. unfold Rmax. destruct Rle_dec; lra.
  - unfold spec_suggested_raw, Rmax. destruct Rle_dec; lra.
Qed.

(** C9, the code at [two_lines_game], whose votes for two players lack
    "Not Recommended": the sub-score raises [KeyError], and so does the
    whole of [rate_our_games]. *)
Theorem suggested_values_missing_category_raises :
  score_suggested_values two_lines_game 2 = Raise KeyError
  /\ rate_our_games two_lines_fresh None None = Raise KeyError.
Proof.
  split; reflexivity.
Qed.

(** Without [playing_time] data the pair depends on the requested weight
    alone. *)
Lemma score_playing_time_no_data (g : Game) (t : option Z) (w : option R) :
  playing_time g = None ->
  score_playing_time g t w
  = if truthy_float w then (0.5, w_score_playing_time) else (0, 0).
Proof.
  intros H. unfold score_playing_time. rewrite H. reflexivity.
Qed.

Lemma no_playing_time_counterexample :
  playing_time chain_base = None
  /\ score_playing_time chain_base (Some 60%Z) (Some 2.5) = (0.5, 0.4)
  /\ score_playing_time chain_base (Some 60%Z) (Some 2.5) <> (0, 0).
Proof.
  assert (score_playing_time chain_base (Some 60%Z) (Some 2.5) = (0.5, 0.4)) as H.
  { rewrite score_playing_time_no_data by reflexivity.
    rewrite truthy_float_Some by lra. reflexivity. }
  split; [reflexivity |]. split; [exact H |].
  rewrite H. intros Heq. injection Heq as H1 H2. lra.
Qed.

(** C4, amended. For a game without [playing_time] data, whatever playing
    time is requested: the pair is (0, 0) when no weight is requested (or
    the weight 0), and the neutral default (0.5, 0.4) when a weight is
    requested, also together with a playing time. *)
Theorem no_playing_time_follows_weight (g : Game) (t : option Z) :
  playing_time g = None ->
  score_playing_time g t None = (0, 0)
  /\ score_playing_time g t (Some 0) = (0, 0)
  /\ (forall w, w <> 0 -> score_playing_time g t (Some w) = (0.5, 0.4)).
Proof.
  intros H. split; [| split].
  - rewrite score_playing_time_no_data by exact H. reflexivity.
  - rewrite score_playing_time_no_data by exact H.
    rewrite truthy_float_zero. reflexivity.
  - intros w Hw. rewrite score_playing_time_no_data by exact H.
    rewrite truthy_float_Some by exact Hw. reflexivity.
Qed.

Lemma no_playing_time_follows_weight_witness :
  score_playing_time chain_base (Some 60%Z) None = (0, 0)
  /\ score_playing_time chain_base None (Some 2.5) = (0.5, 0.4).
Proof.
  pose proof (no_playing_time_follows_weight chain_base (Some 60%Z) eq_refl) as H1.
  pose proof (no_playing_time_follows_weight chain_base None eq_refl) as H2.
  split; [exact (proj1 H1) |].
  apply (proj2 (proj2 H2)). lra.
Defined.

Lemma Rpower_2_2 : Rpower 2 2 = 4.
Proof.
  change 2 with (INR 2) at 2. rewrite Rpower_pow by lra. simpl. lra.
Qed.

Lemma Rpower_2_7_2 : Rpower 2 (7 / 2) = 8 * sqrt 2.
Proof.
  replace (7 / 2) with (INR 3 + / 2) by (simpl; lra).
  rewrite Rpower_plus, Rpower_pow, Rpower_sqrt by lra. simpl. lra.
Qed.

Lemma sqrt_2_bounds : 1.41 < sqrt 2 < 1.445.
Proof.
  pose proof (sqrt_pos 2) as Hpos.
  pose proof (sqrt_sqrt 2 ltac:(lra)) as Hsq.
  split; nra.
Qed.

(** A requested time equal to the game's gives the raw value 1. *)
Lemma score_playing_time_same (g : Game) (t : Z) (w : option R) :
  playing_time g = Some t -> (0 < t)%Z ->
  fst (score_playing_time g (Some t) w) = 1.
Proof.
  intros Hg Ht. unfold score_playing_time. rewrite Hg.
  rewrite Z.sub_diag. simpl Z.abs.
  destruct (Z.geb_spec 0 t) as [Hge | _]; [lia |]. simpl.
  replace (0 * (3 / IZR t) + 2) with 2 by lra.
  rewrite Rpower_2_2. lra.
Qed.

(** The raw value is 0 from a distance equal to the requested time on. *)
Lemma score_playing_time_far (g : Game) (t gt : Z) (w : option R) :
  playing_time g = Some gt -> (t <= Z.abs (t - gt))%Z ->
  score_playing_time g (Some t) w = (0, w_score_playing_time).
Proof.
  intros Hg Hfar. unfold score_playing_time. rewrite Hg.
  destruct (Z.geb_spec (Z.abs (t - gt)) t) as [_ | Hlt]; [reflexivity | lia].
Qed.

Lemma hour_game_target_120 (w : option R) :
  fst (score_playing_time hour_game (Some 120%Z) w) = 1 - (8 * sqrt 2 - 4) / 28.
Proof.
  unfold score_playing_time. simpl.
  replace (60 * (3 / 120) + 2) with (7 / 2) by lra.
  rewrite Rpower_2_7_2. reflexivity.
Qed.

Lemma playing_time_scenario_counterexample :
  fst (score_playing_time hour_game (Some 120%Z) None) <> 0.
Proof.
  rewrite hour_game_target_120. pose proof sqrt_2_bounds. lra.
Qed.

(** C7, amended. For a game of 60 minutes: with the requested time 60 the
    raw value is exactly 1; with the requested time 120 the distance 60 is
    below [max_delta], which is the requested time 120, and the raw value is
    [1 - (2^3.5 - 4)/28], between 0.73 and 0.74.  The raw value 0 is that of
    a game of 120 minutes with the requested time 60. *)
Theorem playing_time_scenario (w : option R) :
  fst (score_playing_time hour_game (Some 60%Z) w) = 1
  /\ fst (score_playing_time hour_game (Some 120%Z) w)
     = 1 - (Rpower 2 3.5 - 4) / 28
  /\ 0.73 < fst (score_playing_time hour_game (Some 120%Z) w) < 0.74
  /\ fst (score_playing_time two_hour_game (Some 60%Z) w) = 0.
Proof.
  split; [| split; [| split]].
  - apply score_playing_time_same; [reflexivity | lia].
  - rewrite hour_game_target_120.
    replace 3.5 with (7 / 2) by lra. rewrite Rpower_2_7_2. reflexivity.
  - rewrite hour_game_target_120. pose proof sqrt_2_bounds. lra.
  - rewrite (score_playing_time_far two_hour_game 60 120);
      [reflexivity | reflexivity | simpl; lia].
Qed.

Local Close Scope R_scope.

Lemma standardize_and_evaluations_in_unit_interval_witness :
  exists m',
    rate_our_games chain_fresh None None = Ok m'
    /\ Forall unit_interval (dict_values (evaluations m')).
Proof.
  assert (exists m', rate_our_games chain_fresh None None = Ok m') as [m' Hrun].
  { eexists. reflexivity. }
  exists m'. split; [exact Hrun |].
  apply (proj2 (proj2 standardize_and_evaluations_in_unit_interval)
           chain_fresh m' None None Hrun).
  constructor.
Defined.

(** ** The players score (C5) *)

Local Open Scope R_scope.

(** A turn of the loop adds 0 or 1 to [divide_by], the same whatever the
    pair it starts from. *)
Lemma players_score_step_snd (gid : Z) (acc : R * R) (player : Player) :
  snd (players_score_step gid acc player)
  = snd acc + snd (players_score_step gid (0, 0) player)
  /\ (snd (players_score_step gid (0, 0) player) = 0
      \/ snd (players_score_step gid (0, 0) player) = 1).
Proof.
  unfold players_score_step. destruct acc as [players_score divide_by].
  destruct (is_guest player); [simpl; split; [lra | left; reflexivity] |].
  destruct (dict_get Z.eqb (games_stats player) gid) as [stats |];
    [| simpl; split; [lra | left; reflexivity]].
  destruct (want_to_play stats), (truthy_float (rating stats));
    try destruct (play_count stats =? 0)%Z; simpl; split; try lra;
    solve [left; lra | right; lra].
Qed.

(** A turn that adds nothing to [divide_by] changes nothing. *)
Lemma players_score_step_skip (gid : Z) (acc : R * R) (player : Player) :
  snd (players_score_step gid (0, 0) player) = 0 ->
  players_score_step gid acc player = acc.
Proof.
  unfold players_score_step. destruct acc as [players_score divide_by].
  destruct (is_guest player); [reflexivity |].
  destruct (dict_get Z.eqb (games_stats player) gid) as [stats |]; [| reflexivity].
  destruct (want_to_play stats), (truthy_float (rating stats));
    try destruct (play_count stats =? 0)%Z; simpl; intros H;
    solve [reflexivity | exfalso; lra].
Qed.

(** The member of the claim: not a guest, with stats for the game, without
    rating and without the want-to-play flag. *)
Lemma players_score_step_silent (gid : Z) (acc : R * R) (player : Player)
  (stats : GameStats) :
  is_guest player = false ->
  dict_get Z.eqb (games_stats player) gid = Some stats ->
  rating stats = None ->
  want_to_play stats = false ->
  players_score_step gid acc player = acc.
Proof.
  intros Hguest Hstats Hrating Hwant. unfold players_score_step.
  destruct acc as [players_score divide_by].
  rewrite Hguest, Hstats, Hwant, Hrating. reflexivity.
Qed.

Lemma players_score_fold_snd (gid : Z) (group : list Player) (acc : R * R) :
  snd acc <= snd (fold_left (players_score_step gid) group acc)
  /\ (snd (fold_left (players_score_step gid) group acc) = snd acc ->
      forall player, In player group ->
                     snd (players_score_step gid (0, 0) player) = 0).
Proof.
  revert acc. induction group as [| p group IH]; cbn [fold_left]; intros acc.
  - split; [lra | intros _ player []].
  - destruct (IH (players_score_step gid acc p)) as [Hle Hall].
    destruct (players_score_step_snd gid acc p) as [Hstep Hcases].
    split; [destruct Hcases; lra |].
    intros Heq player [<- | Hin].
    + destruct Hcases; lra.
    + apply Hall; [| exact Hin]. destruct Hcases; lra.
Qed.

Lemma players_score_fold_skip (gid : Z) (group : list Player) (acc : R * R) :
  (forall player, In player group ->
                  snd (players_score_step gid (0, 0) player) = 0) ->
  fold_left (players_score_step gid) group acc = acc.
Proof.
  induction group as [| p group IH]; cbn [fold_left]; intros Hall; [reflexivity |].
  rewrite players_score_step_skip by (apply Hall; left; reflexivity).
  apply IH. intros player Hin. apply Hall. right. exact Hin.
Qed.

Lemma players_score_init_snd (g : Game) :
  (truthy_float (average_rating g) = false /\ players_score_init g = (0.0, 0.0))
  \/ (truthy_float (average_rating g) = true /\ snd (players_score_init g) = 0.5).
Proof.
  unfold players_score_init. destruct (truthy_float (average_rating g)).
  - right. split; reflexivity.
  - left. split; reflexivity.
Qed.

(** C5. In the players score, a group member who is not a guest and has
    stats for the game but neither a rating nor the want-to-play flag leaves
    the numerator and the denominator as they were, so the score of the
    group is the one computed without that member; the final denominator is
    0 exactly when the game has no average rating and no member contributes;
    and with the final denominator 0 the pair is (0.5, 0.4). *)
Theorem players_score_skips_silent_members (g : Game) (gid : Z) :
  (forall (player : Player) (stats : GameStats) (before after : list Player),
      is_guest player = false ->
      dict_get Z.eqb (games_stats player) gid = Some stats ->
      rating stats = None ->
      want_to_play stats = false ->
      (forall acc, players_score_step gid acc player = acc)
      /\ players_score_loop g gid (before ++ player :: after)
         = players_score_loop g gid (before ++ after)
      /\ score_players g gid (before ++ player :: after)
         = score_players g gid (before ++ after))
  /\ (forall group : list Player,
         snd (players_score_loop g gid group) = 0 <->
         truthy_float (average_rating g) = false
         /\ forall player, In player group ->
                           snd (players_score_step gid (0, 0) player) = 0)
  /\ (forall group : list Player,
         snd (players_score_loop g gid group) = 0 ->
         score_players g gid group = (0.5, 0.4)).
Proof.
  split; [| split].
  - intros player stats before after Hguest Hstats Hrating Hwant.
    assert (forall acc, players_score_step gid acc player = acc) as Hskip
      by (intros acc; exact (players_score_step_silent _ _ _ _ Hguest Hstats Hrating Hwant)).
    assert (players_score_loop g gid (before ++ player :: after)
            = players_score_loop g gid (before ++ after)) as Hloop.
    { unfold players_score_loop. rewrite !fold_left_app. cbn [fold_left].
      rewrite Hskip. reflexivity. }
    split; [exact Hskip |]. split; [exact Hloop |].
    unfold score_players. rewrite Hloop. reflexivity.
  - intros group. unfold players_score_loop.
    destruct (players_score_fold_snd gid group (players_score_init g)) as [Hle Hall].
    destruct (players_score_init_snd g) as [[Hno Hinit] | [Hyes Hinit]]; split.
    + intros H. split; [exact Hno |]. apply Hall.
      rewrite Hinit in *. simpl in *. lra.
    + intros [_ Hskip]. rewrite players_score_fold_skip by exact Hskip.
      rewrite Hinit. simpl. lra.
    + intros H. exfalso. lra.
    + intros [Hno _]. congruence.
  - intros group H. unfold score_players.
    destruct (players_score_loop g gid group) as [players_score divide_by].
    simpl in H. subst divide_by.
    destruct (Rlt_dec 0.0 0) as [Hlt | _]; [exfalso; lra | reflexivity].
Qed.

Lemma players_score_skips_silent_members_witness :
  players_score_loop chain_base 1 ([] ++ alice :: [bob])
  = players_score_loop chain_base 1 ([] ++ [bob])
  /\ score_players chain_base 1 [alice; bob] = (0.5, 0.4).
Proof.
  pose proof (players_score_skips_silent_members chain_base 1) as (Hskip & Hzero & Hdflt).
  split.
  - exact (proj1 (proj2 (Hskip alice stats_owned [] [bob]
                           eq_refl eq_refl eq_refl eq_refl))).
  - apply Hdflt. apply Hzero. split; [reflexivity |].
    intros player [<- | [<- | []]]; reflexivity.
Defined.

Local Close Scope R_scope.

(** ** Sorting and truncating the ranked list *)

Lemma insert_desc_perm (x : Z * R) (l : list (Z * R)) :
  Permutation (insert_desc x l) (x :: l).
Proof.
  induction l as [| y l IH]; simpl; [apply Permutation_refl |].
  destruct (Rlt_dec (snd x) (snd y)).
  - apply perm_trans with (y :: x :: l); [apply perm_skip, IH | apply perm_swap].
  - apply Permutation_refl.
Qed.

Lemma sorted_by_score_desc_perm (l : list (Z * R)) :
  Permutation (sorted_by_score_desc l) l.
Proof.
  induction l as [| x l IH]; simpl; [apply perm_nil |].
  apply perm_trans with (x :: sorted_by_score_desc l);
    [apply insert_desc_perm | apply perm_skip, IH].
Qed.

Lemma insert_desc_sorted (x : Z * R) (l : list (Z * R)) :
  StronglySorted score_desc l -> StronglySorted score_desc (insert_desc x l).
Proof.
  induction l as [| y l IH]; simpl; intros Hl.
  - constructor; [constructor | constructor].
  - inversion Hl as [| ? ? Hl' Hy]; subst.
    destruct (Rlt_dec (snd x) (snd y)) as [Hlt | Hge].
    + constructor; [exact (IH Hl') |].
      apply Forall_forall. intros z Hz.
      apply (Permutation_in _ (insert_desc_perm x l)) in Hz.
      destruct Hz as [<- | Hz].
      * unfold score_desc. apply Rlt_le. exact Hlt.
      * exact (proj1 (Forall_forall _ _) Hy z Hz).
    + constructor; [exact Hl |].
      constructor; [unfold score_desc; apply Rnot_lt_le; exact Hge |].
      apply Forall_forall. intros z Hz.
      pose proof (proj1 (Forall_forall _ _) Hy z Hz) as Hzy.
      unfold score_desc in *. apply Rnot_lt_le in Hge.
      apply Rle_trans with (snd y); assumption.
Qed.

Lemma sorted_by_score_desc_sorted (l : list (Z * R)) :
  StronglySorted score_desc (sorted_by_score_desc l).
Proof.
  induction l as [| x l IH]; simpl; [constructor | apply insert_desc_sorted, IH].
Qed.

Lemma firstn_incl {A : Type} (n : nat) (l : list A) : incl (firstn n l) l.
Proof.
  revert l. induction n as [| n IH]; intros [| x l]; simpl.
  - apply incl_refl.
  - intros y [].
  - apply incl_refl.
  - apply incl_cons; [left; reflexivity | apply incl_tl, IH].
Qed.

Lemma firstn_sorted (n : nat) (l : list (Z * R)) :
  StronglySorted score_desc l -> StronglySorted score_desc (firstn n l).
Proof.
  revert l. induction n as [| n IH]; intros [| x l] Hl; simpl; try constructor.
  - inversion Hl; subst. apply IH. assumption.
  - inversion Hl as [| ? ? Hl' Hx]; subst.
    apply Forall_forall. intros y Hy. apply firstn_incl in Hy.
    exact (proj1 (Forall_forall _ _) Hx y Hy).
Qed.

Lemma slice_to_firstn {A : Type} (l : list A) (n : Z) :
  exists k, slice_to l n = firstn k l.
Proof.
  unfold slice_to. destruct (0 <=? n)%Z; eexists; reflexivity.
Qed.

Lemma apply_limit_firstn (limit : option Z) (l : list (Z * R)) :
  exists k, apply_limit limit l = firstn k l.
Proof.
  unfold apply_limit. destruct limit as [n |].
  - destruct (truthy_int n); [apply slice_to_firstn |].
    exists (List.length l). symmetry. apply firstn_all.
  - exists (List.length l). symmetry. apply firstn_all.
Qed.


(** ** The display score of a base (C2) *)

Local Open Scope R_scope.

Lemma fold_py_max2_max (l : list R) (a : R) :
  max_of (fold_left py_max2 l a) a l.
Proof.
  revert a. induction l as [| x l IH]; intros a; cbn [fold_left].
  - split; [left; reflexivity |]. split; [lra | intros s []].
  - destruct (IH (py_max2 a x)) as (Hin & Hge & Hall).
    assert (py_max2 a x = a /\ x <= a \/ py_max2 a x = x /\ a <= x) as Hcase.
    { unfold py_max2. destruct (Rlt_dec a x); [right | left]; split; lra. }
    split; [| split].
    + destruct Hin as [Heq | Hin]; [| right; right; exact Hin].
      destruct Hcase as [[Hc _] | [Hc _]].
      * left. rewrite Heq. exact Hc.
      * right. left. rewrite Heq. symmetry. exact Hc.
    + destruct Hcase as [[Hc _] | [Hc Hle]]; lra.
    + intros s [<- | Hs]; [| exact (Hall s Hs)].
      destruct Hcase as [[Hc Hle] | [Hc _]]; lra.
Qed.

Lemma max_of_app (a b d : R) (l1 l2 : list R) :
  max_of b a l1 -> max_of d b l2 -> max_of d a (l1 ++ l2).
Proof.
  intros (Hin1 & Hge1 & Hall1) (Hin2 & Hge2 & Hall2).
  split; [| split].
  - destruct Hin2 as [-> | Hin2].
    + destruct Hin1 as [-> | Hin1]; [left; reflexivity |].
      right. apply in_or_app. left. exact Hin1.
    + right. apply in_or_app. right. exact Hin2.
  - lra.
  - intros s Hs. apply in_app_or in Hs as [Hs | Hs].
    + pose proof (Hall1 s Hs). lra.
    + exact (Hall2 s Hs).
Qed.

Lemma scores_on_path_In (evals : list (Z * R)) (exp : list Z) (s : R) :
  In s (scores_on_path evals exp) <->
  exists gid, In gid exp /\ dict_get Z.eqb evals gid = Some s.
Proof.
  unfold scores_on_path. rewrite in_flat_map. split.
  - intros (gid & Hgid & Hs). exists gid. split; [exact Hgid |].
    destruct (dict_get Z.eqb evals gid) as [s' |]; [| destruct Hs].
    destruct Hs as [-> | []]. reflexivity.
  - intros (gid & Hgid & Hs). exists gid. split; [exact Hgid |].
    rewrite Hs. left. reflexivity.
Qed.

(** Lines 741-742: the loop over the paths of one base ends, with the
    maximum of the base's score and the scores on the paths. *)
Lemma path_loop_max (evals : list (Z * R)) (exps : list (list Z)) (own : R) :
  exists d,
    for_each (fun acc exp => py_max ([acc] ++ scores_on_path evals exp)) exps own
    = Ok d
    /\ max_of d own (flat_map (scores_on_path evals) exps).
Proof.
  revert own. induction exps as [| exp exps IH]; intros own; cbn [for_each flat_map].
  - exists own. split; [reflexivity |].
    split; [left; reflexivity |]. split; [lra | intros s []].
  - cbn [app py_max bind].
    destruct (IH (fold_left py_max2 (scores_on_path evals exp) own)) as (d & Hrun & Hmax).
    exists d. split; [exact Hrun |].
    exact (max_of_app _ _ _ _ _ (fold_py_max2_max _ _) Hmax).
Qed.

(** The score a base starts from: [self.__evaluations.get(base, 0.0)]. *)
Lemma max_scores_step_value (evals max_scores : list (Z * R)) (base : Z)
  (exps : list (list Z)) :
  exps <> [] ->
  exists d,
    max_scores_step evals max_scores (base, exps)
    = Ok (dict_set Z.eqb max_scores base d)
    /\ max_of d
         (match dict_get Z.eqb evals base with Some s => s | None => 0 end)
         (flat_map (scores_on_path evals) exps).
Proof.
  intros Hne. unfold max_scores_step.
  destruct exps as [| exp exps]; [contradiction |].
  destruct (path_loop_max evals (exp :: exps)
              (match dict_get Z.eqb evals base with Some s => s | None => 0 end))
    as (d & Hrun & Hmax).
  exists d. rewrite Hrun. split; [reflexivity | exact Hmax].
Qed.

(** Lines 736-744: the loop over the bases ends; a base with a feasible path
    gets its maximum, the entries of other keys stay. *)
Lemma max_scores_loop (evals : list (Z * R)) (graph : list (Z * list (list Z))) :
  NoDup (dict_keys graph) ->
  forall acc, exists max_scores,
    for_each (max_scores_step evals) graph acc = Ok max_scores
    /\ (forall base exps,
           In (base, exps) graph -> exps <> [] ->
           exists d,
             dict_get Z.eqb max_scores base = Some d
             /\ max_of d
                  (match dict_get Z.eqb evals base with Some s => s | None => 0 end)
                  (flat_map (scores_on_path evals) exps))
    /\ (forall k, ~ In k (dict_keys graph) ->
                  dict_get Z.eqb max_scores k = dict_get Z.eqb acc k).
Proof.
  induction graph as [| [base exps] graph IH]; intros Hnd acc.
  - exists acc. split; [reflexivity |]. split; [intros ? ? [] | reflexivity].
  - inversion Hnd as [| ? ? Hbase Hnd']; subst.
    cbn [for_each].
    destruct exps as [| exp exps].
    + destruct (IH Hnd' acc) as (ms & Hrun & Hin & Hout).
      exists ms. cbn [max_scores_step bind]. split; [exact Hrun |]. split.
      * intros b e [Heq | Hbe] Hne; [injection Heq as <- <-; contradiction |].
        exact (Hin b e Hbe Hne).
      * intros k Hk. apply Hout. intros Hk'. apply Hk. right. exact Hk'.
    + destruct (max_scores_step_value evals acc base (exp :: exps))
        as (d & Hstep & Hmax); [discriminate |].
      rewrite Hstep. cbn [bind].
      destruct (IH Hnd' (dict_set Z.eqb acc base d)) as (ms & Hrun & Hin & Hout).
      exists ms. split; [exact Hrun |]. split.
      * intros b e [Heq | Hbe] Hne.
        -- injection Heq as <- <-. exists d. split; [| exact Hmax].
           rewrite (Hout base Hbase). apply dict_get_set_same.
        -- exact (Hin b e Hbe Hne).
      * intros k Hk. rewrite Hout by (intros Hk'; apply Hk; right; exact Hk').
        apply dict_get_set_other. intros ->. apply Hk. left. reflexivity.
Qed.

Local Close Scope R_scope.

(** ** The dependency graph *)

Lemma dict_set_In_inv {V : Type} (d : list (Z * V)) (n k : Z) (v x : V) :
  In (k, x) (dict_set Z.eqb d n v) -> (k = n /\ x = v) \/ In (k, x) d.
Proof.
  induction d as [| [k' v'] d IH]; simpl.
  - intros [H | []]. injection H as <- <-. left. split; reflexivity.
  - destruct (Z.eqb_spec n k') as [-> | Hne]; simpl.
    + intros [H | H]; [injection H as <- <-; left; split; reflexivity |].
      right. right. exact H.
    + intros [H | H]; [right; left; exact H |].
      destruct (IH H) as [Heq | Hin]; [left; exact Heq | right; right; exact Hin].
Qed.

Lemma dict_set_keys_inv {V : Type} (d : list (Z * V)) (n k : Z) (v : V) :
  In k (dict_keys (dict_set Z.eqb d n v)) -> k = n \/ In k (dict_keys d).
Proof.
  rewrite dict_set_keys. destruct (dict_mem Z.eqb d n); [right; assumption |].
  rewrite in_app_iff. simpl. intros [H | [H | []]]; auto.
Qed.

Lemma dict_keys_unique {V : Type} (d : list (Z * V)) (k : Z) (a b : V) :
  NoDup (dict_keys d) -> In (k, a) d -> In (k, b) d -> a = b.
Proof.
  induction d as [| [k' v'] d IH]; simpl; intros Hnd Ha Hb; [destruct Ha |].
  inversion Hnd as [| ? ? Hk' Hnd']; subst.
  assert (forall x : V, In (k', x) d -> False) as Hfresh.
  { intros x Hx. apply Hk'. apply in_map_iff. exists (k', x). auto. }
  destruct Ha as [Ha | Ha], Hb as [Hb | Hb].
  - congruence.
  - injection Ha as <- <-. destruct (Hfresh b Hb).
  - injection Hb as <- <-. destruct (Hfresh a Ha).
  - exact (IH Hnd' Ha Hb).
Qed.

Lemma add_node_nodes_from (coll : list (Z * Game)) (g : DiGraph) (n : Z)
  (game : Game) :
  dict_get Z.eqb coll n = Some game ->
  nodes_from coll g -> nodes_from coll (add_node g n (node_data_of game)).
Proof.
  intros Hgame [Hnd Hdata]. split; simpl.
  - apply dict_set_NoDup. exact Hnd.
  - intros k d Hin. apply dict_set_In_inv in Hin as [[-> ->] | Hin].
    + exists game. split; [exact Hgame | reflexivity].
    + exact (Hdata k d Hin).
Qed.

Lemma add_game_step_nodes_from (coll : list (Z * Game)) (avail : list Z)
  (g g' : DiGraph) (gid : Z) :
  nodes_from coll g -> add_game_step coll avail g gid = Ok g' ->
  nodes_from coll g'.
Proof.
  unfold add_game_step, dict_index. intros Hg Hrun.
  destruct (dict_get Z.eqb coll gid) as [game |] eqn:Hgame; [| discriminate].
  cbn [bind] in Hrun.
  destruct (expansion_of game) as [[| b bs] |];
    try (injection Hrun as <-; exact Hg).
  revert Hrun. apply for_each_invariant.
  - intros acc base_id acc' _ Hacc Hstep. unfold add_base_step, dict_index in Hstep.
    destruct (set_mem base_id avail); [| injection Hstep as <-; exact Hacc].
    destruct (dict_get Z.eqb coll base_id) as [base |] eqn:Hbase; [| discriminate].
    injection Hstep as <-.
    exact (add_node_nodes_from coll acc base_id base Hbase Hacc).
  - exact (add_node_nodes_from coll g gid game Hgame Hg).
Qed.

Lemma exp_graph_nodes_from (m : Master) (g : DiGraph) :
  exp_graph m = Ok g -> nodes_from (collection m) g.
Proof.
  unfold exp_graph. apply for_each_invariant.
  - intros acc gid acc' _ Hacc Hstep.
    exact (add_game_step_nodes_from _ _ _ _ _ Hacc Hstep).
  - split; [constructor | intros k d []].
Qed.

Lemma dict_set_bases_of (g : DiGraph) (bte : list (Z * list (list Z)))
  (base : Z) (d : NodeData) (paths : list (list Z)) :
  In (base, d) (node g) -> isBase d = true ->
  bases_of g bte -> bases_of g (dict_set Z.eqb bte base paths).
Proof.
  intros Hin Hbase [Hnd Hkeys]. split.
  - apply dict_set_NoDup. exact Hnd.
  - intros k Hk. apply dict_set_keys_inv in Hk as [-> | Hk].
    + exists d. split; assumption.
    + exact (Hkeys k Hk).
Qed.

Lemma base_step_bases_of (coll : list (Z * Game)) (n : Z) (g : DiGraph)
  (bte bte' : list (Z * list (list Z))) (nd : Z * NodeData) :
  In nd (node g) -> bases_of g bte -> base_step coll n g bte nd = Ok bte' ->
  bases_of g bte'.
Proof.
  destruct nd as [base d]. unfold base_step. cbn [fst snd]. intros Hin Hbte.
  destruct (isBase d) eqn:Hbase; cbn [negb].
  2: { intros H. injection H as <-. exact Hbte. }
  apply for_each_invariant.
  - intros acc child acc' _ Hacc. unfold child_step.
    destruct (isBase (snd child)); [intros H; injection H as <-; exact Hacc |].
    destruct (has_path g base (fst child));
      [| intros H; injection H as <-; exact Hacc].
    revert Hacc. revert acc. intros acc Hacc.
    apply for_each_invariant; [| exact Hacc].
    intros acc1 path acc1' _ Hacc1. unfold path_step. intros Hstep.
    apply bind_Ok_inv in Hstep as (ok & _ & Hstep).
    destruct ok; [| injection Hstep as <-; exact Hacc1].
    unfold append_path in Hstep.
    apply bind_Ok_inv in Hstep as (paths & _ & Hstep). injection Hstep as <-.
    exact (dict_set_bases_of g acc1 base d _ Hin Hbase Hacc1).
  - exact (dict_set_bases_of g bte base d [] Hin Hbase Hbte).
Qed.

Lemma build_exp_graph_inv (m : Master) (graph : list (Z * list (list Z)))
  (nodes : list Z) :
  build_exp_graph m = Ok (graph, nodes) ->
  exists g,
    exp_graph m = Ok g
    /\ nodes = dict_keys (node g)
    /\ nodes_from (collection m) g
    /\ bases_of g graph.
Proof.
  unfold build_exp_graph. intros Hrun.
  apply bind_Ok_inv in Hrun as (g & Hg & Hrun).
  apply bind_Ok_inv in Hrun as (bte & Hbte & Hrun).
  injection Hrun as <- <-.
  exists g. split; [exact Hg |]. split; [reflexivity |].
  split; [exact (exp_graph_nodes_from m g Hg) |].
  revert Hbte. apply for_each_invariant.
  - intros acc nd acc' Hnd Hacc Hstep.
    exact (base_step_bases_of _ _ _ _ _ _ Hnd Hacc Hstep).
  - split; [constructor | intros k []].
Qed.


Lemma dict_get_remove_same {V : Type} (d : list (Z * V)) (k : Z) :
  NoDup (dict_keys d) -> dict_get Z.eqb (dict_remove Z.eqb d k) k = None.
Proof.
  intros Hnd. apply dict_get_None. apply dict_remove_gone. exact Hnd.
Qed.

(** Lines 746-751: what [new_eval] holds when the loop over the nodes has
    ended: the entry of a game that is no node is untouched, a node that is
    a key of [graph] has its entry of [max_scores], and any other node has
    none. *)
Lemma new_eval_loop (graph : list (Z * list (list Z))) (max_scores : list (Z * R))
  (nodes : list Z) :
  NoDup nodes ->
  forall acc r,
    for_each (new_eval_step graph max_scores) nodes acc = Ok r ->
    (forall k, ~ In k nodes -> dict_get Z.eqb r k = dict_get Z.eqb acc k)
    /\ (forall k, In k nodes -> dict_mem Z.eqb graph k = true ->
                  dict_get Z.eqb r k = dict_get Z.eqb max_scores k
                  /\ dict_get Z.eqb r k <> None)
    /\ (NoDup (dict_keys acc) ->
        NoDup (dict_keys r)
        /\ forall k, In k nodes -> dict_mem Z.eqb graph k = false ->
                     dict_get Z.eqb r k = None).
Proof.
  induction nodes as [| n nodes IH]; intros Hnd acc r Hrun.
  - injection Hrun as <-. split; [reflexivity |].
    split; [intros k [] |]. intros Hacc. split; [exact Hacc | intros k []].
  - inversion Hnd as [| ? ? Hn Hnd']; subst.
    cbn [for_each] in Hrun. apply bind_Ok_inv in Hrun as (acc' & Hstep & Hrun).
    destruct (IH Hnd' acc' r Hrun) as (Hout & Hbase & Hexp).
    unfold new_eval_step in Hstep.
    destruct (dict_mem Z.eqb graph n) eqn:Hgn; cbn [negb] in Hstep.
    + unfold dict_index in Hstep.
      destruct (dict_get Z.eqb max_scores n) as [s |] eqn:Hs; [| discriminate].
      injection Hstep as <-.
      split; [| split].
      * intros k Hk. rewrite Hout by (intros Hk'; apply Hk; right; exact Hk').
        apply dict_get_set_other. intros ->. apply Hk. left. reflexivity.
      * intros k [<- | Hk] Hgk; [| exact (Hbase k Hk Hgk)].
        rewrite (Hout n Hn), dict_get_set_same, Hs. split; [reflexivity | discriminate].
      * intros Hacc. destruct (Hexp (dict_set_NoDup _ _ _ Hacc)) as [Hr Hnone].
        split; [exact Hr |]. intros k [<- | Hk] Hgk; [congruence |].
        exact (Hnone k Hk Hgk).
    + unfold dict_pop in Hstep.
      destruct (dict_mem Z.eqb acc n); [| discriminate]. injection Hstep as <-.
      split; [| split].
      * intros k Hk. rewrite Hout by (intros Hk'; apply Hk; right; exact Hk').
        apply dict_get_remove_other. intros ->. apply Hk. left. reflexivity.
      * intros k [<- | Hk] Hgk; [congruence | exact (Hbase k Hk Hgk)].
      * intros Hacc. destruct (Hexp (dict_remove_NoDup _ _ Hacc)) as [Hr Hnone].
        split; [exact Hr |]. intros k [<- | Hk] Hgk; [| exact (Hnone k Hk Hgk)].
        rewrite (Hout n Hn). apply dict_get_remove_same. exact Hacc.
Qed.

Lemma display_scores_inv (m : Master) (new_eval : list (Z * R)) :
  display_scores m = Ok new_eval ->
  exists graph nodes max_scores,
    build_exp_graph m = Ok (graph, nodes)
    /\ for_each (max_scores_step (evaluations m)) graph [] = Ok max_scores
    /\ for_each (new_eval_step graph max_scores) nodes (evaluations m)
       = Ok new_eval.
Proof.
  unfold display_scores. intros Hrun.
  apply bind_Ok_inv in Hrun as ([graph nodes] & Hbuild & Hrun).
  apply bind_Ok_inv in Hrun as (max_scores & Hmax & Hrun).
  exists graph, nodes, max_scores. auto.
Qed.

Lemma chain_rated_run : rate_our_games chain_fresh None None = Ok chain_rated.
Proof. reflexivity. Qed.

Lemma chain_rated_graph :
  build_exp_graph chain_rated = Ok ([(1, [[1; 2]; [1; 2; 3]])], [2; 1; 3]).
Proof. reflexivity. Qed.

(** ** The ranked list (C6, C10) *)

Lemma dict_keys_incl {V : Type} (l1 l2 : list (Z * V)) :
  incl l1 l2 -> incl (dict_keys l1) (dict_keys l2).
Proof.
  intros H k Hk. apply in_map_iff in Hk as (x & <- & Hx).
  apply in_map. exact (H x Hx).
Qed.







(** C10, the code at two inputs.  A base for 3 to 5 players with an owned
    expansion for 2 to 5, and a group of two: the only path is not feasible,
    the base is a key of [base_to_exp] without a path, and the re-ranking
    raises [KeyError] at [max_scores[game_id]].  A base and an expansion
    without [player_max]: the re-ranking raises [ValueError] at the [max] of
    an empty list. *)
Theorem reranking_raises_without_feasible_path :
  (exists m,
      rate_our_games narrow_fresh None None = Ok m
      /\ build_exp_graph m = Ok ([(1, [])], [2; 1])
      /\ show_your_decision m None false = Raise KeyError)
  /\ (exists m,
         rate_our_games unbounded_fresh None None = Ok m
         /\ show_your_decision m None false = Raise ValueError).
Proof.
  split.
  - eexists. split; [reflexivity |]. split; reflexivity.
  - eexists. split; reflexivity.
Qed.

(** ** The paths kept under a base *)

Lemma NoDup_snoc (l : list Z) (x : Z) :
  NoDup l -> ~ In x l -> NoDup (l ++ [x]).
Proof.
  intros Hl Hx. induction l as [| a l IH]; simpl.
  - constructor; [intros [] | constructor].
  - inversion Hl as [| ? ? Ha Hl']; subst. constructor.
    + rewrite in_app_iff. simpl. intros [H | [H | []]]; [contradiction |].
      apply Hx. left. symmetry. exact H.
    + apply IH; [exact Hl' |]. intros H. apply Hx. right. exact H.
Qed.

(** The enumeration yields walks that prolong [visited] up to [target], and
    simple ones when [visited] is simple and avoids [target]. *)
Lemma simple_paths_from_sound (g : DiGraph) (target : Z) (fuel : nat) :
  forall (before : list Z) (u : Z) (p : list Z),
    In p (simple_paths_from fuel g target (before ++ [u]) u) ->
    exists suffix,
      p = before ++ u :: suffix
      /\ suffix <> []
      /\ is_walk g (u :: suffix)
      /\ (forall d, last suffix d = target)
      /\ (NoDup (before ++ [u]) -> ~ In target (before ++ [u]) -> NoDup p).
Proof.
  induction fuel as [| fuel IH]; intros before u p Hin; [destruct Hin |].
  cbn [simple_paths_from] in Hin.
  apply in_flat_map in Hin as (child & Hchild & Hin).
  destruct (Z.eqb_spec child target) as [-> | Hne].
  - destruct Hin as [<- | []]. exists [target].
    split; [rewrite <- app_assoc; reflexivity |].
    split; [discriminate |]. split; [simpl; auto |].
    split; [intros d; reflexivity |].
    intros Hnd Hout. apply NoDup_snoc; assumption.
  - destruct (set_mem child (before ++ [u])) eqn:Hmem; [destruct Hin |].
    destruct (IH (before ++ [u]) child p Hin) as (suffix & -> & Hs & Hwalk & Hlast & Hnd).
    exists (child :: suffix).
    split; [rewrite <- app_assoc; reflexivity |].
    split; [discriminate |].
    split; [split; [exact Hchild | exact Hwalk] |].
    split; [intros d; destruct suffix as [| x suffix];
            [contradiction | exact (Hlast d)] |].
    intros Hnd' Hout. apply Hnd.
    + apply NoDup_snoc; [exact Hnd' |].
      intros H. apply set_mem_In in H. congruence.
    + rewrite in_app_iff. simpl. intros [H | [H | []]]; [contradiction | congruence].
Qed.

Lemma all_simple_paths_sound (g : DiGraph) (source target : Z) (p : list Z) :
  source <> target ->
  In p (all_simple_paths g source target) ->
  simple_path g source target p.
Proof.
  intros Hne Hin. unfold all_simple_paths in Hin.
  destruct (simple_paths_from_sound g target _ [] source p Hin)
    as (suffix & -> & Hs & Hwalk & Hlast & Hnd).
  split; [reflexivity |].
  split; [destruct suffix as [| x suffix];
          [contradiction | exact (Hlast source)] |].
  split; [exact Hwalk |].
  apply Hnd.
  - constructor; [intros [] | constructor].
  - intros [H | []]. exact (Hne H).
Qed.

Lemma dict_set_kept_paths (coll : list (Z * Game)) (n : Z) (g : DiGraph)
  (bte : list (Z * list (list Z))) (base : Z) (paths : list (list Z)) :
  kept_paths coll n g bte ->
  (forall path, In path paths ->
     path_feasible coll n path = Ok true
     /\ exists child d,
         In (child, d) (node g) /\ isBase d = false
         /\ simple_path g base child path) ->
  kept_paths coll n g (dict_set Z.eqb bte base paths).
Proof.
  intros Hbte Hpaths b ps p Hget Hp.
  destruct (Z.eq_dec b base) as [-> | Hne].
  - rewrite dict_get_set_same in Hget. injection Hget as <-. exact (Hpaths p Hp).
  - rewrite dict_get_set_other in Hget by exact Hne. exact (Hbte b ps p Hget Hp).
Qed.

Lemma base_step_kept_paths (coll : list (Z * Game)) (n : Z) (g : DiGraph)
  (bte bte' : list (Z * list (list Z))) (nd : Z * NodeData) :
  NoDup (dict_keys (node g)) ->
  In nd (node g) -> kept_paths coll n g bte ->
  base_step coll n g bte nd = Ok bte' ->
  kept_paths coll n g bte'.
Proof.
  destruct nd as [base d]. unfold base_step. cbn [fst snd]. intros Hnd Hin Hbte.
  destruct (isBase d) eqn:Hbase; cbn [negb].
  2: { intros H. injection H as <-. exact Hbte. }
  apply for_each_invariant.
  - intros acc [child cd] acc' Hchild Hacc. unfold child_step. cbn [fst snd].
    destruct (isBase cd) eqn:Hcd; [intros H; injection H as <-; exact Hacc |].
    destruct (has_path g base child);
      [| intros H; injection H as <-; exact Hacc].
    assert (base <> child) as Hne.
    { intros <-. pose proof (dict_keys_unique _ _ _ _ Hnd Hin Hchild). congruence. }
    revert Hacc. revert acc. intros acc Hacc.
    apply for_each_invariant; [| exact Hacc].
    intros acc1 path acc1' Hpath Hacc1. unfold path_step. intros Hstep.
    apply bind_Ok_inv in Hstep as (ok & Hok & Hstep).
    destruct ok; [| injection Hstep as <-; exact Hacc1].
    unfold append_path, dict_index in Hstep.
    destruct (dict_get Z.eqb acc1 base) as [paths |] eqn:Hpaths; [| discriminate].
    injection Hstep as <-.
    apply dict_set_kept_paths; [exact Hacc1 |].
    intros p Hp. apply in_app_or in Hp as [Hp | [<- | []]].
    + exact (Hacc1 base paths p Hpaths Hp).
    + split; [exact Hok |]. exists child, cd.
      split; [exact Hchild |]. split; [exact Hcd |].
      exact (all_simple_paths_sound g base child path Hne Hpath).
  - apply dict_set_kept_paths; [exact Hbte | intros path []].
Qed.

Lemma build_exp_graph_sound (m : Master)
  (graph : list (Z * list (list Z))) (nodes : list Z) :
  build_exp_graph m = Ok (graph, nodes) ->
  exists g,
    exp_graph m = Ok g
    /\ kept_paths (collection m) (number_of_players m) g graph.
Proof.
  unfold build_exp_graph. intros Hrun.
  apply bind_Ok_inv in Hrun as (g & Hg & Hrun).
  apply bind_Ok_inv in Hrun as (bte & Hbte & Hrun).
  injection Hrun as <- _.
  exists g. split; [exact Hg |].
  pose proof (proj1 (exp_graph_nodes_from m g Hg)) as Hnd.
  revert Hbte. apply for_each_invariant.
  - intros acc nd acc' Hin Hacc Hstep.
    exact (base_step_kept_paths _ _ _ _ _ _ Hnd Hin Hacc Hstep).
  - intros base paths path Hget. discriminate Hget.
Qed.

(** Every path that [build_exp_graph] keeps under a base is a simple path of
    the graph from that base to an expansion node, and is feasible for the
    group: the largest [player_min] and the largest [player_max] on it are
    not 0 and have the group size between them. *)
Theorem build_exp_graph_kept_paths (m : Master)
  (graph : list (Z * list (list Z))) (nodes : list Z) :
  build_exp_graph m = Ok (graph, nodes) ->
  exists g,
    exp_graph m = Ok g
    /\ kept_paths (collection m) (number_of_players m) g graph.
Proof.
  exact (build_exp_graph_sound m graph nodes).
Qed.

Lemma path_feasible_spec (coll : list (Z * Game)) (n : Z) (path : list Z) :
  path_feasible coll n path = Ok true ->
  exists maxs mins p_max p_min,
    path_attrs coll player_max path = Ok maxs
    /\ path_attrs coll player_min path = Ok mins
    /\ py_max_int maxs = Ok p_max
    /\ py_max_int mins = Ok p_min
    /\ p_min <= n <= p_max.
Proof.
  unfold path_feasible. intros H.
  apply bind_Ok_inv in H as (maxs & Hmaxs & H).
  apply bind_Ok_inv in H as (p_max & Hpmax & H).
  apply bind_Ok_inv in H as (mins & Hmins & H).
  apply bind_Ok_inv in H as (p_min & Hpmin & H).
  injection H as H. apply andb_true_iff in H as [_ H].
  apply in_range_spec in H.
  exists maxs, mins, p_max, p_min. repeat split; try assumption; lia.
Qed.

(** ** More on the candidate filter *)

Lemma set_add_NoDup (x : Z) (s : list Z) : NoDup s -> NoDup (set_add x s).
Proof.
  intros Hs. unfold set_add. destruct (set_mem x s) eqn:Hmem; [exact Hs |].
  apply NoDup_snoc; [exact Hs |]. intros H. apply set_mem_In in H. congruence.
Qed.

Lemma select_available_NoDup (coll : list (Z * Game)) (owners : list Player)
  (avail0 : list Z) :
  NoDup avail0 -> NoDup (select_available coll owners avail0).
Proof.
  unfold select_available. revert avail0.
  induction (dict_keys coll) as [| k ks IH]; simpl; intros avail0 H; [exact H |].
  apply IH. destruct (py_any (owned_flags owners k)); [| exact H].
  apply set_add_NoDup. exact H.
Qed.

Lemma wrong_player_count_fits (g : Game) (n : Z) :
  (forall lo hi,
      player_min g = Some lo -> player_max g = Some hi -> (lo <= n <= hi)%Z) ->
  wrong_player_count g n = false.
Proof.
  unfold wrong_player_count. intros H.
  destruct (player_min g) as [lo |]; [| reflexivity].
  destruct (player_max g) as [hi |]; [| reflexivity].
  apply negb_false_iff, in_range_spec.
  specialize (H lo hi eq_refl eq_refl). lia.
Qed.

Lemma no_base_available_fits (g : Game) (avail : list Z) (bases : list Z)
  (base_id : Z) :
  expansion_of g = Some bases -> In base_id bases -> In base_id avail ->
  no_base_available g avail = Ok false.
Proof.
  unfold no_base_available, py_all. intros -> Hin Hav. f_equal.
  induction bases as [| b bs IH]; [destruct Hin |]. simpl.
  destruct Hin as [-> | Hin].
  - apply set_mem_In in Hav. rewrite Hav. reflexivity.
  - rewrite (IH Hin). apply andb_false_r.
Qed.

(** A turn of the second loop keeps what [possible] holds, and adds a game
    that fits. *)
Lemma select_possible_step_grows (coll : list (Z * Game)) (avail : list Z)
  (n : Z) (poss poss' : list Z) (gid : Z) :
  select_possible_step coll avail n poss gid = Ok poss' ->
  NoDup poss ->
  NoDup poss'
  /\ incl poss poss'
  /\ (fits_group coll avail n gid -> In gid poss').
Proof.
  unfold select_possible_step, dict_index. intros Hstep Hnd.
  destruct (dict_get Z.eqb coll gid) as [g |] eqn:Hget; [| discriminate].
  cbn [bind] in Hstep.
  assert (NoDup (set_add gid poss) /\ incl poss (set_add gid poss)
          /\ In gid (set_add gid poss)) as Hadd.
  { split; [apply set_add_NoDup; exact Hnd |]. split.
    - intros x Hx. apply set_add_In. right. exact Hx.
    - apply set_add_In. left. reflexivity. }
  destruct (wrong_player_count g n) eqn:Hcount.
  { injection Hstep as <-. split; [exact Hnd |]. split; [apply incl_refl |].
    intros (g' & Hg' & Hrange & _). rewrite Hget in Hg'. injection Hg' as <-.
    rewrite (wrong_player_count_fits g n Hrange) in Hcount. discriminate. }
  destruct (is_an_expansion g) eqn:Hexp.
  - apply bind_Ok_inv in Hstep as (skip & Hskip & Hstep).
    destruct skip; injection Hstep as <-.
    + split; [exact Hnd |]. split; [apply incl_refl |].
      intros (g' & Hg' & _ & Hbase). rewrite Hget in Hg'. injection Hg' as <-.
      destruct (Hbase Hexp) as (bases & base_id & Hb & Hin & Hav).
      rewrite (no_base_available_fits g avail bases base_id Hb Hin Hav) in Hskip.
      discriminate.
    + destruct Hadd as (H1 & H2 & H3). auto.
  - injection Hstep as <-. destruct Hadd as (H1 & H2 & H3). auto.
Qed.

Lemma select_possible_complete (coll : list (Z * Game)) (avail : list Z)
  (n : Z) (xs : list Z) :
  forall poss0 poss,
    for_each (select_possible_step coll avail n) xs poss0 = Ok poss ->
    NoDup poss0 ->
    NoDup poss
    /\ incl poss0 poss
    /\ forall x, In x xs -> fits_group coll avail n x -> In x poss.
Proof.
  induction xs as [| x xs IH]; intros poss0 poss Hrun Hnd.
  - injection Hrun as <-. split; [exact Hnd |]. split; [apply incl_refl |].
    intros x [].
  - cbn [for_each] in Hrun. apply bind_Ok_inv in Hrun as (poss1 & Hstep & Hrun).
    destruct (select_possible_step_grows _ _ _ _ _ _ Hstep Hnd) as (Hnd1 & Hinc1 & Hfit1).
    destruct (IH poss1 poss Hrun Hnd1) as (Hnd2 & Hinc2 & Hfit2).
    split; [exact Hnd2 |].
    split; [intros y Hy; exact (Hinc2 y (Hinc1 y Hy)) |].
    intros y [<- | Hy] Hfit; [exact (Hinc2 x (Hfit1 Hfit)) | exact (Hfit2 y Hy Hfit)].
Qed.

(** The candidate set is exactly the set of the owned games that fit the
    group, and both sets hold each game once. *)
Theorem candidate_filter_exact (m m' : Master) :
  available_collection m = [] ->
  possible_collection m = [] ->
  select_games m = Ok m' ->
  NoDup (available_collection m')
  /\ NoDup (possible_collection m')
  /\ forall gid,
      In gid (possible_collection m') <->
      In gid (available_collection m')
      /\ fits_group (collection m) (available_collection m')
           (number_of_players m) gid.
Proof.
  intros Hav0 Hposs0 Hrun.
  apply select_games_inv in Hrun as (Hav & Hposs & _ & _ & _).
  rewrite Hposs0 in Hposs.
  assert (NoDup (available_collection m')) as Hnd.
  { rewrite Hav, Hav0. apply select_available_NoDup. constructor. }
  destruct (select_possible_complete _ _ _ _ _ _ Hposs (NoDup_nil Z))
    as (Hndp & _ & Hfit).
  split; [exact Hnd |]. split; [exact Hndp |].
  intros gid. split.
  - intros Hgid.
    destruct (select_possible_sound _ _ _ _ _ Hposs gid Hgid) as [[] | H]. exact H.
  - intros [Hin Hf]. exact (Hfit gid Hin Hf).
Qed.

Lemma candidate_filter_exact_witness :
  exists m',
    select_games chain_fresh = Ok m'
    /\ NoDup (possible_collection m')
    /\ fits_group chain_collection (available_collection m') 2 3.
Proof.
  exists (set_candidates chain_fresh [1; 2; 3] [1; 2; 3]).
  pose proof (candidate_filter_exact chain_fresh _ eq_refl eq_refl eq_refl)
    as (_ & Hnd & Hiff).
  split; [reflexivity |]. split; [exact Hnd |].
  apply (proj1 (Hiff 3)). simpl. auto.
Defined.

Lemma dict_get_of_key {V : Type} (d : list (Z * V)) (k : Z) :
  In k (dict_keys d) -> exists v, dict_get Z.eqb d k = Some v.
Proof.
  intros Hin. destruct (dict_get Z.eqb d k) as [v |] eqn:Hget.
  - exists v. reflexivity.
  - apply dict_get_None in Hget. contradiction.
Qed.

(** With the games of the parser the second loop never raises. *)
Lemma select_possible_total (coll : list (Z * Game)) (avail : list Z) (n : Z) :
  incl avail (dict_keys coll) ->
  expansions_have_bases coll ->
  forall xs poss0,
    incl xs avail ->
    exists poss, for_each (select_possible_step coll avail n) xs poss0 = Ok poss.
Proof.
  intros Hkeys Hwf xs poss0 Hxs. revert poss0. apply for_each_total.
  intros acc x Hx. unfold select_possible_step, dict_index.
  destruct (dict_get_of_key coll x (Hkeys x (Hxs x Hx))) as (g & Hg).
  rewrite Hg. cbn [bind].
  destruct (wrong_player_count g n); [eexists; reflexivity |].
  destruct (is_an_expansion g) eqn:Hexp; [| eexists; reflexivity].
  unfold no_base_available.
  destruct (expansion_of g) as [bases |] eqn:Hbases.
  - cbn [bind]. destruct (py_all _); eexists; reflexivity.
  - exfalso. exact (Hwf x g (dict_get_In _ _ _ Hg) Hexp Hbases).
Qed.

Lemma select_games_outcome (m : Master) :
  available_collection m = [] ->
  possible_collection m = [] ->
  expansions_have_bases (collection m) ->
  (forall e, select_games m = Raise e -> e = SystemExit)
  /\ ((exists gid,
          In gid (select_available (collection m) (collection_group m) [])
          /\ fits_group (collection m)
               (select_available (collection m) (collection_group m) [])
               (number_of_players m) gid) ->
      exists m', select_games m = Ok m')
  /\ ((forall gid,
          In gid (select_available (collection m) (collection_group m) []) ->
          ~ fits_group (collection m)
              (select_available (collection m) (collection_group m) [])
              (number_of_players m) gid) ->
      select_games m = Raise SystemExit).
Proof.
  intros Hav0 Hposs0 Hwf. unfold select_games. rewrite Hav0, Hposs0.
  set (avail := select_available (collection m) (collection_group m) []).
  assert (incl avail (dict_keys (collection m))) as Hkeys.
  { intros x Hx. apply select_available_In in Hx as [[] | [Hx _]]. exact Hx. }
  destruct (select_possible_total (collection m) avail (number_of_players m)
              Hkeys Hwf avail [] (incl_refl _)) as (poss & Hposs).
  fold (select_possible (collection m) avail (number_of_players m) []) in Hposs.
  destruct (select_possible_complete _ _ _ _ _ _ Hposs (NoDup_nil Z))
    as (_ & _ & Hfit).
  pose proof (select_possible_sound _ _ _ _ _ Hposs) as Hsound.
  destruct avail as [| a avail'] eqn:Havail.
  - split; [intros e H; injection H as <-; reflexivity |].
    split; [intros (gid & [] & _) | reflexivity].
  - rewrite Hposs. cbn [bind]. destruct poss as [| q poss'].
    + split; [intros e H; injection H as <-; reflexivity |].
      split; [| reflexivity].
      intros (gid & Hin & Hf). destruct (Hfit gid Hin Hf).
    + split; [intros e H; discriminate H |].
      split; [intros _; eexists; reflexivity |].
      intros Hnone. exfalso.
      destruct (Hsound q (or_introl eq_refl)) as [[] | [Hin Hf]].
      exact (Hnone q Hin Hf).
Qed.

(** The fatal exits of the filter.  Run on a [Master] whose candidate sets
    are still empty, over games whose expansions have their bases, the
    filter fails in one way only, [exit()]: it ends well when some owned
    game fits the group and exits when none does. *)
Theorem candidate_filter_exits (m : Master) :
  available_collection m = [] ->
  possible_collection m = [] ->
  expansions_have_bases (collection m) ->
  (forall e, select_games m = Raise e -> e = SystemExit)
  /\ ((exists gid,
          In gid (select_available (collection m) (collection_group m) [])
          /\ fits_group (collection m)
               (select_available (collection m) (collection_group m) [])
               (number_of_players m) gid) ->
      exists m', select_games m = Ok m')
  /\ ((forall gid,
          In gid (select_available (collection m) (collection_group m) []) ->
          ~ fits_group (collection m)
              (select_available (collection m) (collection_group m) [])
              (number_of_players m) gid) ->
      select_games m = Raise SystemExit).
Proof.
  exact (select_games_outcome m).
Qed.

Lemma chain_collection_has_bases : expansions_have_bases chain_collection.
Proof.
  intros gid g [H | [H | [H | []]]] Hexp; injection H as <- <-;
    simpl in *; congruence.
Qed.

Lemma candidate_filter_exits_witness :
  exists m', select_games chain_fresh = Ok m'.
Proof.
  apply (proj1 (proj2 (candidate_filter_exits chain_fresh eq_refl eq_refl
                         chain_collection_has_bases))).
  exists 1. split; [left; reflexivity |].
  exists chain_base. split; [reflexivity |]. split.
  - intros lo hi Hlo Hhi. injection Hlo as <-. injection Hhi as <-.
    change (number_of_players chain_fresh) with 2. lia.
  - discriminate.
Defined.

(** ** The rating loop as a whole *)

Lemma candidate_filter_exact_aux (m m' : Master) :
  available_collection m = [] ->
  possible_collection m = [] ->
  select_games m = Ok m' ->
  NoDup (available_collection m') /\ NoDup (possible_collection m').
Proof.
  intros Hav0 Hposs0 Hrun.
  apply select_games_inv in Hrun as (Hav & Hposs & _ & _ & _).
  rewrite Hposs0 in Hposs. split.
  - rewrite Hav, Hav0. apply select_available_NoDup. constructor.
  - exact (proj1 (select_possible_complete _ _ _ _ _ _ Hposs (NoDup_nil Z))).
Qed.

Lemma rate_step_inv (m : Master) (t : option Z) (w : option R)
  (evals evals' : list (Z * R)) (gid : Z) :
  rate_step m t w evals gid = Ok evals' ->
  exists g scores,
    dict_get Z.eqb (collection m) gid = Some g
    /\ game_scores g gid (game_group m) t w = Ok scores
    /\ evals' = dict_set Z.eqb evals gid (final_score scores).
Proof.
  unfold rate_step, dict_index. intros H.
  destruct (dict_get Z.eqb (collection m) gid) as [g |]; [| discriminate].
  cbn [bind] in H. apply bind_Ok_inv in H as (scores & Hs & H).
  injection H as <-. exists g, scores. auto.
Qed.

(** Lines 593-697: over candidates that have no evaluation yet, the loop
    appends one entry for each, in their order, and leaves the others. *)
Lemma rate_loop_keys (m : Master) (t : option Z) (w : option R) (xs : list Z) :
  NoDup xs ->
  forall acc r,
    (forall x, In x xs -> ~ In x (dict_keys acc)) ->
    for_each (rate_step m t w) xs acc = Ok r ->
    dict_keys r = dict_keys acc ++ xs
    /\ (forall k, ~ In k xs -> dict_get Z.eqb r k = dict_get Z.eqb acc k)
    /\ (forall x, In x xs ->
          exists g scores,
            dict_get Z.eqb (collection m) x = Some g
            /\ game_scores g x (game_group m) t w = Ok scores
            /\ dict_get Z.eqb r x = Some (final_score scores)).
Proof.
  induction xs as [| x xs IH]; intros Hnd acc r Hfresh Hrun.
  - injection Hrun as <-. rewrite app_nil_r.
    split; [reflexivity |]. split; [reflexivity | intros x []].
  - inversion Hnd as [| ? ? Hx Hnd']; subst.
    cbn [for_each] in Hrun. apply bind_Ok_inv in Hrun as (acc' & Hstep & Hrun).
    destruct (rate_step_inv _ _ _ _ _ _ Hstep) as (g & scores & Hg & Hs & ->).
    assert (dict_keys (dict_set Z.eqb acc x (final_score scores))
            = dict_keys acc ++ [x]) as Hkeys.
    { rewrite dict_set_keys. destruct (dict_mem Z.eqb acc x) eqn:Hmem; [| reflexivity].
      apply dict_mem_In in Hmem. destruct (Hfresh x (or_introl eq_refl) Hmem). }
    destruct (IH Hnd' (dict_set Z.eqb acc x (final_score scores)) r)
      as (Hk & Hout & Hin); [| exact Hrun |].
    { intros y Hy. rewrite Hkeys, in_app_iff. simpl.
      intros [H | [<- | []]]; [| contradiction].
      exact (Hfresh y (or_intror Hy) H). }
    split; [rewrite Hk, Hkeys, <- app_assoc; reflexivity |].
    split.
    + intros k Hk'. rewrite Hout by (intros H; apply Hk'; right; exact H).
      apply dict_get_set_other. intros ->. apply Hk'. left. reflexivity.
    + intros y [<- | Hy]; [| exact (Hin y Hy)].
      exists g, scores. split; [exact Hg |]. split; [exact Hs |].
      rewrite (Hout x Hx). apply dict_get_set_same.
Qed.

(** After [rate_our_games] on a fresh [Master] the evaluation map has one
    entry for each candidate, in the order of the candidate set, and none
    for any other game; the entry of a candidate is the final score of its
    four sub-scores. *)
Theorem rate_our_games_evaluates_candidates (m m' : Master) (t : option Z)
  (w : option R) :
  available_collection m = [] ->
  possible_collection m = [] ->
  evaluations m = [] ->
  rate_our_games m t w = Ok m' ->
  select_games m = Ok (set_candidates m (available_collection m')
                         (possible_collection m'))
  /\ dict_keys (evaluations m') = possible_collection m'
  /\ NoDup (dict_keys (evaluations m'))
  /\ forall gid,
      In gid (possible_collection m') ->
      exists g scores,
        dict_get Z.eqb (collection m) gid = Some g
        /\ game_scores g gid (game_group m) t w = Ok scores
        /\ dict_get Z.eqb (evaluations m') gid = Some (final_score scores).
Proof.
  intros Hav0 Hposs0 Hev0 Hrun. unfold rate_our_games, rate_games in Hrun.
  apply bind_Ok_inv in Hrun as (m1 & Hsel & Hrun).
  apply bind_Ok_inv in Hrun as (evals & Hloop & Hrun).
  injection Hrun as <-. cbn [available_collection possible_collection evaluations].
  destruct (candidate_filter_exact_aux m m1 Hav0 Hposs0 Hsel) as [_ Hndp].
  pose proof (select_games_evaluations m m1 Hsel) as Hev1.
  pose proof (select_games_inv m m1 Hsel) as (_ & _ & _ & Hcoll & Hgroup).
  rewrite Hev1, Hev0 in Hloop.
  destruct (rate_loop_keys m1 t w (possible_collection m1) Hndp [] evals)
    as (Hkeys & _ & Hin); [intros x _ [] | exact Hloop |].
  simpl in Hkeys.
  split; [| split; [exact Hkeys | split]].
  - unfold select_games in *.
    destruct (select_available _ _ _) as [| a avail]; [discriminate |].
    apply bind_Ok_inv in Hsel as (poss & Hp & Hsel). rewrite Hp. cbn [bind].
    destruct poss; [discriminate |]. injection Hsel as <-. reflexivity.
  - rewrite Hkeys. exact Hndp.
  - intros gid Hgid. rewrite <- Hcoll, <- Hgroup. exact (Hin gid Hgid).
Qed.

Lemma rate_our_games_evaluates_candidates_witness :
  dict_keys (evaluations chain_rated) = possible_collection chain_rated
  /\ NoDup (dict_keys (evaluations chain_rated)).
Proof.
  pose proof (rate_our_games_evaluates_candidates chain_fresh chain_rated
                None None eq_refl eq_refl eq_refl chain_rated_run)
    as (_ & Hkeys & Hnd & _).
  split; [exact Hkeys | exact Hnd].
Defined.

Lemma dict_mem_get {V : Type} (d : list (string * V)) (k : string) :
  dict_mem String.eqb d k = true -> exists v, dict_get String.eqb d k = Some v.
Proof.
  unfold dict_mem. destruct (dict_get String.eqb d k) as [v |]; [| discriminate].
  intros _. exists v. reflexivity.
Qed.








(** ** More on [standardize] *)

Local Open Scope R_scope.

Lemma round_half_even_IZR (k : Z) : round_half_even (IZR k) = k.
Proof.
  unfold round_half_even.
  assert (Int_part (IZR k) = k) as Hk.
  { symmetry. apply Int_part_spec. lra. }
  rewrite Hk.
  destruct (Rlt_dec (IZR k - IZR k) (1 / 2)) as [_ | H]; [reflexivity | lra].
Qed.

Lemma py_round_4_decimal (k : Z) : py_round (IZR k / 10000) 4 = IZR k / 10000.
Proof.
  unfold py_round. rewrite pow10_4.
  replace (IZR k / 10000 * 10000) with (IZR k) by lra.
  rewrite round_half_even_IZR. reflexivity.
Qed.

(** A stored score is shown as it is: [standardize], which the printing
    loops apply once more to the scores of the evaluation map, leaves a
    standardized score unchanged. *)
Theorem standardize_idempotent (x : R) :
  standardize (standardize x) = standardize x.
Proof.
  destruct (standardize_digits x) as (k & Hk & Hx).
  pose proof (standardize_range x) as Hrange.
  rewrite Hx in *. unfold standardize at 1.
  rewrite py_round_4_decimal. unfold py_max2, py_min2.
  repeat destruct Rlt_dec; lra.
Qed.

Lemma round_half_even_mono (y1 y2 : R) :
  y1 <= y2 -> (round_half_even y1 <= round_half_even y2)%Z.
Proof.
  intros Hle.
  destruct (Z_le_gt_dec (round_half_even y1) (round_half_even y2)) as [H | H];
    [exact H | exfalso].
  pose proof (Rabs_bound _ _ (round_half_even_near y1)) as H1.
  pose proof (Rabs_bound _ _ (round_half_even_near y2)) as H2.
  assert (IZR (round_half_even y2) + 1 <= IZR (round_half_even y1)) as Hgap.
  { rewrite <- plus_IZR. apply IZR_le. lia. }
  assert (y1 = y2) as Heq by lra.
  subst y2. lia.
Qed.

(** Rounding and clamping never invert the order of two scores. *)
Theorem standardize_monotone (x y : R) :
  x <= y -> standardize x <= standardize y.
Proof.
  intros Hle.
  assert (py_round x 4 <= py_round y 4) as Hround.
  { unfold py_round. rewrite pow10_4.
    assert (x * 10000 <= y * 10000) as H by lra.
    apply round_half_even_mono, IZR_le in H. lra. }
  unfold standardize, py_max2, py_min2.
  repeat destruct Rlt_dec; lra.
Qed.

Lemma standardize_monotone_witness : standardize 0.25 <= standardize 0.75.
Proof.
  apply standardize_monotone. lra.
Defined.

Local Close Scope R_scope.

Lemma build_exp_graph_kept_paths_witness :
  exists g,
    exp_graph chain_rated = Ok g
    /\ kept_paths (collection chain_rated) (number_of_players chain_rated) g
         [(1, [[1; 2]; [1; 2; 3]])].
Proof.
  exact (build_exp_graph_kept_paths chain_rated _ _ chain_rated_graph).
Defined.

(** ** The shape of the playing-time and weight scores *)

Local Open Scope R_scope.

Lemma Rpower_2_mono (x y : R) : x <= y -> Rpower 2 x <= Rpower 2 y.
Proof.
  intros [Hlt | ->]; [| lra].
  apply Rlt_le, Rpower_lt; lra.
Qed.

Lemma Rpower_2_4 : Rpower 2 4 = 16.
Proof.
  replace 4 with (INR 4) at 1 by (simpl; lra).
  rewrite Rpower_pow by lra. simpl. lra.
Qed.

Lemma Rpower_2_5 : Rpower 2 5 = 32.
Proof.
  replace 5 with (INR 5) at 1 by (simpl; lra).
  rewrite Rpower_pow by lra. simpl. lra.
Qed.

(** The exponent of line 611 grows with the distance and stays in [2, 5). *)
Lemma playing_time_exponent (d1 d2 t : Z) :
  (0 <= d1 <= d2)%Z -> (d2 < t)%Z ->
  2 <= IZR d1 * (3 / IZR t) + 2
  /\ IZR d1 * (3 / IZR t) + 2 <= IZR d2 * (3 / IZR t) + 2
  /\ IZR d2 * (3 / IZR t) + 2 < 5.
Proof.
  intros [H0 H12] H2t.
  assert (0 <= IZR d1) as Hd1 by (apply (IZR_le 0); exact H0).
  assert (IZR d1 <= IZR d2) as Hd12 by (apply IZR_le; exact H12).
  assert (IZR d2 < IZR t) as Hd2 by (apply IZR_lt; exact H2t).
  assert (0 < / IZR t) as Hi by (apply Rinv_0_lt_compat; lra).
  assert (IZR t * / IZR t = 1) as Hti by (apply Rinv_r; lra).
  unfold Rdiv. generalize dependent (/ IZR t). intros i Hi Hti.
  repeat split; nra.
Qed.

(** Lines 605-612 when the game has a playing time within reach of the
    requested one. *)
Lemma score_playing_time_near (g : Game) (t gt : Z) (w : option R) :
  playing_time g = Some gt -> (Z.abs (t - gt) < t)%Z ->
  score_playing_time g (Some t) w
  = (1 - (Rpower 2 (IZR (Z.abs (t - gt)) * (3 / IZR t) + 2) - 4) / 28,
     w_score_playing_time).
Proof.
  intros Hg Hnear. unfold score_playing_time. rewrite Hg.
  destruct (Z.geb_spec (Z.abs (t - gt)) t) as [Hge | _]; [lia | reflexivity].
Qed.

Lemma playing_time_raw_bounds (d t : Z) :
  (0 <= d < t)%Z ->
  0 < 1 - (Rpower 2 (IZR d * (3 / IZR t) + 2) - 4) / 28 <= 1.
Proof.
  intros [H0 Ht].
  destruct (playing_time_exponent d d t) as (Hlo & _ & Hhi); [lia | lia |].
  pose proof (Rpower_2_mono _ _ Hlo) as H1. rewrite Rpower_2_2 in H1.
  assert (Rpower 2 (IZR d * (3 / IZR t) + 2) < 32) as H2.
  { rewrite <- Rpower_2_5. apply Rpower_lt; lra. }
  lra.
Qed.

Lemma score_playing_time_bounds (g : Game) (t : option Z) (w : option R) :
  0 <= fst (score_playing_time g t w) <= 1
  /\ (snd (score_playing_time g t w) = 0
      \/ snd (score_playing_time g t w) = 0.4).
Proof.
  assert (forall b : bool,
             0 <= fst (if b then (0.5, w_score_playing_time) else (0, 0)) <= 1
             /\ (snd (if b then (0.5, w_score_playing_time) else (0, 0)) = 0
                 \/ snd (if b then (0.5, w_score_playing_time) else (0, 0)) = 0.4))
    as Hdflt.
  { intros [|]; simpl; unfold w_score_playing_time;
      (split; [lra | (left; lra) || (right; lra)]). }
  destruct (playing_time g) as [gt |] eqn:Hg.
  2: { unfold score_playing_time. rewrite Hg. apply Hdflt. }
  destruct t as [t |].
  2: { unfold score_playing_time. rewrite Hg. apply Hdflt. }
  destruct (Z_lt_le_dec (Z.abs (t - gt)) t) as [Hnear | Hfar].
  - rewrite (score_playing_time_near g t gt w Hg Hnear). cbn [fst snd].
    pose proof (playing_time_raw_bounds (Z.abs (t - gt)) t
                  (conj (Z.abs_nonneg _) Hnear)).
    split; [lra | right; reflexivity].
  - rewrite (score_playing_time_far g t gt w Hg Hfar). cbn [fst snd].
    split; [lra | right; reflexivity].
Qed.

(** The playing-time pair always has a raw value in [[0,1]] and the weight 0
    or 0.4. *)
Theorem score_playing_time_range (g : Game) (t : option Z) (w : option R) :
  0 <= fst (score_playing_time g t w) <= 1
  /\ (snd (score_playing_time g t w) = 0
      \/ snd (score_playing_time g t w) = 0.4).
Proof.
  exact (score_playing_time_bounds g t w).
Qed.

(** For one requested time, a game whose playing time is farther from it
    never scores higher. *)
Theorem score_playing_time_decreasing (g1 g2 : Game) (gt1 gt2 t : Z)
  (w : option R) :
  playing_time g1 = Some gt1 ->
  playing_time g2 = Some gt2 ->
  (Z.abs (t - gt1) <= Z.abs (t - gt2))%Z ->
  fst (score_playing_time g2 (Some t) w)
  <= fst (score_playing_time g1 (Some t) w).
Proof.
  intros Hg1 Hg2 Hle.
  destruct (Z_lt_le_dec (Z.abs (t - gt2)) t) as [Hnear | Hfar].
  - rewrite (score_playing_time_near g2 t gt2 w Hg2 Hnear).
    rewrite (score_playing_time_near g1 t gt1 w Hg1) by lia. cbn [fst].
    destruct (playing_time_exponent (Z.abs (t - gt1)) (Z.abs (t - gt2)) t)
      as (_ & Hmono & _); [split; [apply Z.abs_nonneg | exact Hle] | exact Hnear |].
    pose proof (Rpower_2_mono _ _ Hmono). lra.
  - rewrite (score_playing_time_far g2 t gt2 w Hg2 Hfar). cbn [fst].
    destruct (Z_lt_le_dec (Z.abs (t - gt1)) t) as [Hnear1 | Hfar1].
    + rewrite (score_playing_time_near g1 t gt1 w Hg1 Hnear1). cbn [fst].
      pose proof (playing_time_raw_bounds (Z.abs (t - gt1)) t
                    (conj (Z.abs_nonneg _) Hnear1)).
      lra.
    + rewrite (score_playing_time_far g1 t gt1 w Hg1 Hfar1). cbn [fst]. lra.
Qed.

Lemma score_playing_time_decreasing_witness :
  fst (score_playing_time two_hour_game (Some 60%Z) None)
  <= fst (score_playing_time hour_game (Some 60%Z) None).
Proof.
  apply (score_playing_time_decreasing hour_game two_hour_game 60 120 60 None);
    [reflexivity | reflexivity | simpl; lia].
Defined.

Local Close Scope R_scope.

Local Open Scope R_scope.

(** The exponent of line 627 grows with the distance and stays in [2, 4). *)
Lemma weight_exponent (d1 d2 : R) :
  0 <= d1 <= d2 -> d2 < 2.5 ->
  2 <= d1 * (2 / 2.5) + 2
  /\ d1 * (2 / 2.5) + 2 <= d2 * (2 / 2.5) + 2
  /\ d2 * (2 / 2.5) + 2 < 4.
Proof.
  intros [H0 H12] H2. repeat split; lra.
Qed.

(** Lines 621-628 when the game has an average weight. *)
Lemma score_weight_near (g : Game) (w gw : R) :
  average_weight g = Some gw -> Rabs (w - gw) < 2.5 ->
  score_weight g (Some w)
  = (1 - (Rpower 2 (Rabs (w - gw) * (2 / 2.5) + 2) - 4) / 16, w_score_weight).
Proof.
  intros Hg Hnear. unfold score_weight. rewrite Hg.
  destruct (Rle_dec 2.5 (Rabs (w - gw))) as [Hge | _]; [lra | reflexivity].
Qed.

Lemma score_weight_far (g : Game) (w gw : R) :
  average_weight g = Some gw -> 2.5 <= Rabs (w - gw) ->
  score_weight g (Some w) = (0, w_score_weight).
Proof.
  intros Hg Hfar. unfold score_weight. rewrite Hg.
  destruct (Rle_dec 2.5 (Rabs (w - gw))) as [_ | Hlt]; [reflexivity | lra].
Qed.

Lemma weight_raw_bounds (d : R) :
  0 <= d < 2.5 ->
  1 / 4 < 1 - (Rpower 2 (d * (2 / 2.5) + 2) - 4) / 16 <= 1.
Proof.
  intros [H0 Hd].
  destruct (weight_exponent d d) as (Hlo & _ & Hhi); [lra | lra |].
  pose proof (Rpower_2_mono _ _ Hlo) as H1. rewrite Rpower_2_2 in H1.
  assert (Rpower 2 (d * (2 / 2.5) + 2) < 16) as H2.
  { rewrite <- Rpower_2_4. apply Rpower_lt; lra. }
  lra.
Qed.

Lemma score_weight_bounds (g : Game) (w : option R) :
  0 <= fst (score_weight g w) <= 1
  /\ (fst (score_weight g w) = 0 \/ 1 / 4 < fst (score_weight g w))
  /\ (snd (score_weight g w) = 0 \/ snd (score_weight g w) = 0.4).
Proof.
  assert (forall b : bool,
             0 <= fst (if b then (0.5, w_score_weight) else (0, 0)) <= 1
             /\ (fst (if b then (0.5, w_score_weight) else (0, 0)) = 0
                 \/ 1 / 4 < fst (if b then (0.5, w_score_weight) else (0, 0)))
             /\ (snd (if b then (0.5, w_score_weight) else (0, 0)) = 0
                 \/ snd (if b then (0.5, w_score_weight) else (0, 0)) = 0.4))
    as Hdflt.
  { intros [|]; simpl; unfold w_score_weight;
      (split; [lra |]);
      (split; [(left; lra) || (right; lra) | (left; lra) || (right; lra)]). }
  destruct (average_weight g) as [gw |] eqn:Hg.
  2: { unfold score_weight. rewrite Hg. apply Hdflt. }
  destruct w as [w |].
  2: { unfold score_weight. rewrite Hg. apply Hdflt. }
  destruct (Rlt_le_dec (Rabs (w - gw)) 2.5) as [Hnear | Hfar].
  - rewrite (score_weight_near g w gw Hg Hnear). cbn [fst snd].
    pose proof (weight_raw_bounds (Rabs (w - gw)) (conj (Rabs_pos _) Hnear)).
    split; [lra |]. split; [right; lra | right; reflexivity].
  - rewrite (score_weight_far g w gw Hg Hfar). cbn [fst snd].
    split; [lra |]. split; [left; reflexivity | right; reflexivity].
Qed.

(** The weight pair always has a raw value in [[0,1]] and the weight 0 or
    0.4; the raw value is 0 or at least 1/4, as the curve of line 628 comes
    down to 1/4 where the distance reaches 2.5, from where the score is 0. *)
Theorem score_weight_range (g : Game) (w : option R) :
  0 <= fst (score_weight g w) <= 1
  /\ (fst (score_weight g w) = 0 \/ 1 / 4 <= fst (score_weight g w))
  /\ (snd (score_weight g w) = 0 \/ snd (score_weight g w) = 0.4).
Proof.
  destruct (score_weight_bounds g w) as (Hraw & Hjump & Hwt).
  split; [exact Hraw |]. split; [| exact Hwt].
  destruct Hjump as [H0 | Hlt]; [left; exact H0 | right; lra].
Qed.

(** For one requested weight, a game whose average weight is farther from it
    never scores higher. *)
Theorem score_weight_decreasing (g1 g2 : Game) (gw1 gw2 w : R) :
  average_weight g1 = Some gw1 ->
  average_weight g2 = Some gw2 ->
  Rabs (w - gw1) <= Rabs (w - gw2) ->
  fst (score_weight g2 (Some w)) <= fst (score_weight g1 (Some w)).
Proof.
  intros Hg1 Hg2 Hle.
  destruct (Rlt_le_dec (Rabs (w - gw2)) 2.5) as [Hnear | Hfar].
  - rewrite (score_weight_near g2 w gw2 Hg2 Hnear).
    rewrite (score_weight_near g1 w gw1 Hg1) by lra. cbn [fst].
    destruct (weight_exponent (Rabs (w - gw1)) (Rabs (w - gw2)))
      as (_ & Hmono & _); [split; [apply Rabs_pos | exact Hle] | exact Hnear |].
    pose proof (Rpower_2_mono _ _ Hmono). lra.
  - rewrite (score_weight_far g2 w gw2 Hg2 Hfar). cbn [fst].
    destruct (Rlt_le_dec (Rabs (w - gw1)) 2.5) as [Hnear1 | Hfar1].
    + rewrite (score_weight_near g1 w gw1 Hg1 Hnear1). cbn [fst].
      pose proof (weight_raw_bounds (Rabs (w - gw1)) (conj (Rabs_pos _) Hnear1)).
      lra.
    + rewrite (score_weight_far g1 w gw1 Hg1 Hfar1). cbn [fst]. lra.
Qed.

Lemma score_weight_decreasing_witness :
  fst (score_weight heavy_game (Some 2)) <= fst (score_weight light_game (Some 2)).
Proof.
  apply (score_weight_decreasing light_game heavy_game 2 4 2);
    [reflexivity | reflexivity |].
  replace (2 - 2) with 0 by lra. rewrite Rabs_R0. apply Rabs_pos.
Defined.

Local Close Scope R_scope.

(** ** The range of the suggested-players score *)

Lemma py_sum_int_shift (l : list Z) (a : Z) :
  fold_left Z.add l a = a + fold_left Z.add l 0.
Proof.
  revert a. induction l as [| x l IH]; intros a; simpl; [lia |].
  rewrite (IH (a + x)), (IH x). lia.
Qed.

Lemma py_sum_int_cons (x : Z) (l : list Z) :
  py_sum_int (x :: l) = x + py_sum_int l.
Proof.
  unfold py_sum_int. simpl. apply py_sum_int_shift.
Qed.

Lemma py_sum_int_nonneg (l : list Z) :
  Forall (fun v => 0 <= v) l -> 0 <= py_sum_int l.
Proof.
  induction 1 as [| x l Hx Hl IH]; [unfold py_sum_int; simpl; lia |].
  rewrite py_sum_int_cons. lia.
Qed.

Lemma votes_one_le_sum (sv : list (string * Z)) (k : string) (a : Z) :
  votes_nonneg sv -> dict_get String.eqb sv k = Some a ->
  a <= py_sum_int (dict_values sv).
Proof.
  unfold votes_nonneg. induction sv as [| [k' v'] sv IH]; simpl; [discriminate |].
  intros Hnn Hget. inversion Hnn as [| ? ? Hv Hrest]; subst.
  rewrite py_sum_int_cons. pose proof (py_sum_int_nonneg _ Hrest).
  destruct (String.eqb k k').
  - injection Hget as <-. lia.
  - specialize (IH Hrest Hget). unfold dict_values in *. lia.
Qed.

Lemma votes_two_le_sum (sv : list (string * Z)) (k1 k2 : string) (a b : Z) :
  k1 <> k2 -> votes_nonneg sv ->
  dict_get String.eqb sv k1 = Some a -> dict_get String.eqb sv k2 = Some b ->
  a + b <= py_sum_int (dict_values sv).
Proof.
  intros Hne. unfold votes_nonneg.
  induction sv as [| [k' v'] sv IH]; simpl; [discriminate |].
  intros Hnn H1 H2. inversion Hnn as [| ? ? Hv Hrest]; subst.
  rewrite py_sum_int_cons.
  destruct (String.eqb_spec k1 k') as [-> | Hk1].
  - injection H1 as <-.
    destruct (String.eqb_spec k2 k') as [-> | Hk2]; [contradiction |].
    pose proof (votes_one_le_sum sv k2 b Hrest H2). unfold dict_values in *. lia.
  - destruct (String.eqb_spec k2 k') as [-> | Hk2].
    + injection H2 as <-.
      pose proof (votes_one_le_sum sv k1 a Hrest H1). unfold dict_values in *. lia.
    + specialize (IH Hrest H1 H2). unfold dict_values in *. lia.
Qed.

Lemma dict_index_Ok {V : Type} (d : list (string * V)) (k : string) (v : V) :
  dict_index String.eqb d k = Ok v -> dict_get String.eqb d k = Some v.
Proof.
  unfold dict_index. destruct (dict_get String.eqb d k); [| discriminate].
  intros H. injection H as <-. reflexivity.
Qed.

Lemma suggestion_of_votes_bounds (sv : list (string * Z)) (raw wt : R) :
  votes_nonneg sv ->
  suggestion_of_votes sv = Ok (raw, wt) ->
  (0 <= raw <= 1)%R /\ wt = w_suggested_values.
Proof.
  intros Hnn Hrun. pose proof Hrun as Hrun'. unfold suggestion_of_votes in Hrun'.
  apply bind_Ok_inv in Hrun' as (nr & Hnr & Hrun').
  apply bind_Ok_inv in Hrun' as (s0 & Hs0 & Hrun').
  apply bind_Ok_inv in Hrun' as (best & Hbest & Hrun').
  apply bind_Ok_inv in Hrun' as (s1 & _ & Hrun').
  apply bind_Ok_inv in Hrun' as (rec & Hrec & _).
  apply dict_index_Ok in Hnr, Hbest, Hrec.
  assert (py_sum_int (dict_values sv) <> 0) as Htot.
  { unfold py_truediv in Hs0. intros Heq. rewrite Heq in Hs0. discriminate. }
  rewrite (suggestion_of_votes_value sv best rec nr Hbest Hrec Hnr Htot) in Hrun.
  injection Hrun as <- <-. split; [| reflexivity].
  pose proof (votes_two_le_sum sv "Best" "Recommended" best rec
                ltac:(discriminate) Hnn Hbest Hrec) as Hsum.
  pose proof (votes_one_le_sum sv _ _ Hnn Hbest) as Hb.
  pose proof (py_sum_int_nonneg _ Hnn) as Hpos.
  assert (forall k v, dict_get String.eqb sv k = Some v -> 0 <= v) as Hge.
  { intros k v Hk. unfold votes_nonneg in Hnn. clear -Hnn Hk.
    induction sv as [| [k' v'] sv IH]; simpl in *; [discriminate |].
    inversion Hnn; subst. destruct (String.eqb k k'); [congruence | auto]. }
  pose proof (Hge _ _ Hbest) as Hb0. pose proof (Hge _ _ Hrec) as Hr0.
  set (T := py_sum_int (dict_values sv)) in *.
  assert (0 < IZR T)%R as HT by (apply (IZR_lt 0); lia).
  assert (0 <= IZR best)%R as Hb0' by (apply (IZR_le 0); exact Hb0).
  assert (0 <= IZR rec)%R as Hr0' by (apply (IZR_le 0); exact Hr0).
  assert (IZR best + IZR rec <= IZR T)%R as Hsum'
    by (rewrite <- plus_IZR; apply IZR_le; exact Hsum).
  assert (0 < / IZR T)%R as Hi by (apply Rinv_0_lt_compat; exact HT).
  assert (IZR T * / IZR T = 1)%R as HTi by (apply Rinv_r; lra).
  unfold Rmax, Rdiv. generalize dependent (/ IZR T)%R. intros i Hi HTi.
  destruct Rle_dec; split; try lra; nra.
Qed.

Lemma score_suggested_values_bounds (g : Game) (n : Z) (raw wt : R) :
  polls_nonneg g ->
  score_suggested_values g n = Ok (raw, wt) ->
  (0 <= raw <= 1)%R /\ wt = 0.2%R.
Proof.
  intros Hnn. unfold score_suggested_values.
  assert (forall r w : R, Ok (0.6%R, w_suggested_values) = Ok (r, w) ->
                          (0 <= r <= 1)%R /\ w = 0.2%R) as Hdflt.
  { intros r w H. injection H as <- <-. unfold w_suggested_values. split; lra. }
  destruct (suggested_players g) as [[| e sp] |] eqn:Hsp; try apply Hdflt.
  destruct (dict_get Z.eqb (e :: sp) n) as [[| v vs] |] eqn:Hget; try apply Hdflt.
  intros Hrun.
  exact (suggestion_of_votes_bounds _ raw wt (Hnn _ _ _ Hsp Hget) Hrun).
Qed.

(** With vote counts that are not negative, the suggested-players pair of a
    game, when it is computed, has a raw value in [[0,1]] and the weight
    0.2. *)
Theorem score_suggested_values_range (g : Game) (n : Z) (raw wt : R) :
  polls_nonneg g ->
  score_suggested_values g n = Ok (raw, wt) ->
  (0 <= raw <= 1)%R /\ wt = 0.2%R.
Proof.
  exact (score_suggested_values_bounds g n raw wt).
Qed.

Lemma votes_split_nonneg : polls_nonneg split_game.
Proof.
  intros sp n sv Hsp Hget. injection Hsp as <-. simpl in Hget.
  destruct (n =? 2); [| discriminate]. injection Hget as <-.
  unfold votes_nonneg. simpl. repeat constructor; lia.
Qed.

Lemma score_suggested_values_range_witness :
  exists raw wt,
    score_suggested_values split_game 2 = Ok (raw, wt)
    /\ (0 <= raw <= 1)%R.
Proof.
  assert (exists raw wt, score_suggested_values split_game 2 = Ok (raw, wt))
    as (raw & wt & Hrun) by (eexists; eexists; reflexivity).
  exists raw, wt. split; [exact Hrun |].
  exact (proj1 (score_suggested_values_range split_game 2 raw wt
                  votes_split_nonneg Hrun)).
Defined.

(** ** The range of the players score *)

Local Open Scope R_scope.

Lemma exp_nonpos_le_1 (y : R) : y <= 0 -> 0 < exp y <= 1.
Proof.
  intros [Hlt | ->].
  - split; [apply exp_pos |]. rewrite <- exp_0. apply Rlt_le, exp_increasing. exact Hlt.
  - rewrite exp_0. lra.
Qed.

(** The factor of line 675 lies in (0, 1]. *)
Lemma play_count_decay (plays : Z) (r : R) :
  (0 <= plays)%Z -> 0 < exp (IZR plays / Rpower 2.0 (r * 10) * -1.0) <= 1.
Proof.
  intros Hp. apply exp_nonpos_le_1.
  assert (0 <= IZR plays) as Hp' by (apply (IZR_le 0); exact Hp).
  assert (0 < Rpower 2.0 (r * 10)) as Hpow by (unfold Rpower; apply exp_pos).
  assert (0 < / Rpower 2.0 (r * 10)) as Hi by (apply Rinv_0_lt_compat; exact Hpow).
  unfold Rdiv. generalize dependent (/ Rpower 2.0 (r * 10)). intros i Hi. nra.
Qed.

Lemma truthy_float_value (x : option R) :
  truthy_float x = true -> exists r, x = Some r /\ float_of x = r.
Proof.
  destruct x as [r |]; [| discriminate]. intros _. exists r. auto.
Qed.

(** A turn keeps the numerator between 0 and the denominator. *)
Lemma players_score_step_bounds (gid : Z) (acc : R * R) (player : Player) :
  (forall stats, dict_get Z.eqb (games_stats player) gid = Some stats ->
                 stats_in_range stats) ->
  0 <= fst acc <= snd acc ->
  0 <= fst (players_score_step gid acc player)
    <= snd (players_score_step gid acc player).
Proof.
  intros Hrange Hacc. unfold players_score_step.
  destruct acc as [players_score divide_by]. cbn [fst snd] in Hacc.
  destruct (is_guest player); [exact Hacc |].
  destruct (dict_get Z.eqb (games_stats player) gid) as [stats |]; [| exact Hacc].
  destruct (Hrange stats eq_refl) as [Hplays Hrating].
  destruct (truthy_float (rating stats)) eqn:Htruthy.
  - destruct (truthy_float_value _ Htruthy) as (r & Hr & ->).
    pose proof (Hrating r Hr) as Hr01.
    destruct (want_to_play stats); cbn [fst snd]; [lra |].
    destruct (play_count stats =? 0)%Z; cbn [fst snd]; [lra |].
    pose proof (play_count_decay (play_count stats) r Hplays). nra.
  - destruct (want_to_play stats); cbn [fst snd]; lra.
Qed.

Lemma players_score_loop_bounds (g : Game) (gid : Z) (group : list Player) :
  average_rating_in_range g ->
  group_in_range gid group ->
  0 <= fst (players_score_loop g gid group) <= snd (players_score_loop g gid group).
Proof.
  intros Hav Hgroup. unfold players_score_loop.
  assert (0 <= fst (players_score_init g) <= snd (players_score_init g)) as Hinit.
  { unfold players_score_init.
    destruct (truthy_float (average_rating g)) eqn:Htruthy; cbn [fst snd]; [| lra].
    destruct (truthy_float_value _ Htruthy) as (r & Hr & ->).
    pose proof (Hav r Hr). lra. }
  revert Hinit. generalize (players_score_init g).
  induction group as [| p group IH]; intros acc Hacc; [exact Hacc |].
  cbn [fold_left]. apply IH.
  - intros player stats Hin. apply Hgroup. right. exact Hin.
  - apply players_score_step_bounds; [| exact Hacc].
    intros stats. apply Hgroup. left. reflexivity.
Qed.

Lemma score_players_bounds (g : Game) (gid : Z) (group : list Player) :
  average_rating_in_range g ->
  group_in_range gid group ->
  0 <= fst (score_players g gid group) <= 1
  /\ snd (score_players g gid group) = 0.4.
Proof.
  intros Hav Hgroup.
  pose proof (players_score_loop_bounds g gid group Hav Hgroup) as Hloop.
  unfold score_players.
  destruct (players_score_loop g gid group) as [players_score divide_by].
  cbn [fst snd] in Hloop.
  destruct (Rlt_dec 0.0 divide_by) as [Hpos | _]; cbn [fst snd];
    unfold w_players_score; [| split; lra].
  split; [| lra].
  assert (0 < / divide_by) as Hi by (apply Rinv_0_lt_compat; lra).
  assert (divide_by * / divide_by = 1) as Hdi by (apply Rinv_r; lra).
  unfold Rdiv. generalize dependent (/ divide_by). intros i Hi Hdi. nra.
Qed.

(** With ratings between 0 and 1 and numbers of plays that are not
    negative, the players pair has a raw value in [[0,1]] and the weight
    0.4. *)
Theorem score_players_range (g : Game) (gid : Z) (group : list Player) :
  average_rating_in_range g ->
  group_in_range gid group ->
  0 <= fst (score_players g gid group) <= 1
  /\ snd (score_players g gid group) = 0.4.
Proof.
  exact (score_players_bounds g gid group).
Qed.

Lemma rich_game_in_range :
  average_rating_in_range rich_game /\ group_in_range 10 [erin; frank].
Proof.
  split.
  - intros r Hr. injection Hr as <-. lra.
  - intros player stats [<- | [<- | []]] Hget; injection Hget as <-;
      (split; [cbn [play_count]; lia | intros r Hr; injection Hr as <-; lra]).
Qed.

Lemma score_players_range_witness :
  0 <= fst (score_players rich_game 10 [erin; frank]) <= 1.
Proof.
  exact (proj1 (score_players_range rich_game 10 [erin; frank]
                  (proj1 rich_game_in_range) (proj2 rich_game_in_range))).
Defined.

Local Close Scope R_scope.

(** ** The final score of a game *)

Local Open Scope R_scope.

Lemma score_suggested_values_weight (g : Game) (n : Z) (sv : R * R) :
  score_suggested_values g n = Ok sv -> snd sv = 0.2.
Proof.
  unfold score_suggested_values.
  assert (Ok (0.6, w_suggested_values) = Ok sv -> snd sv = 0.2) as Hdflt.
  { intros H. injection H as <-. reflexivity. }
  destruct (suggested_players g) as [[| e sp] |]; try exact Hdflt.
  destruct (dict_get Z.eqb (e :: sp) n) as [[| v vs] |]; try exact Hdflt.
  unfold suggestion_of_votes. intros H.
  repeat (apply bind_Ok_inv in H as (? & _ & H)).
  injection H as <-. reflexivity.
Qed.

Lemma score_players_weight (g : Game) (gid : Z) (group : list Player) :
  snd (score_players g gid group) = 0.4.
Proof.
  unfold score_players.
  destruct (players_score_loop g gid group) as [players_score divide_by].
  destruct (Rlt_dec 0.0 divide_by); reflexivity.
Qed.

Lemma game_scores_inv (g : Game) (gid : Z) (group : list Player)
  (t : option Z) (w : option R) (scores : list (R * R)) :
  game_scores g gid group t w = Ok scores ->
  exists sv,
    score_suggested_values g (Z.of_nat (List.length group)) = Ok sv
    /\ scores = [score_playing_time g t w; score_weight g w; sv;
                 score_players g gid group].
Proof.
  unfold game_scores. intros H. apply bind_Ok_inv in H as (sv & Hsv & H).
  injection H as <-. exists sv. auto.
Qed.

Lemma game_scores_weights (g : Game) (gid : Z) (group : list Player)
  (t : option Z) (w : option R) (scores : list (R * R)) :
  game_scores g gid group t w = Ok scores ->
  0.6 <= py_sum (map snd scores) <= 1.4.
Proof.
  intros H. apply game_scores_inv in H as (sv & Hsv & ->).
  pose proof (score_suggested_values_weight _ _ _ Hsv) as H3.
  pose proof (score_players_weight g gid group) as H4.
  destruct (score_playing_time_bounds g t w) as [_ H1].
  destruct (score_weight_bounds g w) as (_ & _ & H2).
  unfold py_sum. cbn [map fold_left].
  destruct H1 as [H1 | H1], H2 as [H2 | H2]; lra.
Qed.

(** The four weights of a game add up to 0.6, 1.0 or 1.4, never to 0: the
    score of a game is always the standardized weighted average of its
    sub-scores, and the score 0.0 of line 697 is never used. *)
Theorem final_score_is_weighted_average (g : Game) (gid : Z)
  (group : list Player) (t : option Z) (w : option R) (scores : list (R * R)) :
  game_scores g gid group t w = Ok scores ->
  0.6 <= py_sum (map snd scores) <= 1.4
  /\ final_score scores
     = standardize (py_sum (map (fun s => fst s * snd s) scores)
                    / py_sum (map snd scores)).
Proof.
  intros H. pose proof (game_scores_weights _ _ _ _ _ _ H) as Hw.
  split; [exact Hw |]. unfold final_score.
  destruct (Rlt_dec 0.0 (py_sum (map snd scores))) as [_ | Hn]; [reflexivity | lra].
Qed.

Lemma final_score_is_weighted_average_witness :
  exists scores,
    game_scores chain_base 1 [alice; bob] None None = Ok scores
    /\ 0.6 <= py_sum (map snd scores) <= 1.4.
Proof.
  assert (exists scores,
             game_scores chain_base 1 [alice; bob] None None = Ok scores)
    as [scores Hrun] by (eexists; reflexivity).
  exists scores. split; [exact Hrun |].
  exact (proj1 (final_score_is_weighted_average _ _ _ _ _ _ Hrun)).
Defined.

Lemma py_round_4_unit (x : R) : 0 <= x <= 1 -> 0 <= py_round x 4 <= 1.
Proof.
  intros [H0 H1]. unfold py_round. rewrite pow10_4.
  assert (IZR 0 <= x * 10000) as Hlo by lra.
  assert (x * 10000 <= IZR 10000) as Hhi by lra.
  apply round_half_even_mono in Hlo, Hhi.
  rewrite round_half_even_IZR in Hlo, Hhi.
  apply IZR_le in Hlo, Hhi. lra.
Qed.

Lemma final_score_rounds_the_average (g : Game) (gid : Z)
  (group : list Player) (t : option Z) (w : option R) (scores : list (R * R)) :
  polls_nonneg g ->
  average_rating_in_range g ->
  group_in_range gid group ->
  game_scores g gid group t w = Ok scores ->
  0 <= py_sum (map (fun s => fst s * snd s) scores) / py_sum (map snd scores) <= 1
  /\ final_score scores
     = py_round (py_sum (map (fun s => fst s * snd s) scores)
                 / py_sum (map snd scores)) 4.
Proof.
  intros Hpolls Hav Hgroup H.
  pose proof (game_scores_weights _ _ _ _ _ _ H) as Hw.
  assert (0 <= py_sum (map (fun s => fst s * snd s) scores)
          <= py_sum (map snd scores)) as Hnum.
  { apply game_scores_inv in H as (sv & Hsv & ->).
    destruct sv as [raw3 w3].
    destruct (score_suggested_values_bounds g _ raw3 w3 Hpolls Hsv) as [Hr3 ->].
    destruct (score_players_bounds g gid group Hav Hgroup) as [Hr4 Hw4].
    destruct (score_playing_time_bounds g t w) as [Hr1 Hw1].
    destruct (score_weight_bounds g w) as (Hr2 & _ & Hw2).
    unfold py_sum. cbn [map fold_left fst snd].
    rewrite Hw4.
    destruct Hw1 as [-> | ->], Hw2 as [-> | ->]; lra. }
  assert (0 <= py_sum (map (fun s => fst s * snd s) scores)
               / py_sum (map snd scores) <= 1) as Havg.
  { assert (0 < / py_sum (map snd scores)) as Hi
      by (apply Rinv_0_lt_compat; lra).
    assert (py_sum (map snd scores) * / py_sum (map snd scores) = 1) as Hdi
      by (apply Rinv_r; lra).
    unfold Rdiv. generalize dependent (/ py_sum (map snd scores)).
    intros i Hi Hdi. nra. }
  split; [exact Havg |]. unfold final_score.
  destruct (Rlt_dec 0.0 (py_sum (map snd scores))) as [_ | Hn]; [| lra].
  pose proof (py_round_4_unit _ Havg) as Hround.
  unfold standardize, py_max2, py_min2. repeat destruct Rlt_dec; lra.
Qed.

(** With data in range (vote counts not negative, ratings between 0 and 1,
    numbers of plays not negative) the weighted average of the sub-scores of
    a game lies in [[0,1]] already, so that the clamp of [standardize] has
    nothing to cut: the score of the game differs from that average by the
    rounding alone, less than one unit of the fourth decimal. *)
Theorem final_score_is_rounded_average (g : Game) (gid : Z)
  (group : list Player) (t : option Z) (w : option R) (scores : list (R * R)) :
  polls_nonneg g ->
  average_rating_in_range g ->
  group_in_range gid group ->
  game_scores g gid group t w = Ok scores ->
  0 <= py_sum (map (fun s => fst s * snd s) scores) / py_sum (map snd scores) <= 1
  /\ Rabs (final_score scores
           - py_sum (map (fun s => fst s * snd s) scores)
             / py_sum (map snd scores))
     < 1 / 10000.
Proof.
  intros Hpolls Hav Hgroup H.
  destruct (final_score_rounds_the_average g gid group t w scores
              Hpolls Hav Hgroup H) as [Havg ->].
  split; [exact Havg |].
  pose proof (py_round_4_near
                (py_sum (map (fun s => fst s * snd s) scores)
                 / py_sum (map snd scores))) as Hnear.
  lra.
Qed.

Lemma rich_game_polls_nonneg : polls_nonneg rich_game.
Proof.
  intros sp n sv Hsp Hget. injection Hsp as <-.
  cbn [dict_get] in Hget. destruct (n =? 2)%Z; [| discriminate].
  injection Hget as <-. unfold votes_nonneg, votes_rich, dict_values.
  cbn [map snd]. repeat constructor; lia.
Qed.

Lemma final_score_is_rounded_average_witness :
  exists scores,
    game_scores rich_game 10 [erin; frank] (Some 90%Z) (Some 3) = Ok scores
    /\ Rabs (final_score scores
             - py_sum (map (fun s => fst s * snd s) scores)
               / py_sum (map snd scores))
       < 1 / 10000.
Proof.
  assert (exists scores,
             game_scores rich_game 10 [erin; frank] (Some 90%Z) (Some 3)
             = Ok scores)
    as [scores Hrun] by (eexists; reflexivity).
  exists scores. split; [exact Hrun |].
  exact (proj2 (final_score_is_rounded_average rich_game 10 [erin; frank]
                  (Some 90%Z) (Some 3) scores rich_game_polls_nonneg
                  (proj1 rich_game_in_range) (proj2 rich_game_in_range) Hrun)).
Defined.

Local Close Scope R_scope.

(** ** The sort of the ranked list is stable *)

Lemma insert_desc_has_score (s : R) (x : Z * R) (l : list (Z * R)) :
  filter (has_score s) (insert_desc x l) = filter (has_score s) (x :: l).
Proof.
  induction l as [| y l IH]; [reflexivity |].
  cbn [insert_desc]. destruct (Rlt_dec (snd x) (snd y)) as [Hlt | _]; [| reflexivity].
  cbn [filter] in *. rewrite IH.
  unfold has_score.
  destruct (Req_dec_T (snd x) s) as [Hx | Hx], (Req_dec_T (snd y) s) as [Hy | Hy];
    try reflexivity.
  exfalso. rewrite Hx, Hy in Hlt. exact (Rlt_irrefl s Hlt).
Qed.

(** [sorted(..., reverse=True)] as the ranking uses it: the result holds the
    same entries, goes from the highest score down, and entries of equal
    score keep the order they had in the evaluation map. *)
Theorem sorted_by_score_desc_stable (l : list (Z * R)) :
  Permutation (sorted_by_score_desc l) l
  /\ StronglySorted score_desc (sorted_by_score_desc l)
  /\ forall s, filter (has_score s) (sorted_by_score_desc l)
               = filter (has_score s) l.
Proof.
  split; [apply sorted_by_score_desc_perm |].
  split; [apply sorted_by_score_desc_sorted |].
  intros s. induction l as [| x l IH]; [reflexivity |].
  cbn [sorted_by_score_desc fold_right].
  fold (sorted_by_score_desc l).
  rewrite insert_desc_has_score. cbn [filter]. rewrite IH. reflexivity.
Qed.

(** ** [show_your_decision] with [separate_exp] *)

(** Listing expansions as separate games never fails.  The ranked list is
    a part of [sorted], the evaluations of the map put in order from the
    highest score down: all of it when no limit or the limit 0 is given, its
    first [n] entries for a limit [n] above 0, and all but its last [-n]
    entries for a limit [n] below 0. *)
Theorem separate_expansions_ranking (m : Master) (limit : option Z) :
  exists ranked,
    show_your_decision m limit true = Ok ranked
    /\ Permutation (sorted_by_score_desc (evaluations m)) (evaluations m)
    /\ StronglySorted score_desc (sorted_by_score_desc (evaluations m))
    /\ StronglySorted score_desc ranked
    /\ (limit = None \/ limit = Some 0 ->
        ranked = sorted_by_score_desc (evaluations m))
    /\ (forall n, limit = Some n -> 0 < n ->
          ranked = firstn (Z.to_nat n) (sorted_by_score_desc (evaluations m)))
    /\ (forall n, limit = Some n -> n < 0 ->
          ranked
          = firstn (List.length (evaluations m) - Z.to_nat (- n))
              (sorted_by_score_desc (evaluations m))).
Proof.
  exists (apply_limit limit (sorted_by_score_desc (evaluations m))).
  split; [reflexivity |].
  split; [apply sorted_by_score_desc_perm |].
  split; [apply sorted_by_score_desc_sorted |].
  destruct (apply_limit_firstn limit (sorted_by_score_desc (evaluations m)))
    as [k Hk].
  split; [rewrite Hk; apply firstn_sorted, sorted_by_score_desc_sorted |].
  split; [| split].
  - intros [-> | ->]; reflexivity.
  - intros n -> Hn. unfold apply_limit, truthy_int, slice_to.
    destruct (Z.eqb_spec n 0); [lia |]. cbn [negb].
    destruct (Z.leb_spec 0 n); [reflexivity | lia].
  - intros n -> Hn. unfold apply_limit, truthy_int, slice_to.
    destruct (Z.eqb_spec n 0); [lia |]. cbn [negb].
    destruct (Z.leb_spec 0 n); [lia |].
    rewrite (Permutation_length (sorted_by_score_desc_perm (evaluations m))).
    f_equal. lia.
Qed.

Lemma separate_expansions_ranking_witness :
  exists ranked,
    show_your_decision chain_rated (Some 1) true = Ok ranked
    /\ ranked = firstn 1 (sorted_by_score_desc (evaluations chain_rated)).
Proof.
  destruct (separate_expansions_ranking chain_rated (Some 1))
    as (ranked & Hrun & _ & _ & _ & _ & Hfirst & _).
  exists ranked. split; [exact Hrun |].
  exact (Hfirst 1 eq_refl ltac:(lia)).
Defined.

(** ** Guests *)

Lemma players_score_fold_guests (gid : Z) (guests : list Player) (acc : R * R) :
  Forall (fun p => is_guest p = true) guests ->
  fold_left (players_score_step gid) guests acc = acc.
Proof.
  intros Hg. revert acc. induction Hg as [| p guests Hp _ IH]; intros acc;
    [reflexivity |].
  cbn [fold_left]. rewrite <- (IH acc) at 2. f_equal.
  unfold players_score_step. destruct acc. rewrite Hp. reflexivity.
Qed.

Lemma guests_are_guests (n : nat) (start : nat) :
  Forall (fun p => is_guest p = true) (map guest (seq start n)).
Proof.
  apply Forall_forall. intros p Hp. apply in_map_iff in Hp as (i & <- & _).
  reflexivity.
Qed.

(** [add_guests] makes the group larger by the number of guests and changes
    nothing else; the guests count for the number of players, and the
    players score of every game is what it is without them. *)
Theorem guests_count_and_do_not_rate (m : Master) (number_of_guests : Z)
  (g : Game) (gid : Z) :
  number_of_players (add_guests m number_of_guests)
  = number_of_players m + Z.max 0 number_of_guests
  /\ score_players g gid (game_group (add_guests m number_of_guests))
     = score_players g gid (game_group m)
  /\ collection_group (add_guests m number_of_guests) = collection_group m.
Proof.
  split; [| split; [| reflexivity]].
  - unfold number_of_players, add_guests. cbn [game_group].
    rewrite length_app, length_map, length_seq. lia.
  - unfold score_players, players_score_loop, add_guests. cbn [game_group].
    rewrite fold_left_app.
    rewrite (players_score_fold_guests gid _ _ (guests_are_guests _ _)).
    reflexivity.
Qed.

Lemma guest_names :
  username (guest 0) = "GUEST_0"%string /\ username (guest 12) = "GUEST_12"%string.
Proof. split; reflexivity. Qed.

(** ** When the re-ranking fails *)

(** A loop with a turn that raises [KeyError] whatever it starts from, and
    whose other turns raise nothing else, raises [KeyError]. *)
Lemma for_each_raises {A S : Type} (body : S -> A -> result S) (xs : list A)
  (x : A) :
  In x xs ->
  (forall acc, body acc x = Raise KeyError) ->
  (forall acc y e, body acc y = Raise e -> e = KeyError) ->
  forall acc, for_each body xs acc = Raise KeyError.
Proof.
  intros Hin Hx Hall. induction xs as [| y xs IH]; intros acc; [destruct Hin |].
  cbn [for_each]. destruct (body acc y) as [acc' | e] eqn:Hy.
  - cbn [bind]. destruct Hin as [-> | Hin]; [rewrite Hx in Hy; discriminate |].
    apply IH. exact Hin.
  - cbn [bind]. rewrite (Hall acc y e Hy). reflexivity.
Qed.

(** [max_scores] has a key only for a base with a kept path. *)
Lemma max_scores_keys (evals : list (Z * R)) (graph : list (Z * list (list Z)))
  (max_scores : list (Z * R)) :
  for_each (max_scores_step evals) graph [] = Ok max_scores ->
  forall k, In k (dict_keys max_scores) ->
            exists exps, In (k, exps) graph /\ exps <> [].
Proof.
  apply (for_each_invariant
           (fun ms => forall k, In k (dict_keys ms) ->
                                exists exps, In (k, exps) graph /\ exps <> [])).
  - intros acc [base exps] acc' Hin Hacc Hstep k Hk.
    destruct exps as [| exp exps].
    + cbn [max_scores_step] in Hstep. injection Hstep as <-. exact (Hacc k Hk).
    + destruct (max_scores_step_value evals acc base (exp :: exps))
        as (d & Hd & _); [discriminate |].
      rewrite Hd in Hstep. injection Hstep as <-.
      apply dict_set_keys_inv in Hk as [-> | Hk]; [| exact (Hacc k Hk)].
      exists (exp :: exps). split; [exact Hin | discriminate].
  - intros k [].
Qed.

Lemma new_eval_step_raises (graph : list (Z * list (list Z)))
  (max_scores new_eval : list (Z * R)) (gid : Z) (e : exn) :
  new_eval_step graph max_scores new_eval gid = Raise e -> e = KeyError.
Proof.
  unfold new_eval_step, dict_pop, dict_index.
  destruct (dict_mem Z.eqb graph gid); cbn [negb].
  - destruct (dict_get Z.eqb max_scores gid); cbn [bind]; intros H;
      [discriminate | injection H as <-; reflexivity].
  - destruct (dict_mem Z.eqb new_eval gid); intros H;
      [discriminate | injection H as <-; reflexivity].
Qed.

(** Whenever [build_exp_graph] leaves a base without any kept path, the
    re-ranking of the non-separate mode raises [KeyError], whatever the
    limit: the base has no entry in [max_scores] and line 751 looks one
    up. *)
Theorem reranking_needs_a_path_for_every_base (m : Master) (limit : option Z)
  (graph : list (Z * list (list Z))) (nodes : list Z) (base : Z) :
  build_exp_graph m = Ok (graph, nodes) ->
  dict_get Z.eqb graph base = Some [] ->
  show_your_decision m limit false = Raise KeyError.
Proof.
  intros Hbuild Hbase.
  destruct (build_exp_graph_inv m graph nodes Hbuild)
    as (g & _ & Hnodes & _ & [Hnd Hkeys]).
  destruct (max_scores_loop (evaluations m) graph Hnd []) as (ms & Hms & _ & _).
  assert (dict_get Z.eqb ms base = None) as Hnone.
  { apply dict_get_None. intros Hin.
    destruct (max_scores_keys _ _ _ Hms base Hin) as (exps & Hexps & Hne).
    apply Hne. symmetry.
    exact (dict_keys_unique graph base [] exps Hnd (dict_get_In _ _ _ Hbase) Hexps). }
  assert (In base nodes) as Hnode.
  { assert (In base (dict_keys graph)) as Hk.
    { apply in_map_iff. exists (base, []). split; [reflexivity |].
      exact (dict_get_In _ _ _ Hbase). }
    destruct (Hkeys base Hk) as (d & Hd & _). rewrite Hnodes.
    apply in_map_iff. exists (base, d). auto. }
  unfold show_your_decision, display_scores. cbn [negb].
  rewrite Hbuild. cbn [bind]. rewrite Hms. cbn [bind].
  rewrite (for_each_raises (new_eval_step graph ms) nodes base Hnode);
    [reflexivity | | intros acc y e; apply new_eval_step_raises].
  intros acc. unfold new_eval_step, dict_mem, dict_index.
  rewrite Hbase, Hnone. reflexivity.
Qed.

Lemma narrow_rated_graph :
  build_exp_graph narrow_rated = Ok ([(1, [])], [2; 1]).
Proof. reflexivity. Qed.

Lemma reranking_needs_a_path_for_every_base_witness :
  show_your_decision narrow_rated (Some 3) false = Raise KeyError.
Proof.
  exact (reranking_needs_a_path_for_every_base narrow_rated (Some 3) _ _ 1
           narrow_rated_graph eq_refl).
Defined.

(** ** A base that needs its expansion *)

(** A base that is a node with a kept path but has no evaluation of its own
    (it is owned, but does not fit the group by itself) is ranked all the
    same when the re-ranking completes: its display score is the maximum of
    0 and of the scores of the games on its kept paths. *)
Theorem base_without_evaluation_is_ranked (m : Master)
  (graph : list (Z * list (list Z))) (nodes : list Z) (base : Z)
  (exps : list (list Z)) (new_eval : list (Z * R)) :
  build_exp_graph m = Ok (graph, nodes) ->
  dict_get Z.eqb graph base = Some exps ->
  exps <> [] ->
  dict_get Z.eqb (evaluations m) base = None ->
  display_scores m = Ok new_eval ->
  exists d,
    dict_get Z.eqb new_eval base = Some d
    /\ max_of d 0 (flat_map (scores_on_path (evaluations m)) exps).
Proof.
  intros Hbuild Hexps Hne Hown Hdisp.
  destruct (build_exp_graph_inv m graph nodes Hbuild)
    as (g & _ & Hnodes & [Hndn _] & [Hnd Hkeys]).
  destruct (max_scores_loop (evaluations m) graph Hnd []) as (ms & Hms & Hin & _).
  destruct (Hin base exps (dict_get_In _ _ _ Hexps) Hne) as (d & Hd & Hmax).
  rewrite Hown in Hmax. exists d. split; [| exact Hmax].
  apply display_scores_inv in Hdisp as (graph' & nodes' & ms' & Hb' & Hm' & Hloop).
  rewrite Hbuild in Hb'. injection Hb' as <- <-.
  rewrite Hms in Hm'. injection Hm' as <-.
  assert (NoDup nodes) as Hndn' by (rewrite Hnodes; exact Hndn).
  destruct (new_eval_loop graph ms nodes Hndn' _ _ Hloop) as (_ & Hbase & _).
  assert (In base nodes) as Hnode.
  { assert (In base (dict_keys graph)) as Hk.
    { apply in_map_iff. exists (base, exps). split; [reflexivity |].
      exact (dict_get_In _ _ _ Hexps). }
    destruct (Hkeys base Hk) as (nd & Hnd' & _). rewrite Hnodes.
    apply in_map_iff. exists (base, nd). auto. }
  assert (dict_mem Z.eqb graph base = true) as Hmem
    by (unfold dict_mem; rewrite Hexps; reflexivity).
  rewrite (proj1 (Hbase base Hnode Hmem)). exact Hd.
Qed.

Lemma party_rated_run : rate_our_games party_fresh None None = Ok party_rated.
Proof. reflexivity. Qed.

Lemma party_rated_graph :
  build_exp_graph party_rated = Ok ([(1, [[1; 2]])], [2; 1]).
Proof. reflexivity. Qed.

Lemma base_without_evaluation_is_ranked_witness :
  possible_collection party_rated = [2]
  /\ exists new_eval d,
      display_scores party_rated = Ok new_eval
      /\ dict_get Z.eqb new_eval 1 = Some d.
Proof.
  split; [reflexivity |].
  assert (exists new_eval, display_scores party_rated = Ok new_eval)
    as [new_eval Hdisp] by (eexists; reflexivity).
  destruct (base_without_evaluation_is_ranked party_rated _ _ 1 [[1; 2]] new_eval
              party_rated_graph eq_refl ltac:(discriminate) eq_refl Hdisp)
    as (d & Hd & _).
  exists new_eval, d. split; [exact Hdisp | exact Hd].
Defined.

(** ** The poll of suggested player numbers *)

Lemma py_sum_int_dict_set (line : list (string * Z)) (value : string) (x : Z) :
  py_sum_int (dict_values (dict_set String.eqb line value x))
  = py_sum_int (dict_values line)
    - match dict_get String.eqb line value with Some v => v | None => 0 end
    + x.
Proof.
  induction line as [| [k v] line IH].
  - cbn. lia.
  - cbn [dict_set dict_get]. destruct (String.eqb value k).
    + unfold dict_values. cbn [map snd]. rewrite !py_sum_int_cons. lia.
    + unfold dict_values in *. cbn [map snd]. rewrite !py_sum_int_cons, IH. lia.
Qed.

Lemma add_votes_step_total (value : string) (votes : Z)
  (sp : list (Z * list (string * Z))) (pn : Z) :
  exists sp',
    add_votes_step value votes sp pn = Ok sp'
    /\ total_votes sp' pn = total_votes sp pn + votes
    /\ forall k, k <> pn -> total_votes sp' k = total_votes sp k.
Proof.
  unfold add_votes_step, total_votes, dict_mem, dict_index.
  destruct (dict_get Z.eqb sp pn) as [line |] eqn:Hget; cbn [negb].
  - rewrite Hget. cbn [bind]. eexists. split; [reflexivity |]. split.
    + rewrite dict_get_set_same, py_sum_int_dict_set. lia.
    + intros k Hk. rewrite (dict_get_set_other _ _ _ _ Hk). reflexivity.
  - rewrite dict_get_set_same. cbn [bind]. eexists. split; [reflexivity |]. split.
    + rewrite dict_get_set_same, py_sum_int_dict_set. cbn. lia.
    + intros k Hk. rewrite !(dict_get_set_other _ _ _ _ Hk). reflexivity.
Qed.

(** Lines 425-428 never fail, and they add the votes of the poll line to
    every player number it stands for, once for each time the number is
    listed; the votes of the other player numbers stay as they are. *)
Theorem poll_votes_accumulate (suggested_players : list (Z * list (string * Z)))
  (player_nums : list Z) (value : string) (votes : Z) :
  exists suggested_players',
    add_votes suggested_players player_nums value votes = Ok suggested_players'
    /\ forall pn,
        total_votes suggested_players' pn
        = total_votes suggested_players pn
          + votes * Z.of_nat (count_occ Z.eq_dec player_nums pn).
Proof.
  unfold add_votes. revert suggested_players.
  induction player_nums as [| n player_nums IH]; intros sp.
  - exists sp. split; [reflexivity |]. intros pn. cbn. lia.
  - destruct (add_votes_step_total value votes sp n) as (sp1 & Hstep & Hn & Hother).
    destruct (IH sp1) as (sp' & Hrun & Htotal).
    exists sp'. split.
    + cbn [for_each]. rewrite Hstep. cbn [bind]. exact Hrun.
    + intros pn. rewrite Htotal. cbn [count_occ].
      destruct (Z.eq_dec n pn) as [-> | Hne].
      * rewrite Hn. lia.
      * rewrite (Hother pn (not_eq_sym Hne)). lia.
Qed.

Lemma dict_get_app_fresh {V : Type} (pre rest : list (Z * V)) (k : Z) (v : V) :
  ~ In k (dict_keys pre) ->
  dict_get Z.eqb (pre ++ (k, v) :: rest) k = Some v.
Proof.
  induction pre as [| [k' v'] pre IH]; cbn; intros Hout.
  - rewrite Z.eqb_refl. reflexivity.
  - destruct (Z.eqb_spec k k') as [-> | _]; [exfalso; apply Hout; left; reflexivity |].
    apply IH. intros Hin. apply Hout. right. exact Hin.
Qed.

Lemma dict_remove_app_fresh {V : Type} (pre rest : list (Z * V)) (k : Z) (v : V) :
  ~ In k (dict_keys pre) ->
  dict_remove Z.eqb (pre ++ (k, v) :: rest) k = pre ++ rest.
Proof.
  induction pre as [| [k' v'] pre IH]; cbn; intros Hout.
  - rewrite Z.eqb_refl. reflexivity.
  - destruct (Z.eqb_spec k k') as [-> | _]; [exfalso; apply Hout; left; reflexivity |].
    f_equal. apply IH. intros Hin. apply Hout. right. exact Hin.
Qed.

Lemma filter_keys_incl {V : Type} (f : Z * V -> bool) (l : list (Z * V)) :
  incl (dict_keys (filter f l)) (dict_keys l).
Proof. apply dict_keys_incl. intros x Hx. apply filter_In in Hx. tauto. Qed.

(** The loop of lines 435-438, from any point of its run. *)
Lemma clean_loop (rest pre : list (Z * list (string * Z))) :
  NoDup (dict_keys (pre ++ rest)) ->
  for_each (clean_step (pre ++ rest)) (dict_keys rest)
    (filter enough_votes pre ++ rest)
  = Ok (filter enough_votes (pre ++ rest)).
Proof.
  revert pre. induction rest as [| [k v] rest IH]; intros pre Hnd.
  - rewrite !app_nil_r. reflexivity.
  - assert (~ In k (dict_keys pre)) as Hpre.
    { unfold dict_keys in Hnd. rewrite map_app in Hnd. cbn [map fst] in Hnd.
      apply NoDup_remove_2 in Hnd. intros Hin. apply Hnd.
      apply in_or_app. left. exact Hin. }
    assert (~ In k (dict_keys (filter enough_votes pre))) as Hkept
      by (intros Hin; apply Hpre; exact (filter_keys_incl _ _ _ Hin)).
    assert (pre ++ (k, v) :: rest = (pre ++ [(k, v)]) ++ rest) as Hsplit
      by (rewrite <- app_assoc; reflexivity).
    specialize (IH (pre ++ [(k, v)])). rewrite <- Hsplit in IH.
    specialize (IH Hnd). rewrite filter_app in IH. cbn [filter] in IH.
    change (dict_keys ((k, v) :: rest)) with (k :: dict_keys rest).
    cbn [for_each]. unfold clean_step at 1. unfold dict_index, dict_pop, dict_mem.
    rewrite (dict_get_app_fresh pre rest k v Hpre). cbn [bind].
    unfold enough_votes in IH at 2. cbn [snd] in IH.
    destruct (Z.ltb_spec (py_sum_int (dict_values v)) MIN_VOTES_FOR_SUGGESTION)
      as [Hfew | Henough].
    + rewrite (dict_get_app_fresh _ rest k v Hkept).
      rewrite (dict_remove_app_fresh _ rest k v Hkept). cbn [bind].
      destruct (Z.leb_spec MIN_VOTES_FOR_SUGGESTION (py_sum_int (dict_values v)))
        as [Hle | _]; [lia |].
      rewrite app_nil_r in IH. exact IH.
    + cbn [bind].
      destruct (Z.leb_spec MIN_VOTES_FOR_SUGGESTION (py_sum_int (dict_values v)))
        as [_ | Hlt]; [| lia].
      rewrite <- app_assoc in IH. exact IH.
Qed.

Lemma clean_suggestions_value (suggested_players : list (Z * list (string * Z))) :
  NoDup (dict_keys suggested_players) ->
  clean_suggestions suggested_players
  = Ok (match filter enough_votes suggested_players with
        | [] => None
        | entry :: kept => Some (entry :: kept)
        end).
Proof.
  intros Hnd. destruct suggested_players as [| e sp]; [reflexivity |].
  unfold clean_suggestions.
  pose proof (clean_loop (e :: sp) [] Hnd) as Hloop.
  change (filter enough_votes [] ++ e :: sp) with (e :: sp) in Hloop.
  change ([] ++ e :: sp) with (e :: sp) in Hloop.
  rewrite Hloop. cbn [bind].
  destruct (filter enough_votes (e :: sp)); reflexivity.
Qed.

(** The cleaning of lines 432-440 never fails; it keeps exactly the player
    numbers with at least [MIN_VOTES_FOR_SUGGESTION] votes, with their votes
    and in their order, and leaves [None] when no player number has that
    many. *)
Theorem cleaning_keeps_polls_with_enough_votes
  (suggested_players : list (Z * list (string * Z))) :
  NoDup (dict_keys suggested_players) ->
  clean_suggestions suggested_players
  = Ok (match filter enough_votes suggested_players with
        | [] => None
        | entry :: kept => Some (entry :: kept)
        end).
Proof. exact (clean_suggestions_value suggested_players). Qed.

Lemma poll_raw_is_dict : NoDup (dict_keys poll_raw).
Proof.
  cbn. repeat constructor; cbn; intuition lia.
Qed.

Lemma cleaning_keeps_polls_with_enough_votes_witness :
  clean_suggestions poll_raw = Ok (suggested_players polled_game).
Proof.
  exact (cleaning_keeps_polls_with_enough_votes poll_raw poll_raw_is_dict).
Defined.

(** A game whose poll went through the cleaning of the parser never divides
    by zero in the suggested-players score: when the votes have the three
    categories and are counts inside the range of [float], the score is
    computed for every number of players, with a raw value in [[0,1]] and
    the weight 0.2. *)
Theorem cleaned_polls_never_divide_by_zero
  (poll : list (Z * list (string * Z))) (g : Game) (n : Z) :
  NoDup (dict_keys poll) ->
  clean_suggestions poll = Ok (suggested_players g) ->
  polls_have_categories g ->
  polls_float_safe g ->
  exists raw,
    score_suggested_values g n = Ok (raw, 0.2%R) /\ (0 <= raw <= 1)%R.
Proof.
  intros Hnd Hclean Hcat Hsafe.
  assert (polls_nonneg g) as Hnn.
  { intros sp k sv Hsp Hget. exact (proj1 (Hsafe sp k sv Hsp Hget)). }
  assert (exists pr, score_suggested_values g n = Ok pr) as [[raw wt] Hrun].
  { rewrite (clean_suggestions_value _ Hnd) in Hclean. injection Hclean as Hsp.
    unfold score_suggested_values.
    destruct (suggested_players g) as [[| e sp] |] eqn:Hg;
      try (eexists; reflexivity).
    destruct (dict_get Z.eqb (e :: sp) n) as [[| v vs] |] eqn:Hget;
      try (eexists; reflexivity).
    destruct (Hcat (e :: sp) n (v :: vs) Hg Hget) as (Hb & Hr & Hn).
    apply dict_mem_get in Hb as (best & Hb).
    apply dict_mem_get in Hr as (rec & Hr).
    apply dict_mem_get in Hn as (nr & Hn).
    destruct (filter enough_votes poll) as [| entry kept] eqn:Hkept;
      [discriminate |].
    injection Hsp as <- <-. rewrite <- Hkept in Hget.
    apply dict_get_In in Hget. apply filter_In in Hget as [_ Henough].
    unfold enough_votes in Henough. cbn [snd] in Henough.
    apply Z.leb_le in Henough. unfold MIN_VOTES_FOR_SUGGESTION in Henough.
    eexists.
    apply (suggestion_of_votes_value (v :: vs) best rec nr Hb Hr Hn). lia. }
  exists raw.
  destruct (score_suggested_values_bounds g n raw wt Hnn Hrun) as [Hraw ->].
  split; [exact Hrun | exact Hraw].
Qed.

Lemma polled_game_categories : polls_have_categories polled_game.
Proof.
  intros sp n sv Hsp Hget. injection Hsp as <-. cbn [dict_get] in Hget.
  destruct (n =? 2); [| discriminate]. injection Hget as <-.
  repeat split; reflexivity.
Qed.

Lemma polled_game_float_safe : polls_float_safe polled_game.
Proof.
  intros sp n sv Hsp Hget. injection Hsp as <-. cbn [dict_get] in Hget.
  destruct (n =? 2); [| discriminate]. injection Hget as <-.
  split; [| apply Z.ltb_lt; vm_compute; reflexivity].
  unfold votes_nonneg, dict_values. cbn [map snd]. repeat constructor; lia.
Qed.

Lemma cleaned_polls_never_divide_by_zero_witness :
  exists raw,
    score_suggested_values polled_game 2 = Ok (raw, 0.2%R) /\ (0 <= raw <= 1)%R.
Proof.
  exact (cleaned_polls_never_divide_by_zero poll_raw polled_game 2
           poll_raw_is_dict eq_refl polled_game_categories
           polled_game_float_safe).
Defined.

(** ** The display score of a base (C2) *)

(** *** Every edge of the dependency graph leads to a node *)

Lemma dict_get_snoc {V : Type} (l : list (Z * V)) (n u : Z) (v : V) :
  dict_get Z.eqb (l ++ [(n, v)]) u
  = match dict_get Z.eqb l u with
    | Some x => Some x
    | None => if u =? n then Some v else None
    end.
Proof.
  induction l as [| [k x] l IH]; cbn [app dict_get]; [reflexivity |].
  destruct (u =? k); [reflexivity | exact IH].
Qed.

Lemma dict_set_keys_incl {V : Type} (d : list (Z * V)) (n k : Z) (v : V) :
  In k (dict_keys d) -> In k (dict_keys (dict_set Z.eqb d n v)).
Proof.
  intros Hk. rewrite dict_set_keys. destruct (dict_mem Z.eqb d n); [exact Hk |].
  apply in_or_app. left. exact Hk.
Qed.

Lemma dict_set_keys_same {V : Type} (d : list (Z * V)) (n : Z) (v : V) :
  In n (dict_keys (dict_set Z.eqb d n v)).
Proof.
  apply dict_mem_In. unfold dict_mem. rewrite dict_get_set_same. reflexivity.
Qed.

Lemma successors_add_node (g : DiGraph) (n : Z) (d : NodeData) (u : Z) :
  successors (add_node g n d) u = successors g u.
Proof.
  unfold successors, add_node. cbn [adj].
  destruct (dict_mem Z.eqb (adj g) n); [reflexivity |].
  rewrite dict_get_snoc. destruct (dict_get Z.eqb (adj g) u); [reflexivity |].
  destruct (u =? n); reflexivity.
Qed.

Lemma successors_add_edge (g : DiGraph) (u v u' : Z) :
  successors (add_edge g u v) u'
  = if u' =? u then set_add v (successors g u) else successors g u'.
Proof.
  unfold add_edge. unfold successors at 1. cbn [adj].
  destruct (Z.eqb_spec u' u) as [-> | Hne].
  - rewrite dict_get_set_same. reflexivity.
  - rewrite dict_get_set_other by exact Hne. reflexivity.
Qed.

Lemma add_node_edges_closed (g : DiGraph) (n : Z) (d : NodeData) :
  edges_closed g -> edges_closed (add_node g n d).
Proof.
  intros H u v Hv. rewrite successors_add_node in Hv.
  cbn [add_node node]. apply dict_set_keys_incl. exact (H u v Hv).
Qed.

Lemma add_edge_edges_closed (g : DiGraph) (u v : Z) :
  edges_closed g -> In v (dict_keys (node g)) -> edges_closed (add_edge g u v).
Proof.
  intros H Hv u' x Hx. rewrite successors_add_edge in Hx. cbn [add_edge node].
  destruct (u' =? u).
  - apply set_add_In in Hx as [-> | Hx]; [exact Hv | exact (H u x Hx)].
  - exact (H u' x Hx).
Qed.

Lemma add_game_step_edges_closed (coll : list (Z * Game)) (avail : list Z)
  (g g' : DiGraph) (gid : Z) :
  edges_closed g -> add_game_step coll avail g gid = Ok g' -> edges_closed g'.
Proof.
  unfold add_game_step, dict_index. intros Hg Hrun.
  destruct (dict_get Z.eqb coll gid) as [game |]; [| discriminate].
  cbn [bind] in Hrun.
  destruct (expansion_of game) as [[| b bs] |];
    try (injection Hrun as <-; exact Hg).
  assert (edges_closed g' /\ In gid (dict_keys (node g'))) as [H _]; [| exact H].
  revert Hrun.
  apply (for_each_invariant
           (fun acc => edges_closed acc /\ In gid (dict_keys (node acc)))).
  - intros acc base_id acc' _ [Hacc Hgid] Hstep.
    unfold add_base_step, dict_index in Hstep.
    destruct (set_mem base_id avail); [| injection Hstep as <-; split; assumption].
    destruct (dict_get Z.eqb coll base_id) as [base |]; [| discriminate].
    cbn [bind] in Hstep. injection Hstep as <-. split.
    + apply add_edge_edges_closed; [apply add_node_edges_closed; exact Hacc |].
      cbn [add_node node]. apply dict_set_keys_incl. exact Hgid.
    + cbn [add_edge add_node node]. apply dict_set_keys_incl. exact Hgid.
  - split; [apply add_node_edges_closed; exact Hg |].
    cbn [add_node node]. apply dict_set_keys_same.
Qed.

Lemma exp_graph_edges_closed (m : Master) (g : DiGraph) :
  exp_graph m = Ok g -> edges_closed g.
Proof.
  unfold exp_graph. apply for_each_invariant.
  - intros acc gid acc' _ Hacc Hstep.
    exact (add_game_step_edges_closed _ _ _ _ _ Hacc Hstep).
  - intros u v Hv. destruct Hv.
Qed.

(** *** The enumeration finds every simple path *)

Lemma last_in_list (q : list Z) (d : Z) : q <> [] -> In (last q d) q.
Proof.
  induction q as [| x q IH]; [congruence |]. intros _.
  destruct q as [| y q]; [left; reflexivity |].
  right. apply IH. discriminate.
Qed.

Lemma last_default (q : list Z) (d d' : Z) : q <> [] -> last q d = last q d'.
Proof.
  induction q as [| x q IH]; [congruence |]. intros _.
  destruct q as [| y q]; [reflexivity |].
  apply IH. discriminate.
Qed.

Lemma simple_paths_from_complete (g : DiGraph) (target : Z) (fuel : nat) :
  forall (visited : list Z) (u : Z) (q : list Z),
    q <> [] ->
    is_walk g (u :: q) ->
    last q target = target ->
    NoDup (visited ++ q) ->
    (List.length q <= fuel)%nat ->
    In (visited ++ q) (simple_paths_from fuel g target visited u).
Proof.
  induction fuel as [| fuel IH]; intros visited u q Hq Hwalk Hlast Hnd Hlen.
  - destruct q; [congruence | simpl in Hlen; lia].
  - destruct q as [| v q]; [congruence |].
    destruct Hwalk as [Hv Hwalk].
    cbn [simple_paths_from]. apply in_flat_map. exists v. split; [exact Hv |].
    destruct (Z.eqb_spec v target) as [-> | Hne].
    + destruct q as [| w q]; [left; reflexivity |]. exfalso.
      apply NoDup_remove_2 in Hnd. apply Hnd. apply in_or_app. right.
      pose proof (last_in_list (w :: q) target ltac:(discriminate)) as Hin.
      change (last (target :: w :: q) target) with (last (w :: q) target) in Hlast.
      rewrite Hlast in Hin. exact Hin.
    + assert (set_mem v visited = false) as Hmem.
      { destruct (set_mem v visited) eqn:Hmem; [| reflexivity].
        apply set_mem_In in Hmem. apply NoDup_remove_2 in Hnd.
        exfalso. apply Hnd. apply in_or_app. left. exact Hmem. }
      rewrite Hmem.
      destruct q as [| w q]; [simpl in Hlast; congruence |].
      replace (visited ++ v :: w :: q) with ((visited ++ [v]) ++ w :: q)
        by (rewrite <- app_assoc; reflexivity).
      apply IH.
      * discriminate.
      * exact Hwalk.
      * exact Hlast.
      * rewrite <- app_assoc. exact Hnd.
      * simpl in Hlen |- *. lia.
Qed.

Lemma is_walk_nodes (g : DiGraph) :
  edges_closed g ->
  forall q u, is_walk g (u :: q) -> incl q (dict_keys (node g)).
Proof.
  intros Hg q. induction q as [| v q IH]; intros u Hwalk x Hx; [destruct Hx |].
  destruct Hwalk as [Hv Hwalk].
  destruct Hx as [<- | Hx]; [exact (Hg u v Hv) | exact (IH v Hwalk x Hx)].
Qed.

Lemma simple_path_nodes (g : DiGraph) (source target : Z) (p : list Z) :
  edges_closed g -> In source (dict_keys (node g)) ->
  simple_path g source target p -> incl p (dict_keys (node g)).
Proof.
  intros Hg Hs (Hhd & _ & Hwalk & _).
  destruct p as [| s q]; [discriminate |]. injection Hhd as ->.
  intros x [<- | Hx]; [exact Hs | exact (is_walk_nodes g Hg q source Hwalk x Hx)].
Qed.

Lemma all_simple_paths_complete (g : DiGraph) (source target : Z) (p : list Z) :
  edges_closed g -> source <> target ->
  simple_path g source target p ->
  In p (all_simple_paths g source target).
Proof.
  intros Hg Hne (Hhd & Hlast & Hwalk & Hnd).
  destruct p as [| s q]; [discriminate |]. injection Hhd as ->.
  assert (q <> []) as Hq by (intros ->; simpl in Hlast; congruence).
  unfold all_simple_paths.
  change (source :: q) with ([source] ++ q).
  apply simple_paths_from_complete.
  - exact Hq.
  - exact Hwalk.
  - rewrite (last_default q target source Hq).
    destruct q as [| v q]; [congruence | exact Hlast].
  - exact Hnd.
  - inversion Hnd as [| ? ? _ Hndq]; subst.
    pose proof (NoDup_incl_length Hndq (is_walk_nodes g Hg q source Hwalk)) as Hlen.
    unfold dict_keys in Hlen. rewrite length_map in Hlen. exact Hlen.
Qed.

(** *** The loops of lines 713-727 keep every path that passes the test *)

Lemma path_loop_complete (coll : list (Z * Game)) (n base : Z)
  (paths : list (list Z)) :
  forall acc acc' ps0,
    for_each (path_step coll n base) paths acc = Ok acc' ->
    dict_get Z.eqb acc base = Some ps0 ->
    exists ps,
      dict_get Z.eqb acc' base = Some ps
      /\ incl ps0 ps
      /\ (forall p, In p paths -> path_feasible coll n p = Ok true -> In p ps)
      /\ (forall k, k <> base -> dict_get Z.eqb acc' k = dict_get Z.eqb acc k).
Proof.
  induction paths as [| p paths IH]; intros acc acc' ps0 Hrun Hget.
  - injection Hrun as <-. exists ps0. split; [exact Hget |].
    split; [apply incl_refl |]. split; [intros p [] | reflexivity].
  - cbn [for_each] in Hrun. apply bind_Ok_inv in Hrun as (acc1 & Hstep & Hrun).
    unfold path_step in Hstep. apply bind_Ok_inv in Hstep as (ok & Hok & Hstep).
    destruct ok.
    + unfold append_path, dict_index in Hstep. rewrite Hget in Hstep.
      cbn [bind] in Hstep. injection Hstep as <-.
      destruct (IH _ acc' (ps0 ++ [p]) Hrun (dict_get_set_same _ _ _))
        as (ps & Hps & Hincl & Hall & Hother).
      exists ps. split; [exact Hps |].
      split; [intros x Hx; apply Hincl; apply in_or_app; left; exact Hx |].
      split.
      * intros x [<- | Hx] Hf; [| exact (Hall x Hx Hf)].
        apply Hincl. apply in_or_app. right. left. reflexivity.
      * intros k Hk. rewrite (Hother k Hk). apply dict_get_set_other. exact Hk.
    + injection Hstep as <-.
      destruct (IH _ acc' ps0 Hrun Hget) as (ps & Hps & Hincl & Hall & Hother).
      exists ps. split; [exact Hps |]. split; [exact Hincl |].
      split; [| exact Hother].
      intros x [<- | Hx] Hf; [congruence | exact (Hall x Hx Hf)].
Qed.

Lemma child_loop_complete (coll : list (Z * Game)) (n : Z) (g : DiGraph)
  (base : Z) (children : list (Z * NodeData)) :
  forall acc acc' ps0,
    for_each (child_step coll n g base) children acc = Ok acc' ->
    dict_get Z.eqb acc base = Some ps0 ->
    exists ps,
      dict_get Z.eqb acc' base = Some ps
      /\ incl ps0 ps
      /\ (forall child d p,
             In (child, d) children -> isBase d = false ->
             In p (all_simple_paths g base child) ->
             path_feasible coll n p = Ok true -> In p ps)
      /\ (forall k, k <> base -> dict_get Z.eqb acc' k = dict_get Z.eqb acc k).
Proof.
  induction children as [| [c cd] children IH]; intros acc acc' ps0 Hrun Hget.
  - injection Hrun as <-. exists ps0. split; [exact Hget |].
    split; [apply incl_refl |]. split; [intros child d p [] | reflexivity].
  - cbn [for_each] in Hrun. apply bind_Ok_inv in Hrun as (acc1 & Hstep & Hrun).
    unfold child_step in Hstep. cbn [fst snd] in Hstep.
    assert (exists ps1,
               dict_get Z.eqb acc1 base = Some ps1
               /\ incl ps0 ps1
               /\ (isBase cd = false ->
                   forall p, In p (all_simple_paths g base c) ->
                             path_feasible coll n p = Ok true -> In p ps1)
               /\ (forall k, k <> base ->
                             dict_get Z.eqb acc1 k = dict_get Z.eqb acc k))
      as (ps1 & Hps1 & Hincl1 & Hall1 & Hother1).
    { destruct (isBase cd) eqn:Hcd.
      - injection Hstep as <-. exists ps0. split; [exact Hget |].
        split; [apply incl_refl |]. split; [discriminate | reflexivity].
      - destruct (has_path g base c) eqn:Hhp.
        + destruct (path_loop_complete _ _ _ _ _ _ _ Hstep Hget)
            as (ps1 & H1 & H2 & H3 & H4).
          exists ps1. split; [exact H1 |]. split; [exact H2 |].
          split; [intros _; exact H3 | exact H4].
        + injection Hstep as <-. exists ps0. split; [exact Hget |].
          split; [apply incl_refl |]. split; [| reflexivity].
          intros _ p Hp. unfold has_path in Hhp.
          destruct (all_simple_paths g base c); [destruct Hp | discriminate]. }
    destruct (IH acc1 acc' ps1 Hrun Hps1) as (ps & Hps & Hincl & Hall & Hother).
    exists ps. split; [exact Hps |].
    split; [intros x Hx; exact (Hincl x (Hincl1 x Hx)) |]. split.
    + intros child d p [Heq | Hin] Hd Hp Hf.
      * injection Heq as <- <-. apply Hincl. exact (Hall1 Hd p Hp Hf).
      * exact (Hall child d p Hin Hd Hp Hf).
    + intros k Hk. rewrite (Hother k Hk). exact (Hother1 k Hk).
Qed.

Lemma base_step_complete (coll : list (Z * Game)) (n : Z) (g : DiGraph)
  (bte bte' : list (Z * list (list Z))) (b : Z) (d : NodeData) :
  base_step coll n g bte (b, d) = Ok bte' ->
  (isBase d = true ->
   exists ps, dict_get Z.eqb bte' b = Some ps /\ paths_complete coll n g b ps)
  /\ (forall k, k <> b -> dict_get Z.eqb bte' k = dict_get Z.eqb bte k).
Proof.
  unfold base_step. cbn [fst snd]. destruct (isBase d); cbn [negb]; intros Hrun.
  - destruct (child_loop_complete _ _ _ _ _ _ _ [] Hrun (dict_get_set_same _ _ _))
      as (ps & Hps & _ & Hall & Hother).
    split.
    + intros _. exists ps. split; [exact Hps |].
      intros child cd path Hin Hcd Hp Hf. exact (Hall child cd path Hin Hcd Hp Hf).
    + intros k Hk. rewrite (Hother k Hk). apply dict_get_set_other. exact Hk.
  - injection Hrun as <-. split; [discriminate | reflexivity].
Qed.

Lemma base_loop_complete (coll : list (Z * Game)) (n : Z) (g : DiGraph)
  (nds : list (Z * NodeData)) :
  NoDup (dict_keys nds) ->
  forall acc acc',
    for_each (base_step coll n g) nds acc = Ok acc' ->
    (forall k, ~ In k (dict_keys nds) ->
               dict_get Z.eqb acc' k = dict_get Z.eqb acc k)
    /\ (forall b d,
           In (b, d) nds -> isBase d = true ->
           exists ps,
             dict_get Z.eqb acc' b = Some ps /\ paths_complete coll n g b ps).
Proof.
  induction nds as [| [b0 d0] nds IH]; intros Hnd acc acc' Hrun.
  - injection Hrun as <-. split; [reflexivity | intros b d []].
  - change (NoDup (b0 :: dict_keys nds)) in Hnd.
    inversion Hnd as [| ? ? Hb0 Hnd']; subst.
    cbn [for_each] in Hrun. apply bind_Ok_inv in Hrun as (acc1 & Hstep & Hrun).
    destruct (base_step_complete _ _ _ _ _ _ _ Hstep) as [Hbase Hother1].
    destruct (IH Hnd' acc1 acc' Hrun) as [Hout Hin].
    split.
    + intros k Hk. rewrite Hout by (intros H; apply Hk; right; exact H).
      apply Hother1. intros ->. apply Hk. left. reflexivity.
    + intros b d [Heq | Hbd] Hd.
      * injection Heq as <- <-. destruct (Hbase Hd) as (ps & Hps & Hc).
        exists ps. split; [| exact Hc]. rewrite (Hout b0 Hb0). exact Hps.
      * exact (Hin b d Hbd Hd).
Qed.

Lemma build_exp_graph_complete (m : Master) (g : DiGraph)
  (graph : list (Z * list (list Z))) (nodes : list Z) :
  exp_graph m = Ok g ->
  build_exp_graph m = Ok (graph, nodes) ->
  forall b d,
    In (b, d) (node g) -> isBase d = true ->
    exists ps,
      dict_get Z.eqb graph b = Some ps
      /\ paths_complete (collection m) (number_of_players m) g b ps.
Proof.
  unfold build_exp_graph. intros Hg Hrun. rewrite Hg in Hrun. cbn [bind] in Hrun.
  apply bind_Ok_inv in Hrun as (bte & Hbte & Hrun). injection Hrun as <- _.
  pose proof (proj1 (exp_graph_nodes_from m g Hg)) as Hnd.
  exact (proj2 (base_loop_complete _ _ _ (node g) Hnd [] bte Hbte)).
Qed.

(** *** The test of lines 723-726 and the bracket of the specification *)

Lemma path_attrs_In (coll : list (Z * Game)) (attr : Game -> option Z)
  (path : list Z) :
  forall vs,
    path_attrs coll attr path = Ok vs ->
    forall v,
      In v vs
      <-> exists gid game,
          In gid path /\ dict_get Z.eqb coll gid = Some game
          /\ attr game = Some v.
Proof.
  induction path as [| n path IH]; intros vs Hrun v.
  - injection Hrun as <-. split; [intros [] | intros (gid & _ & [] & _)].
  - cbn [path_attrs] in Hrun. unfold dict_index in Hrun.
    destruct (dict_get Z.eqb coll n) as [game |] eqn:Hgame; [| discriminate].
    cbn [bind] in Hrun. apply bind_Ok_inv in Hrun as (rest & Hrest & Hrun).
    specialize (IH rest Hrest v).
    destruct (attr game) as [a |] eqn:Ha; injection Hrun as <-.
    + split.
      * intros [<- | Hin].
        -- exists n, game. split; [left; reflexivity | split; assumption].
        -- apply IH in Hin as (gid & gm & Hg & Hd & Hat).
           exists gid, gm. split; [right; exact Hg | split; assumption].
      * intros (gid & gm & [<- | Hg] & Hd & Hat).
        -- left. congruence.
        -- right. apply IH. exists gid, gm. auto.
    + split.
      * intros Hin. apply IH in Hin as (gid & gm & Hg & Hd & Hat).
        exists gid, gm. split; [right; exact Hg | split; assumption].
      * intros (gid & gm & [<- | Hg] & Hd & Hat); [congruence |].
        apply IH. exists gid, gm. auto.
Qed.

Lemma path_attrs_total (coll : list (Z * Game)) (attr : Game -> option Z)
  (path : list Z) :
  (forall gid, In gid path -> exists game, dict_get Z.eqb coll gid = Some game) ->
  exists vs, path_attrs coll attr path = Ok vs.
Proof.
  induction path as [| n path IH]; intros H; [exists []; reflexivity |].
  destruct (H n (or_introl eq_refl)) as (game & Hgame).
  destruct IH as (rest & Hrest); [intros gid Hg; apply H; right; exact Hg |].
  cbn [path_attrs]. unfold dict_index. rewrite Hgame. cbn [bind].
  rewrite Hrest. cbn [bind]. destruct (attr game); eexists; reflexivity.
Qed.

Lemma fold_max_spec (l : list Z) (a : Z) :
  (fold_left Z.max l a = a \/ In (fold_left Z.max l a) l)
  /\ a <= fold_left Z.max l a
  /\ forall x, In x l -> x <= fold_left Z.max l a.
Proof.
  revert a. induction l as [| y l IH]; intros a; cbn [fold_left].
  - split; [left; reflexivity |]. split; [lia | intros x []].
  - destruct (IH (Z.max a y)) as (Hatt & Hge & Hall). split; [| split].
    + destruct Hatt as [Heq | Hin]; [| right; right; exact Hin].
      rewrite Heq.
      destruct (Z.max_spec a y) as [[_ ->] | [_ ->]];
        [right; left; reflexivity | left; reflexivity].
    + lia.
    + intros x [<- | Hx]; [lia | exact (Hall x Hx)].
Qed.

Lemma py_max_int_largest (l : list Z) (v : Z) :
  py_max_int l = Ok v <-> In v l /\ forall x, In x l -> x <= v.
Proof.
  destruct l as [| a l]; cbn [py_max_int].
  - split; [discriminate | intros [[] _]].
  - destruct (fold_max_spec l a) as (Hatt & Hge & Hall). split.
    + intros H. injection H as <-. split.
      * destruct Hatt as [Heq | Hin]; [left; symmetry; exact Heq | right; exact Hin].
      * intros x [<- | Hx]; [exact Hge | exact (Hall x Hx)].
    + intros [Hin Hmax]. f_equal. apply Z.le_antisymm.
      * apply Hmax. destruct Hatt as [Heq | H];
          [left; symmetry; exact Heq | right; exact H].
      * destruct Hin as [<- | Hin]; [exact Hge | exact (Hall v Hin)].
Qed.

Lemma largest_on_max (coll : list (Z * Game)) (attr : Game -> option Z)
  (path : list Z) (vs : list Z) (v : Z) :
  path_attrs coll attr path = Ok vs ->
  (py_max_int vs = Ok v <-> largest_on coll attr path v).
Proof.
  intros Hvs. rewrite py_max_int_largest. unfold largest_on.
  pose proof (path_attrs_In coll attr path vs Hvs) as Hin. split.
  - intros [Hv Hmax]. split; [apply Hin; exact Hv |].
    intros gid game v' Hg Hd Ha. apply Hmax. apply Hin. exists gid, game. auto.
  - intros [Hv Hmax]. split; [apply Hin; exact Hv |].
    intros x Hx. apply Hin in Hx as (gid & game & Hg & Hd & Ha).
    exact (Hmax gid game x Hg Hd Ha).
Qed.

(** A path that passes the test of the code has the group size in its
    bracket. *)
Lemma path_feasible_fits (coll : list (Z * Game)) (n : Z) (path : list Z) :
  path_feasible coll n path = Ok true -> group_fits_path coll n path.
Proof.
  intros H.
  destruct (path_feasible_spec coll n path H)
    as (maxs & mins & p_max & p_min & Hmaxs & Hmins & Hpmax & Hpmin & Hn).
  exists p_min, p_max.
  split; [exact (proj1 (largest_on_max _ _ _ _ _ Hmins) Hpmin) |].
  split; [exact (proj1 (largest_on_max _ _ _ _ _ Hmaxs) Hpmax) | exact Hn].
Qed.

(** With bounds as the parser stores them, a path of games of the collection
    whose bracket holds the group size passes the test of the code. *)
Lemma group_fits_feasible (coll : list (Z * Game)) (n : Z) (path : list Z) :
  bounds_positive coll ->
  (forall gid, In gid path -> exists game, dict_get Z.eqb coll gid = Some game) ->
  group_fits_path coll n path ->
  path_feasible coll n path = Ok true.
Proof.
  intros Hpos Hcoll (p_min & p_max & Hmin & Hmax & Hn).
  destruct (path_attrs_total coll player_max path Hcoll) as (maxs & Hmaxs).
  destruct (path_attrs_total coll player_min path Hcoll) as (mins & Hmins).
  pose proof (proj2 (largest_on_max _ _ _ _ _ Hmaxs) Hmax) as Hpmax.
  pose proof (proj2 (largest_on_max _ _ _ _ _ Hmins) Hmin) as Hpmin.
  assert (0 < p_min) as Hmin0.
  { destruct Hmin as [(gid & game & _ & Hd & Ha) _].
    exact (Hpos gid game p_min (dict_get_In _ _ _ Hd) (or_introl Ha)). }
  assert (0 < p_max) as Hmax0.
  { destruct Hmax as [(gid & game & _ & Hd & Ha) _].
    exact (Hpos gid game p_max (dict_get_In _ _ _ Hd) (or_intror Ha)). }
  unfold path_feasible. rewrite Hmaxs. cbn [bind]. rewrite Hpmax. cbn [bind].
  rewrite Hmins. cbn [bind]. rewrite Hpmin. cbn [bind]. f_equal.
  unfold truthy_int.
  destruct (Z.eqb_spec p_max 0); [lia |]. destruct (Z.eqb_spec p_min 0); [lia |].
  cbn [negb andb]. apply in_range_spec. lia.
Qed.

(** The paths kept under a base are exactly the feasible paths from the base
    to a reachable expansion. *)
Lemma kept_paths_are_the_feasible_paths (m : Master) (g : DiGraph)
  (graph : list (Z * list (list Z))) (nodes : list Z) (base : Z)
  (nd : NodeData) :
  bounds_positive (collection m) ->
  exp_graph m = Ok g ->
  build_exp_graph m = Ok (graph, nodes) ->
  In (base, nd) (node g) -> isBase nd = true ->
  exists exps,
    dict_get Z.eqb graph base = Some exps
    /\ forall path,
        In path exps
        <-> feasible_expansion_path (collection m) (number_of_players m) g
              base path.
Proof.
  intros Hpos Hg Hbuild Hnode Hbase.
  destruct (exp_graph_nodes_from m g Hg) as [Hnd Hdata].
  pose proof (exp_graph_edges_closed m g Hg) as Hclosed.
  destruct (build_exp_graph_complete m g graph nodes Hg Hbuild base nd Hnode Hbase)
    as (exps & Hexps & Hcomplete).
  destruct (build_exp_graph_sound m graph nodes Hbuild) as (g' & Hg' & Hkept).
  rewrite Hg in Hg'. injection Hg' as <-.
  exists exps. split; [exact Hexps |]. intros path. split.
  - intros Hin.
    destruct (Hkept base exps path Hexps Hin)
      as (Hf & child & cd & Hchild & Hcd & Hsimple).
    split; [exists child, cd; auto | exact (path_feasible_fits _ _ _ Hf)].
  - intros [(child & cd & Hchild & Hcd & Hsimple) Hfits].
    assert (In base (dict_keys (node g))) as Hbk.
    { apply in_map_iff. exists (base, nd). auto. }
    apply (Hcomplete child cd path Hchild Hcd).
    + apply all_simple_paths_complete; [exact Hclosed | | exact Hsimple].
      intros <-. pose proof (dict_keys_unique _ _ _ _ Hnd Hnode Hchild). congruence.
    + apply group_fits_feasible; [exact Hpos | | exact Hfits].
      intros gid Hgid.
      apply (simple_path_nodes g base child path Hclosed Hbk Hsimple) in Hgid.
      apply in_map_iff in Hgid as ([k d] & <- & Hkd).
      destruct (Hdata k d Hkd) as (game & Hgame & _). exists game. exact Hgame.
Qed.

Local Open Scope R_scope.

(** C2. Let [base] be a base node of the dependency graph with an evaluation
    [own] of its own and at least one feasible path to a reachable expansion:
    a simple path of the graph from [base] to an expansion node whose bracket
    (the largest [player_min] and the largest [player_max] on the path)
    holds the group size.  With numbers of players as the parser stores
    them, the loop of lines 736-744 ends and gives [base] a display score
    [d] that is the maximum of [own] and of the scores of all games on the
    feasible paths from [base]: it is one of them, it is at least [own], and
    it is at least the score of every game, so of every expansion, on every
    feasible path.  Whenever the re-ranking produces its scores [new_eval],
    [d] is the score of [base] there. *)
Theorem display_score_is_path_maximum (m : Master) (g : DiGraph)
  (graph : list (Z * list (list Z))) (nodes : list Z) (base : Z)
  (nd : NodeData) (own : R) :
  bounds_positive (collection m) ->
  exp_graph m = Ok g ->
  build_exp_graph m = Ok (graph, nodes) ->
  In (base, nd) (node g) -> isBase nd = true ->
  dict_get Z.eqb (evaluations m) base = Some own ->
  (exists path,
      feasible_expansion_path (collection m) (number_of_players m) g base path) ->
  exists max_scores d,
    for_each (max_scores_step (evaluations m)) graph [] = Ok max_scores
    /\ dict_get Z.eqb max_scores base = Some d
    /\ (d = own
        \/ exists path gid,
            feasible_expansion_path (collection m) (number_of_players m) g
              base path
            /\ In gid path
            /\ dict_get Z.eqb (evaluations m) gid = Some d)
    /\ own <= d
    /\ (forall path gid s,
           feasible_expansion_path (collection m) (number_of_players m) g
             base path ->
           In gid path ->
           dict_get Z.eqb (evaluations m) gid = Some s -> s <= d)
    /\ (forall new_eval,
           display_scores m = Ok new_eval ->
           dict_get Z.eqb new_eval base = Some d).
Proof.
  intros Hpos Hg Hbuild Hnode Hbase Hown (path0 & Hfeas0).
  destruct (kept_paths_are_the_feasible_paths m g graph nodes base nd
              Hpos Hg Hbuild Hnode Hbase) as (exps & Hexps & Hiff).
  destruct (build_exp_graph_inv m graph nodes Hbuild)
    as (g' & Hg' & Hnodes & [Hnd _] & [Hgraph _]).
  rewrite Hg in Hg'. injection Hg' as <-.
  assert (exps <> []) as Hne
    by (intros ->; exact (proj2 (Hiff path0) Hfeas0)).
  destruct (max_scores_loop (evaluations m) graph Hgraph [])
    as (max_scores & Hmax & Hin & _).
  destruct (Hin base exps (dict_get_In _ _ _ Hexps) Hne) as (d & Hd & Hmaxof).
  rewrite Hown in Hmaxof. destruct Hmaxof as (Hatt & Hge & Hall).
  exists max_scores, d.
  split; [exact Hmax |]. split; [exact Hd |]. split; [| split; [exact Hge |]; split].
  - destruct Hatt as [-> | Hatt]; [left; reflexivity | right].
    apply in_flat_map in Hatt as (path & Hpath & Hatt).
    apply scores_on_path_In in Hatt as (gid & Hgid & Hs).
    exists path, gid. split; [exact (proj1 (Hiff path) Hpath) | auto].
  - intros path gid s Hpath Hgid Hs. apply Hall.
    apply in_flat_map. exists path. split; [exact (proj2 (Hiff path) Hpath) |].
    apply scores_on_path_In. exists gid. auto.
  - intros new_eval Hdisp.
    apply display_scores_inv in Hdisp as (graph' & nodes' & ms' & Hb' & Hm' & Hloop).
    rewrite Hbuild in Hb'. injection Hb' as <- <-.
    rewrite Hmax in Hm'. injection Hm' as <-.
    assert (NoDup nodes) as Hndn by (rewrite Hnodes; exact Hnd).
    destruct (new_eval_loop graph max_scores nodes Hndn _ _ Hloop) as (_ & Hb & _).
    assert (dict_mem Z.eqb graph base = true) as Hmem
      by (unfold dict_mem; rewrite Hexps; reflexivity).
    assert (In base nodes) as Hbn.
    { rewrite Hnodes. apply in_map_iff. exists (base, nd). auto. }
    rewrite (proj1 (Hb base Hbn Hmem)). exact Hd.
Qed.

Local Close Scope R_scope.

(** The fork: the path to the expansion for 5 players or more is left out,
    though that expansion is a candidate and has the best rating. *)
Lemma fork_rated_run : rate_our_games fork_fresh None None = Ok fork_rated.
Proof. reflexivity. Qed.

Lemma fork_rated_exp_graph : exp_graph fork_rated = Ok fork_graph.
Proof. reflexivity. Qed.

Lemma fork_rated_graph :
  build_exp_graph fork_rated = Ok ([(1, [[1; 2]])], [2; 1; 3]).
Proof. reflexivity. Qed.

Lemma fork_bounds_positive : bounds_positive (collection fork_rated).
Proof.
  intros gid g v [H | [H | [H | []]]]; injection H as <- <-; cbn;
    intros [H | H]; try discriminate H; injection H as <-; lia.
Qed.

Lemma fork_feasible_path :
  feasible_expansion_path (collection fork_rated) (number_of_players fork_rated)
    fork_graph 1 [1; 2].
Proof.
  split.
  - exists 2, (mkNodeData (Some 2) (Some 4) false).
    split; [left; reflexivity |]. split; [reflexivity |].
    split; [reflexivity |]. split; [reflexivity |].
    split; [cbn; auto |].
    repeat constructor; cbn; intuition lia.
  - exists 2, 4. split; [| split; [| cbn; lia]].
    + split.
      * exists 1, fork_base. split; [left; reflexivity | split; reflexivity].
      * intros gid game v' [<- | [<- | []]] Hd Ha;
          cbn in Hd; injection Hd as <-; cbn in Ha; injection Ha as <-; lia.
    + split.
      * exists 1, fork_base. split; [left; reflexivity | split; reflexivity].
      * intros gid game v' [<- | [<- | []]] Hd Ha;
          cbn in Hd; injection Hd as <-; cbn in Ha; injection Ha as <-; lia.
Qed.

Local Open Scope R_scope.

Lemma fork_players_score (gid : Z) (g : Game) :
  In (gid, g) fork_collection ->
  score_players g gid [gina; bob]
  = (match average_rating g with Some r => r | None => 0.5 end, 0.4).
Proof.
  intros [H | [H | [H | []]]]; injection H as <- <-;
    unfold score_players, players_score_loop, players_score_init;
    cbn [fork_base fork_small fork_large average_rating truthy_float float_of];
    repeat match goal with
           | |- context [Req_dec_T ?a ?b] => destruct (Req_dec_T a b); [lra |]
           end;
    cbn [fold_left players_score_step gina bob is_guest games_stats dict_get
         Z.eqb Pos.eqb stats_owned want_to_play rating truthy_float];
    unfold w_players_score;
    repeat match goal with
           | |- context [Rlt_dec ?a ?b] => destruct (Rlt_dec a b); try lra
           end;
    try (f_equal; lra).
Qed.

Lemma fork_evaluations :
  evaluations fork_rated
  = [(1%Z, final_score [score_playing_time fork_base None None;
                        score_weight fork_base None; (0.6, w_suggested_values);
                        score_players fork_base 1 [gina; bob]]);
     (2%Z, final_score [score_playing_time fork_small None None;
                        score_weight fork_small None; (0.6, w_suggested_values);
                        score_players fork_small 2 [gina; bob]]);
     (3%Z, final_score [score_playing_time fork_large None None;
                        score_weight fork_large None; (0.6, w_suggested_values);
                        score_players fork_large 3 [gina; bob]])].
Proof. reflexivity. Qed.

(** The score of a game of the fork is its weighted average, 0.12 for the
    suggested players and 0.4 times the players score over 0.6, rounded. *)
Lemma fork_final_score (gid : Z) (g : Game) :
  In (gid, g) fork_collection ->
  0 <= match average_rating g with Some r => r | None => 0.5 end <= 1 ->
  Rabs (final_score [score_playing_time g None None; score_weight g None;
                     (0.6, w_suggested_values);
                     score_players g gid [gina; bob]]
        - (0.12 + match average_rating g with Some r => r | None => 0.5 end
                  * 0.4) / 0.6)
  <= 1 / 20000.
Proof.
  intros Hin Hx. rewrite (fork_players_score gid g Hin).
  assert (score_playing_time g None None = (0, 0)) as ->.
  { destruct Hin as [H | [H | [H | []]]]; injection H as <- <-; reflexivity. }
  assert (score_weight g None = (0, 0)) as ->.
  { destruct Hin as [H | [H | [H | []]]]; injection H as <- <-; reflexivity. }
  generalize dependent
    (match average_rating g with Some r => r | None => 0.5 end).
  intros v Hv.
  unfold final_score, py_sum, w_suggested_values. cbn [map fold_left fst snd].
  destruct (Rlt_dec 0.0 (0 + 0 + 0 + 0.2 + 0.4)) as [_ | Hn]; [| lra].
  replace ((0 + 0 * 0 + 0 * 0 + 0.6 * 0.2 + v * 0.4) / (0 + 0 + 0 + 0.2 + 0.4))
    with ((0.12 + v * 0.4) / 0.6) by (f_equal; lra).
  assert (0 <= (0.12 + v * 0.4) / 0.6 <= 1) as Havg by lra.
  pose proof (py_round_4_unit _ Havg) as Hround.
  pose proof (py_round_4_near ((0.12 + v * 0.4) / 0.6)) as Hnear.
  assert (standardize ((0.12 + v * 0.4) / 0.6)
          = py_round ((0.12 + v * 0.4) / 0.6) 4) as ->
    by (unfold standardize, py_max2, py_min2; repeat destruct Rlt_dec; lra).
  exact Hnear.
Qed.

(** The base scores about 0.53, its expansion 0.73, and the expansion behind
    the path that is not feasible 0.8. *)
Lemma fork_scores_apart :
  exists own s2 s3,
    dict_get Z.eqb (evaluations fork_rated) 1%Z = Some own
    /\ dict_get Z.eqb (evaluations fork_rated) 2%Z = Some s2
    /\ dict_get Z.eqb (evaluations fork_rated) 3%Z = Some s3
    /\ own < s2 < s3.
Proof.
  rewrite fork_evaluations. do 3 eexists.
  split; [reflexivity |]. split; [reflexivity |]. split; [reflexivity |].
  pose proof (fork_final_score 1%Z fork_base (or_introl eq_refl)) as H1.
  pose proof (fork_final_score 2%Z fork_small (or_intror (or_introl eq_refl)))
    as H2.
  pose proof (fork_final_score 3%Z fork_large
                (or_intror (or_intror (or_introl eq_refl)))) as H3.
  cbn [fork_base fork_small fork_large average_rating] in H1, H2, H3.
  specialize (H1 ltac:(lra)). specialize (H2 ltac:(lra)).
  specialize (H3 ltac:(lra)).
  apply Rabs_bound in H1, H2, H3. lra.
Qed.

Local Close Scope R_scope.

Lemma display_score_is_path_maximum_witness :
  exists own d s3 new_eval,
    dict_get Z.eqb (evaluations fork_rated) 1 = Some own
    /\ dict_get Z.eqb (evaluations fork_rated) 3 = Some s3
    /\ display_scores fork_rated = Ok new_eval
    /\ dict_get Z.eqb new_eval 1 = Some d
    /\ (own < d < s3)%R.
Proof.
  destruct fork_scores_apart as (own & s2 & s3 & H1 & H2 & H3 & Hlt).
  assert (exists new_eval, display_scores fork_rated = Ok new_eval)
    as [new_eval Hrun] by (eexists; reflexivity).
  destruct (display_score_is_path_maximum fork_rated fork_graph
              [(1, [[1; 2]])] [2; 1; 3] 1 (mkNodeData (Some 2) (Some 4) true) own
              fork_bounds_positive fork_rated_exp_graph fork_rated_graph
              (or_intror (or_introl eq_refl)) eq_refl H1
              (ex_intro _ [1; 2] fork_feasible_path))
    as (max_scores & d & _ & _ & Hatt & _ & Hall & Hdisp).
  exists own, d, s3, new_eval.
  split; [exact H1 |]. split; [exact H3 |]. split; [exact Hrun |].
  split; [exact (Hdisp new_eval Hrun) |].
  pose proof (Hall [1; 2] 2 s2 fork_feasible_path
                (or_intror (or_introl eq_refl)) H2) as Hs2.
  split; [lra |].
  destruct Hatt as [-> | (path & gid & Hf & Hgid & Hd)]; [lra |].
  destruct (kept_paths_are_the_feasible_paths fork_rated fork_graph
              [(1, [[1; 2]])] [2; 1; 3] 1 (mkNodeData (Some 2) (Some 4) true)
              fork_bounds_positive fork_rated_exp_graph fork_rated_graph
              (or_intror (or_introl eq_refl)) eq_refl)
    as (exps & Hexps & Hiff).
  injection Hexps as <-.
  apply Hiff in Hf. destruct Hf as [<- | []].
  destruct Hgid as [<- | [<- | []]].
  - rewrite H1 in Hd. injection Hd as <-. lra.
  - rewrite H2 in Hd. injection Hd as <-. lra.
Defined.
